(** * hata.backend.multipart: a shallow embedding and its verified properties

    The development follows [src/hata/backend/multipart.py].  Python [bytes]
    are lists of [byte], Python [str] are lists of [ascii] (code points below
    256), exceptions are the [Raise] branch of [result], and objects that the
    source mutates are threaded explicitly. *)

From Stdlib Require Import Strings.String Strings.Ascii Strings.Byte.
From Stdlib Require Import List NArith ZArith Lia Bool Arith PeanoNat.
From Stdlib Require Import Sorting.Permutation Sorting.Sorted.
Import ListNotations.

Local Open Scope list_scope.
Local Open Scope nat_scope.

(** * Part I: the embedding *)

(** ** Python values *)

Definition bytes := list byte.
Definition str := list ascii.

(** Literals: [b "abc"] is [b'abc'] and [s "abc"] is ['abc']. *)
Definition b (x : string) : bytes := list_byte_of_string x.
Definition s (x : string) : str := list_ascii_of_string x.

Definition CR : byte := Byte.x0d.
Definition LF : byte := Byte.x0a.
Definition CRLF : bytes := [CR; LF].

(** Exceptions raised by the modelled code. *)
Inductive exn : Set :=
| AttributeError
| TypeError
| ValueError
| RuntimeError
| LookupError
| IndexError
| KeyError
| UnicodeDecodeError
| ContentEncodingError.

Inductive result (A : Type) : Type :=
| Ok (a : A)
| Raise (e : exn).
Arguments Ok {A} a.
Arguments Raise {A} e.

Definition bind {A B} (m : result A) (k : A -> result B) : result B :=
  match m with
  | Ok a => k a
  | Raise e => Raise e
  end.

Notation "x <- m ;; k" := (bind m (fun x => k))
  (at level 61, m at next level, right associativity).
Notation "' p <- m ;; k" := (bind m (fun p => k))
  (at level 61, p pattern, m at next level, right associativity).

(** Truthiness of a sequence: [if chunk:]. *)
Definition truthy {A} (l : list A) : bool :=
  match l with [] => false | _ => true end.

Definition slice {A} (l : list A) (lo hi : nat) : list A :=
  firstn (hi - lo) (skipn lo l).

(** ** base64.b64encode *)

Module Base64.

Definition alphabet : bytes :=
  b "ABCDEFGHIJKLMNOPQRSTUVWXYZabcdefghijklmnopqrstuvwxyz0123456789+/".

Definition pad : byte := Byte.x3d.

Definition sextet (n : N) : byte := nth (N.to_nat (N.land n 63)) alphabet pad.

Definition group3 (x y z : byte) : bytes :=
  let n := N.lor (N.shiftl (Byte.to_N x) 16)
             (N.lor (N.shiftl (Byte.to_N y) 8) (Byte.to_N z)) in
  [sextet (N.shiftr n 18); sextet (N.shiftr n 12); sextet (N.shiftr n 6); sextet n].

Definition group2 (x y : byte) : bytes :=
  let n := N.lor (N.shiftl (Byte.to_N x) 16) (N.shiftl (Byte.to_N y) 8) in
  [sextet (N.shiftr n 18); sextet (N.shiftr n 12); sextet (N.shiftr n 6); pad].

Definition group1 (x : byte) : bytes :=
  let n := N.shiftl (Byte.to_N x) 16 in
  [sextet (N.shiftr n 18); sextet (N.shiftr n 12); pad; pad].

Fixpoint b64encode (l : bytes) : bytes :=
  match l with
  | x :: y :: z :: r => group3 x y z ++ b64encode r
  | [x; y] => group2 x y
  | [x] => group1 x
  | [] => []
  end.

End Base64.

(** ** class MultipartPayloadWriter

    The compressor ([ZLIB_COMPRESSOR], [BROTLI_COMPRESSOR]) and
    [binascii.b2a_qp] are collaborators outside the module; they are taken as
    parameters.  The underlying writer is the log of the chunks written to it. *)

Module MultipartPayloadWriter.

Record compressor_ops : Type := {
  comp_state : Type;
  ZLIB_COMPRESSOR : Z -> comp_state;
  BROTLI_COMPRESSOR : option comp_state;
  compress : comp_state -> bytes -> bytes * comp_state;
  flush : comp_state -> bytes
}.

Definition MAX_WBITS : Z := 15.

Section Sink.

Variable C : compressor_ops.
Variable b2a_qp : bytes -> bytes.

Record t : Type := {
  writer : list bytes;
  encoding : option str;
  compressor : option (comp_state C);
  encoding_buffer : option bytes
}.

Definition __init__ (w : list bytes) : t :=
  {| writer := w; encoding := None; compressor := None; encoding_buffer := None |}.

Definition str_eqb (x y : str) : bool :=
  if list_eq_dec ascii_dec x y then true else false.

Definition enable_encoding (self : t) (enc : str) : t :=
  if str_eqb enc (s "base64") then
    {| writer := writer self; encoding := Some enc;
       compressor := compressor self; encoding_buffer := Some [] |}
  else if str_eqb enc (s "quoted-printable") then
    {| writer := writer self; encoding := Some enc;
       compressor := compressor self; encoding_buffer := encoding_buffer self |}
  else self.

Definition enable_compression (self : t) (enc : str) : result t :=
  compressor <-
    (if str_eqb enc (s "gzip") then Ok (Some (ZLIB_COMPRESSOR C (16 + MAX_WBITS)%Z))
     else if str_eqb enc (s "deflate") then Ok (Some (ZLIB_COMPRESSOR C (- MAX_WBITS)%Z))
     else if str_eqb enc (s "br") then
       match BROTLI_COMPRESSOR C with
       | None => Raise ContentEncodingError
       | Some c => Ok (Some c)
       end
     else if str_eqb enc (s "identity") then Ok None
     else Raise ContentEncodingError) ;;
  Ok {| writer := writer self; encoding := encoding self;
        compressor := compressor; encoding_buffer := encoding_buffer self |}.

Definition writer_write (self : t) (chunk : bytes) : t :=
  {| writer := writer self ++ [chunk]; encoding := encoding self;
     compressor := compressor self; encoding_buffer := encoding_buffer self |}.

Definition set_compressor (self : t) (c : option (comp_state C)) : t :=
  {| writer := writer self; encoding := encoding self;
     compressor := c; encoding_buffer := encoding_buffer self |}.

Definition set_buffer (self : t) (buf : bytes) : t :=
  {| writer := writer self; encoding := encoding self;
     compressor := compressor self; encoding_buffer := Some buf |}.

Definition is_encoding (self : t) (name : string) : bool :=
  match encoding self with
  | Some e => str_eqb e (s name)
  | None => false
  end.

(** The part of [write] after the compressor stage. *)
Definition write_encoded (self : t) (chunk : bytes) : result t :=
  if is_encoding self "base64" then
    match encoding_buffer self with
    | None => Raise AttributeError
    | Some buf =>
        let buf := buf ++ chunk in
        let self := set_buffer self buf in
        if truthy buf then
          let barrier := (length buf / 3) * 3 in
          if negb (barrier =? 0) then
            let encoding_chunk := firstn barrier buf in
            let self := set_buffer self (skipn barrier buf) in
            Ok (writer_write self (Base64.b64encode encoding_chunk))
          else Ok self
        else Ok self
    end
  else if is_encoding self "quoted-printable" then
    Ok (writer_write self (b2a_qp chunk))
  else
    Ok (writer_write self chunk).

Definition write (self : t) (chunk : bytes) : result t :=
  match compressor self with
  | Some c =>
      if truthy chunk then
        let '(chunk, c) := compress C c chunk in
        let self := set_compressor self (Some c) in
        if negb (truthy chunk) then Ok self
        else write_encoded self chunk
      else write_encoded self chunk
  | None => write_encoded self chunk
  end.

Definition write_eof (self : t) : result t :=
  self <- match compressor self with
          | Some c =>
              let chunk := flush C c in
              let self := set_compressor self None in
              if truthy chunk then write self chunk else Ok self
          | None => Ok self
          end ;;
  if is_encoding self "base64" then
    match encoding_buffer self with
    | Some buf =>
        if truthy buf then Ok (writer_write self (Base64.b64encode buf))
        else Ok self
    | None => Ok self
    end
  else Ok self.

(** Feeding a sequence of chunks, one [write] call each. *)
Fixpoint feed (self : t) (chunks : list bytes) : result t :=
  match chunks with
  | [] => Ok self
  | c :: cs => self <- write self c ;; feed self cs
  end.

End Sink.

Arguments writer {C} _.
Arguments encoding {C} _.
Arguments compressor {C} _.
Arguments encoding_buffer {C} _.

End MultipartPayloadWriter.

(** Cutting a body into chunks of [n] bytes, the last one possibly shorter. *)
Fixpoint chunks_of (fuel n : nat) (data : bytes) : list bytes :=
  match fuel with
  | 0 => []
  | S fuel =>
      match data with
      | [] => []
      | _ => firstn n data :: chunks_of fuel n (skipn n data)
      end
  end.

Definition chunked (n : nat) (data : bytes) : list bytes :=
  chunks_of (length data) n data.

Definition no_compressor : MultipartPayloadWriter.compressor_ops :=
  {| MultipartPayloadWriter.comp_state := unit;
     MultipartPayloadWriter.ZLIB_COMPRESSOR := fun _ => tt;
     MultipartPayloadWriter.BROTLI_COMPRESSOR := None;
     MultipartPayloadWriter.compress := fun c x => (x, c);
     MultipartPayloadWriter.flush := fun _ => [] |}.

(** ** Python [str] methods

    Characters are the code points below 256; the predicates follow Python's
    tables on that range. *)

Module Str.

Local Open Scope N_scope.

Definition code (c : ascii) : N := N_of_ascii c.
Definition chr (n : N) : ascii := ascii_of_N n.

Definition eqb (x y : str) : bool :=
  if list_eq_dec ascii_dec x y then true else false.

Definition lower_char (c : ascii) : ascii :=
  let n := code c in
  if ((65 <=? n) && (n <=? 90)) || ((192 <=? n) && (n <=? 222) && negb (n =? 215))
  then chr (n + 32) else c.

Definition lower (x : str) : str := map lower_char x.

Definition isspace (c : ascii) : bool :=
  let n := code c in
  ((9 <=? n) && (n <=? 13)) || ((28 <=? n) && (n <=? 32)) || (n =? 133) || (n =? 160).

Definition isdigit_char (c : ascii) : bool :=
  let n := code c in
  ((48 <=? n) && (n <=? 57)) || (n =? 178) || (n =? 179) || (n =? 185).

Definition isdigit (x : str) : bool := truthy x && forallb isdigit_char x.

Fixpoint lstrip_by (p : ascii -> bool) (x : str) : str :=
  match x with
  | c :: r => if p c then lstrip_by p r else x
  | [] => []
  end.

Definition rstrip_by (p : ascii -> bool) (x : str) : str :=
  rev (lstrip_by p (rev x)).

Definition member (c : ascii) (chars : str) : bool := existsb (Ascii.eqb c) chars.

Definition lstrip (x : str) : str := lstrip_by isspace x.
Definition strip (x : str) : str := rstrip_by isspace (lstrip_by isspace x).
Definition lstrip_chars (chars x : str) : str := lstrip_by (fun c => member c chars) x.

(** [x.strip(chars)]. *)
Definition strip_chars (chars x : str) : str :=
  rstrip_by (fun c => member c chars) (lstrip_by (fun c => member c chars) x).

Fixpoint startswith (x prefix : str) {struct prefix} : bool :=
  match prefix, x with
  | [], _ => true
  | p :: prefix, c :: x => Ascii.eqb c p && startswith x prefix
  | _ :: _, [] => false
  end.

Definition endswith (x suffix : str) : bool := startswith (rev x) (rev suffix).

Definition count (c : ascii) (x : str) : nat :=
  List.length (filter (Ascii.eqb c) x).

(** Comparison of strings by code points, as [<] and [sorted] do. *)
Fixpoint compare (x y : str) : comparison :=
  match x, y with
  | [], [] => Eq
  | [], _ :: _ => Lt
  | _ :: _, [] => Gt
  | c :: x, d :: y =>
      match N.compare (code c) (code d) with
      | Eq => compare x y
      | o => o
      end
  end.

(** [x.find(c) + 1] for a character [c]: zero when [c] does not occur. *)
Fixpoint find_succ (c : ascii) (x : str) : nat :=
  match x with
  | [] => O
  | d :: r =>
      if Ascii.eqb d c then 1%nat
      else match find_succ c r with
           | O => O
           | S n => S (S n)
           end
  end.

(** [x.split(sep, maxsplit)] for a one-character separator. *)
Fixpoint splitn (sep : ascii) (maxsplit : nat) (x : str) {struct x} : list str :=
  match maxsplit with
  | O => [x]
  | S m =>
      match x with
      | [] => [[]]
      | c :: r =>
          if Ascii.eqb c sep then [] :: splitn sep m r
          else match splitn sep maxsplit r with
               | h :: t => (c :: h) :: t
               | [] => [[c]]
               end
      end
  end.

(** [x.split(sep)]: no bound on the number of pieces. *)
Definition split (sep : ascii) (x : str) : list str :=
  splitn sep (S (List.length x)) x.

Definition join (sep : str) (parts : list str) : str :=
  match parts with
  | [] => []
  | p :: ps => p ++ concat (map (fun q => sep ++ q) ps)
  end.

(** [x[1:-1]]. *)
Definition strip_ends (x : str) : str := removelast (tl x).

(** [x[:-1]]. *)
Definition drop_last (x : str) : str := removelast x.

(** [str(n)] for a natural number. *)
Definition digit_char (d : nat) : ascii := chr (48 + N.of_nat d).

Fixpoint digits_of (fuel n : nat) : str :=
  match fuel with
  | O => []
  | S fuel =>
      if (n <? 10)%nat then [digit_char n]
      else digits_of fuel (n / 10) ++ [digit_char (n mod 10)]
  end.

Definition of_nat (n : nat) : str := digits_of (S n) n.

(** [str(n)] for an integer. *)
Definition of_int (n : Z) : str :=
  if (n <? 0)%Z then "-"%char :: of_nat (Z.to_nat (- n)) else of_nat (Z.to_nat n).

(** [int(x)] in base 10: surrounding whitespace, an optional sign, digits
    with single underscores between them. *)
Definition digit_val (c : ascii) : option Z :=
  let n := code c in
  if (48 <=? n) && (n <=? 57) then Some (Z.of_N (n - 48)) else None.

Fixpoint int_digits (acc : Z) (after_digit : bool) (x : str) : option Z :=
  match x with
  | [] => if after_digit then Some acc else None
  | c :: r =>
      match digit_val c with
      | Some d => int_digits (10 * acc + d)%Z true r
      | None =>
          if Ascii.eqb c "_" && after_digit then int_digits acc false r else None
      end
  end.

(** The whitespace [int] skips around the number. *)
Definition int_space (c : ascii) : bool :=
  let n := code c in
  ((9 <=? n) && (n <=? 13)) || (n =? 32) || (n =? 133) || (n =? 160).

Definition int (x : str) : result Z :=
  let x := rstrip_by int_space (lstrip_by int_space x) in
  let '(sign, x) :=
    match x with
    | "+"%char :: r => (1%Z, r)
    | "-"%char :: r => ((-1)%Z, r)
    | _ => (1%Z, x)
    end in
  match int_digits 0 false x with
  | Some n => Ok (sign * n)%Z
  | None => Raise ValueError
  end.

(** [x.encode('utf-8')] and [x.encode('ascii')] on code points below 256. *)
Definition encode_utf8_char (c : ascii) : bytes :=
  let n := code c in
  if n <? 128 then [byte_of_ascii c]
  else match Byte.of_N (N.lor 192 (N.shiftr n 6)), Byte.of_N (N.lor 128 (N.land n 63)) with
       | Some hi, Some lo => [hi; lo]
       | _, _ => []
       end.

Definition encode_utf8 (x : str) : bytes := flat_map encode_utf8_char x.

Definition is_ascii (c : ascii) : bool := code c <? 128.

Definition encode_ascii (x : str) : result bytes :=
  if forallb is_ascii x then Ok (map byte_of_ascii x) else Raise ValueError.

Definition decode_ascii (x : bytes) : result str :=
  if forallb (fun c => Byte.to_N c <? 128) x then Ok (map ascii_of_byte x)
  else Raise ValueError.

End Str.

(** ** Python [bytes] methods *)

Module Bytes.

Fixpoint startswith (l sub : bytes) {struct sub} : bool :=
  match sub, l with
  | [], _ => true
  | x :: sub, y :: l => Byte.eqb y x && startswith l sub
  | _ :: _, [] => false
  end.

(** First position, counted from [i], at which [sub] occurs in [l]. *)
Fixpoint find_at (sub l : bytes) (i : nat) : option nat :=
  if startswith l sub then Some i
  else match l with
       | [] => None
       | _ :: l' => find_at sub l' (S i)
       end.

(** [l.find(sub, start)]: the lowest index at or after [start] where [sub]
    occurs, or [-1]. *)
Definition find (l sub : bytes) (start : Z) : Z :=
  let len := Z.of_nat (length l) in
  let start := if (start <? 0)%Z then Z.max 0 (len + start) else start in
  if (len <? start)%Z then (-1)%Z
  else match find_at sub (skipn (Z.to_nat start) l) (Z.to_nat start) with
       | Some i => Z.of_nat i
       | None => (-1)%Z
       end.

(** [l.replace(old, new)] for a one-byte [old]. *)
Definition replace1 (old : byte) (new : bytes) (l : bytes) : bytes :=
  flat_map (fun x => if Byte.eqb x old then new else [x]) l.

Definition len (l : bytes) : Z := Z.of_nat (length l).

Definition eqb (x y : bytes) : bool :=
  if list_eq_dec Byte.byte_eq_dec x y then true else false.

Fixpoint lstrip (chars l : bytes) : bytes :=
  match l with
  | x :: r => if existsb (Byte.eqb x) chars then lstrip chars r else l
  | [] => []
  end.

(** [l.rstrip(chars)]: trailing bytes that are among [chars] removed. *)
Definition rstrip (chars l : bytes) : bytes := rev (lstrip chars (rev l)).

End Bytes.

(** ** Header names ([hdrs]) *)

Definition CONTENT_DISPOSITION : str := s "Content-Disposition".
Definition CONTENT_ENCODING : str := s "Content-Encoding".
Definition CONTENT_LENGTH : str := s "Content-Length".
Definition CONTENT_TRANSFER_ENCODING : str := s "Content-Transfer-Encoding".
Definition CONTENT_TYPE : str := s "Content-Type".

(** ** The header container *)

Module imultidict.

(** Modelled from the spec: [imultidict] of [dereaddons_local] is not among
    the sources.  It is the ordered, case-insensitive, multi-value string map
    with get, get-all, set and remove-all-of-key operations; setting a key
    that is already present does not overwrite its values, the new value is
    layered after them. *)
Definition t := list (str * list str).

Definition key_eqb (k1 k2 : str) : bool := Str.eqb (Str.lower k1) (Str.lower k2).

Definition empty : t := [].

Fixpoint getall (h : t) (k : str) : option (list str) :=
  match h with
  | [] => None
  | (k', vs) :: r => if key_eqb k k' then Some vs else getall r k
  end.

Definition get (h : t) (k : str) : option str :=
  match getall h k with
  | Some (v :: _) => Some v
  | _ => None
  end.

Definition contains (h : t) (k : str) : bool :=
  match getall h k with Some _ => true | None => false end.

Definition getitem (h : t) (k : str) : result str :=
  match get h k with
  | Some v => Ok v
  | None => Raise KeyError
  end.

Fixpoint setitem (h : t) (k v : str) : t :=
  match h with
  | [] => [(k, [v])]
  | (k', vs) :: r =>
      if key_eqb k k' then (k', vs ++ [v]) :: r
      else (k', vs) :: setitem r k v
  end.

Definition popall (h : t) (k : str) : t :=
  filter (fun kv => negb (key_eqb k (fst kv))) h.

Definition items (h : t) : list (str * str) :=
  flat_map (fun kv => map (pair (fst kv)) (snd kv)) h.

Definition update (h : t) (mapping : list (str * str)) : t :=
  fold_left (fun h kv => setitem h (fst kv) (snd kv)) mapping h.

Definition of_mapping (mapping : list (str * str)) : t := update empty mapping.

End imultidict.

(** ** The transport collaborator *)

Module Transport.

(** Modelled from the spec: the stream handed to the part reader as its
    [content] is not among the sources.  Its contract is [read(n)], which may
    return fewer bytes than asked, [readline()], [unread_data(data)] and
    [at_eof()].  The model keeps the bytes in the segments in which they are
    delivered: a [read] returns bytes of the first delivered segment only,
    [unread_data] puts a segment in front.  The operations performed are
    logged. *)
Inductive op : Type :=
| Read (n : Z)
| Readline
| Unread (data : bytes).

Record t : Type := {
  segments : list bytes;
  log : list op
}.

Definition of_segments (segs : list bytes) : t := {| segments := segs; log := [] |}.

Fixpoint read_segments (n : nat) (segs : list bytes) : bytes * list bytes :=
  match segs with
  | [] => ([], [])
  | [] :: rest => read_segments n rest
  | seg :: rest =>
      (firstn n seg, if length seg <=? n then rest else skipn n seg :: rest)
  end.

(** [read(n)]; a negative [n] reads to the end of the stream. *)
Definition read (tr : t) (n : Z) : bytes * t :=
  let '(data, segs) :=
    if (n <? 0)%Z then (concat (segments tr), [])
    else read_segments (Z.to_nat n) (segments tr) in
  (data, {| segments := segs; log := log tr ++ [Read n] |}).

(** The bytes of [seg] up to and including the first line feed, and what
    follows it when there is one. *)
Fixpoint split_line (seg : bytes) : bytes * option bytes :=
  match seg with
  | [] => ([], None)
  | x :: r =>
      if Byte.eqb x LF then ([x], Some r)
      else let '(line, rest) := split_line r in (x :: line, rest)
  end.

Fixpoint readline_segments (segs : list bytes) : bytes * list bytes :=
  match segs with
  | [] => ([], [])
  | seg :: rest =>
      match split_line seg with
      | (line, Some rem) => (line, rem :: rest)
      | (line, None) =>
          let '(more, rest') := readline_segments rest in (line ++ more, rest')
      end
  end.

Definition readline (tr : t) : bytes * t :=
  let '(line, segs) := readline_segments (segments tr) in
  (line, {| segments := segs; log := log tr ++ [Readline] |}).

Definition unread_data (tr : t) (data : bytes) : t :=
  {| segments := data :: segments tr; log := log tr ++ [Unread data] |}.

Definition at_eof (tr : t) : bool := negb (truthy (concat (segments tr))).

(** All the bytes still to be read. *)
Definition remaining (tr : t) : bytes := concat (segments tr).

End Transport.

(** ** class BodyPartReader *)

Module BodyPartReader.

Definition chunk_size : Z := 8192.

Record t : Type := {
  headers : imultidict.t;
  _boundary : bytes;
  _content : Transport.t;
  _at_eof : bool;
  _length : option Z;
  _read_bytes : Z;
  _unread : list bytes;
  _prev_chunk : option bytes;
  _content_eof : Z
}.

Definition __init__ (boundary : bytes) (headers : imultidict.t)
    (content : Transport.t) : result t :=
  length <- match imultidict.get headers CONTENT_LENGTH with
            | None => Ok None
            | Some length => n <- Str.int length ;; Ok (Some n)
            end ;;
  Ok {| headers := headers; _boundary := boundary; _content := content;
        _at_eof := false; _length := length; _read_bytes := 0;
        _unread := []; _prev_chunk := None; _content_eof := 0 |}.

Definition set_content (self : t) (content : Transport.t) : t :=
  {| headers := headers self; _boundary := _boundary self; _content := content;
     _at_eof := _at_eof self; _length := _length self;
     _read_bytes := _read_bytes self; _unread := _unread self;
     _prev_chunk := _prev_chunk self; _content_eof := _content_eof self |}.

Definition set_at_eof (self : t) (v : bool) : t :=
  {| headers := headers self; _boundary := _boundary self; _content := _content self;
     _at_eof := v; _length := _length self;
     _read_bytes := _read_bytes self; _unread := _unread self;
     _prev_chunk := _prev_chunk self; _content_eof := _content_eof self |}.

Definition set_read_bytes (self : t) (v : Z) : t :=
  {| headers := headers self; _boundary := _boundary self; _content := _content self;
     _at_eof := _at_eof self; _length := _length self;
     _read_bytes := v; _unread := _unread self;
     _prev_chunk := _prev_chunk self; _content_eof := _content_eof self |}.

Definition set_prev_chunk (self : t) (v : option bytes) : t :=
  {| headers := headers self; _boundary := _boundary self; _content := _content self;
     _at_eof := _at_eof self; _length := _length self;
     _read_bytes := _read_bytes self; _unread := _unread self;
     _prev_chunk := v; _content_eof := _content_eof self |}.

Definition set_content_eof (self : t) (v : Z) : t :=
  {| headers := headers self; _boundary := _boundary self; _content := _content self;
     _at_eof := _at_eof self; _length := _length self;
     _read_bytes := _read_bytes self; _unread := _unread self;
     _prev_chunk := _prev_chunk self; _content_eof := v |}.

(** [self._length - self._read_bytes]; only reached with a declared length. *)
Definition remaining_length (self : t) : Z :=
  match _length self with
  | Some length => length - _read_bytes self
  | None => 0
  end%Z.

Definition _read_chunk_from_length (self : t) (size : Z) : bytes * t :=
  let chunk_size := Z.min size (remaining_length self) in
  let '(chunk, content) := Transport.read (_content self) chunk_size in
  (chunk, set_content self content).

Definition _read_chunk_from_stream (self : t) (size : Z) : bytes * t :=
  let first_chunk := match _prev_chunk self with None => true | Some _ => false end in
  let '(prev_chunk, self) :=
    match _prev_chunk self with
    | None =>
        let '(data, content) := Transport.read (_content self) size in
        (data, set_prev_chunk (set_content self content) (Some data))
    | Some prev => (prev, self)
    end in
  let '(chunk, content) := Transport.read (_content self) size in
  let self := set_content self content in
  let self := set_content_eof self
                (_content_eof self + if Transport.at_eof content then 1 else 0)%Z in
  let window := prev_chunk ++ chunk in
  let sub := CRLF ++ _boundary self in
  let idx :=
    if first_chunk then Bytes.find window sub 0
    else Bytes.find window sub (Z.max 0 (Bytes.len prev_chunk - Bytes.len sub)) in
  let '(prev_chunk, chunk, self) :=
    if (idx >=? 0)%Z then
      let self := set_content self
                    (Transport.unread_data (_content self) (skipn (Z.to_nat idx) window)) in
      let prev_chunk :=
        if (size >? idx)%Z then firstn (Z.to_nat idx) prev_chunk else prev_chunk in
      let chunk := slice window (length prev_chunk) (Z.to_nat idx) in
      let self := if negb (truthy chunk) then set_at_eof self true else self in
      (prev_chunk, chunk, self)
    else (prev_chunk, chunk, self) in
  let result := prev_chunk in
  (result, set_prev_chunk self (Some chunk)).

Definition length_truthy (self : t) : bool :=
  match _length self with
  | Some n => negb (n =? 0)%Z
  | None => false
  end.

Definition read_chunk (self : t) (size : Z) : bytes * t :=
  if _at_eof self then ([], self)
  else
    let '(chunk, self) :=
      if length_truthy self then _read_chunk_from_length self size
      else _read_chunk_from_stream self size in
    let self := set_read_bytes self (_read_bytes self + Bytes.len chunk)%Z in
    let self :=
      match _length self with
      | Some length => if (_read_bytes self =? length)%Z then set_at_eof self true else self
      | None => self
      end in
    let self :=
      if _at_eof self then set_content self (snd (Transport.readline (_content self)))
      else self in
    (chunk, self).

(** The loop of [read]: [None] when the fuel runs out before end-of-part. *)
Fixpoint read_loop (fuel : nat) (self : t) (data : bytes) : option (bytes * t) :=
  if _at_eof self then Some (data, self)
  else match fuel with
       | O => None
       | S fuel =>
           let '(chunk, self) := read_chunk self chunk_size in
           read_loop fuel self (data ++ chunk)
       end.

(** [read(decode=False)]. *)
Definition read (fuel : nat) (self : t) : option (bytes * t) :=
  if _at_eof self then Some ([], self)
  else read_loop fuel self [].

(** [zlib.decompress], [base64.b64decode] and [binascii.a2b_qp]. *)
Record codecs : Type := {
  zlib_decompress : bytes -> Z -> result bytes;
  b64decode : bytes -> result bytes;
  a2b_qp : bytes -> bytes
}.

Definition header_is (v : str) (names : list string) : bool :=
  existsb (fun n => Str.eqb v (s n)) names.

Definition _decode_content (K : codecs) (self : t) (data : bytes) : result bytes :=
  encoding <- imultidict.getitem (headers self) CONTENT_ENCODING ;;
  let encoding := Str.lower encoding in
  if header_is encoding ["deflate"]%string then zlib_decompress K data (-15)
  else if header_is encoding ["gzip"]%string then zlib_decompress K data (16 + 15)
  else if header_is encoding ["identity"]%string then Ok data
  else Raise RuntimeError.

Definition _decode_content_transfer (K : codecs) (self : t) (data : bytes) : result bytes :=
  encoding <- imultidict.getitem (headers self) CONTENT_TRANSFER_ENCODING ;;
  let encoding := Str.lower encoding in
  if header_is encoding ["base64"]%string then b64decode K data
  else if header_is encoding ["quoted-printable"]%string then Ok (a2b_qp K data)
  else if header_is encoding ["binary"; "8bit"; "7bit"]%string then Ok data
  else Raise RuntimeError.

Definition decode (K : codecs) (self : t) (data : bytes) : result bytes :=
  data <- (if imultidict.contains (headers self) CONTENT_TRANSFER_ENCODING
           then _decode_content_transfer K self data else Ok data) ;;
  if imultidict.contains (headers self) CONTENT_ENCODING
  then _decode_content K self data else Ok data.

(** [read(decode=True)]. *)
Definition read_decoded (K : codecs) (fuel : nat) (self : t) : option (result bytes * t) :=
  match read fuel self with
  | Some (data, self') => Some (decode K self data, self')
  | None => None
  end.

(** The loop of [release]: [None] when the fuel runs out before
    end-of-part. *)
Fixpoint release_loop (fuel : nat) (self : t) : option t :=
  if _at_eof self then Some self
  else match fuel with
       | O => None
       | S fuel => release_loop fuel (snd (read_chunk self chunk_size))
       end.

(** [release()]. *)
Definition release (fuel : nat) (self : t) : option t :=
  if _at_eof self then Some self
  else release_loop fuel self.

Definition set_unread (self : t) (v : list bytes) : t :=
  {| headers := headers self; _boundary := _boundary self; _content := _content self;
     _at_eof := _at_eof self; _length := _length self;
     _read_bytes := _read_bytes self; _unread := v;
     _prev_chunk := _prev_chunk self; _content_eof := _content_eof self |}.

(** [readline()]; the deque [_unread] is popped on the left and appended to
    on the right. *)
Definition readline (self : t) : bytes * t :=
  if _at_eof self then ([], self)
  else
    let '(line, self) :=
      match _unread self with
      | line :: rest => (line, set_unread self rest)
      | [] =>
          let '(line, content) := Transport.readline (_content self) in
          (line, set_content self content)
      end in
    if Bytes.startswith line (_boundary self) then
      let sline := Bytes.rstrip CRLF line in
      let boundary := _boundary self in
      let last_boundary := _boundary self ++ b "--" in
      if Bytes.eqb sline boundary || Bytes.eqb sline last_boundary then
        let self := set_at_eof self true in
        ([], set_unread self (_unread self ++ [line]))
      else (line, self)
    else
      let '(next_line, content) := Transport.readline (_content self) in
      let self := set_content self content in
      let line :=
        if Bytes.startswith next_line (_boundary self)
        then firstn (length line - 2) line
        else line in
      (line, set_unread self (_unread self ++ [next_line])).

(** [next()]: the whole body, or [None] when there is none. *)
Definition next (fuel : nat) (self : t) : option (option bytes * t) :=
  match read fuel self with
  | Some (item, self) => Some (if truthy item then Some item else None, self)
  | None => None
  end.

Definition at_eof (self : t) : bool := _at_eof self.

(** Successive [read_chunk] calls, one per requested size. *)
Fixpoint read_chunks (self : t) (sizes : list Z) : list bytes * t :=
  match sizes with
  | [] => ([], self)
  | size :: sizes =>
      let '(chunk, self) := read_chunk self size in
      let '(chunks, self) := read_chunks self sizes in
      (chunk :: chunks, self)
  end.

End BodyPartReader.

(** Number of line consumptions in a transport log. *)
Definition count_readline (l : list Transport.op) : nat :=
  length (filter (fun o => match o with Transport.Readline => true | _ => false end) l).


(** ** class MimeType

    [multidict] of [dereaddons_local] is a collaborator outside the module;
    it is taken as a parameter: the empty mapping, [m[key] = value] and
    [m.get(key)]. *)
Record multidict_ops : Type := {
  multidict : Type;
  md_empty : multidict;
  md_setitem : multidict -> str -> str -> multidict;
  md_get : multidict -> str -> option str
}.

Module MimeType.

Section WithMultidict.

Variable M : multidict_ops.

(** [params] is [None] for the plain empty [dict] that an empty input gets. *)
Record t : Type := {
  mtype : str;
  stype : str;
  suffix : str;
  params : option (multidict M)
}.

(** [a, b = x.split(sep, 1)]. *)
Definition split_pair (sep : ascii) (x : str) : result (str * str) :=
  match Str.splitn sep 1 x with
  | [a; b'] => Ok (a, b')
  | _ => Raise ValueError
  end.

(** The body of the [for item in parts[1:]] loop. *)
Definition add_param (params : multidict M) (item : str) : result (multidict M) :=
  if negb (truthy item) then Ok params
  else
    '(key, value) <- (if Str.member "=" item then split_pair "=" item
                      else Ok (item, [])) ;;
    Ok (md_setitem M params (Str.lower (Str.strip key))
          (Str.strip_chars [" "%char; "034"%char] value)).

Fixpoint add_params (params : multidict M) (items : list str) : result (multidict M) :=
  match items with
  | [] => Ok params
  | item :: items => params <- add_param params item ;; add_params params items
  end.

(** [parts[0].strip().lower()], a bare [*] standing for [*/*]. *)
Definition fulltype_of (parts : list str) : str :=
  let fulltype := Str.lower (Str.strip (hd [] parts)) in
  if Str.eqb fulltype (s "*") then s "*/*" else fulltype.

Definition __init__ (mimetype : str) : result t :=
  if negb (truthy mimetype) then
    Ok {| mtype := []; stype := []; suffix := []; params := None |}
  else
    let parts := Str.split ";" mimetype in
    params <- add_params (md_empty M) (tl parts) ;;
    let fulltype := fulltype_of parts in
    '(mtype, stype) <- (if Str.member "/" fulltype then split_pair "/" fulltype
                        else Ok (fulltype, [])) ;;
    '(stype, suffix) <- (if Str.member "+" stype then split_pair "+" stype
                         else Ok (stype, [])) ;;
    Ok {| mtype := mtype; stype := stype; suffix := suffix; params := Some params |}.

(** [self.params.get(key, default)]. *)
Definition params_get (self : t) (key : str) (default : option str) : option str :=
  match params self with
  | None => default
  | Some p =>
      match md_get M p key with
      | Some v => Some v
      | None => default
      end
  end.

End WithMultidict.

Arguments mtype {M} _.
Arguments stype {M} _.
Arguments suffix {M} _.
Arguments params {M} _.

End MimeType.
(** ** Payloads

    An attribute of a Python object may never have been assigned; reading it
    then raises [AttributeError]. *)

Inductive attr (A : Type) : Type :=
| Unset
| Assigned (a : A).
Arguments Unset {A}.
Arguments Assigned {A} a.

(** Collaborators outside the module: [mimetypes.guess_type],
    [helpers.content_disposition_header] and [uuid.uuid4().hex]. *)
Record helpers : Type := {
  guess_type : str -> option str;
  content_disposition_header : str -> list (str * str) -> bool -> result str;
  uuid4_hex : str
}.

Definition BIG_CHUNK_LIMIT : nat := Nat.shiftl 1 16.

Module Payload.

(** An [io.BytesIO]: its buffer, its position, and whether it was closed. *)
Record BytesIO : Type := {
  getvalue : bytes;
  tell : nat;
  closed : bool
}.

(** The payload classes of stream sources whose size depends on the
    operating system, and the text classes, are not part of the model. *)
Inductive class : Type :=
| BytesPayload
| BytesIOPayload.

Inductive value_t : Type :=
| Data (v : bytes)
| Stream (f : BytesIO).

Record t : Type := {
  cls : class;
  value : value_t;
  encoding : option str;
  filename : option str;
  headers : attr (option imultidict.t);
  headrs : attr imultidict.t;
  _content_type : option str;
  _size : option Z
}.

(** The [content_type] keyword: the [sentinel] default or a given value. *)
Inductive content_type_arg : Type :=
| sentinel
| given (c : option str).

Definition _default_content_type : str := s "application/octet-stream".

Module payload_superclass.

Definition __init__ (cls : class) (value : value_t) (headers : option imultidict.t)
    (content_type : content_type_arg) (filename encoding : option str) : t :=
  let nonempty :=
    match headers with
    | Some h => truthy h
    | None => false
    end in
  let content_type :=
    match headers, content_type with
    | Some h, sentinel =>
        if nonempty && imultidict.contains h CONTENT_TYPE
        then given (imultidict.get h CONTENT_TYPE) else sentinel
    | _, _ => content_type
    end in
  let content_type :=
    match content_type with
    | sentinel => None
    | given c => c
    end in
  {| cls := cls; value := value; encoding := encoding; filename := filename;
     headers := if nonempty then Unset else Assigned None;
     headrs := match headers with
               | Some h => if nonempty then Assigned h else Unset
               | None => Unset
               end;
     _content_type := content_type; _size := None |}.

End payload_superclass.

Definition set_headers (self : t) (h : option imultidict.t) : t :=
  {| cls := cls self; value := value self; encoding := encoding self;
     filename := filename self; headers := Assigned h; headrs := headrs self;
     _content_type := _content_type self; _size := _size self |}.

Definition set_size (self : t) (n : option Z) : t :=
  {| cls := cls self; value := value self; encoding := encoding self;
     filename := filename self; headers := headers self; headrs := headrs self;
     _content_type := _content_type self; _size := n |}.

Definition set_value (self : t) (v : value_t) : t :=
  {| cls := cls self; value := v; encoding := encoding self;
     filename := filename self; headers := headers self; headrs := headrs self;
     _content_type := _content_type self; _size := _size self |}.

Section WithHelpers.

Variable H : helpers.

Definition content_type (self : t) : str :=
  match _content_type self with
  | Some c => c
  | None =>
      match filename self with
      | Some name =>
          match guess_type H name with
          | None => s "application/octet-stream"
          | Some mime => mime
          end
      | None => _default_content_type
      end
  end.

Definition set_content_disposition (self : t) (disptype : str)
    (params : list (str * str)) (quote_fields : bool) : result t :=
  match headers self with
  | Unset => Raise AttributeError
  | Assigned h =>
      let h := match h with
               | None => imultidict.empty
               | Some h => imultidict.popall h CONTENT_DISPOSITION
               end in
      v <- content_disposition_header H disptype params quote_fields ;;
      Ok (set_headers self (Some (imultidict.setitem h CONTENT_DISPOSITION v)))
  end.

(** [BytesPayload(value, headers=..., content_type=...)]; [content_type] is
    [None] when the keyword is not passed. *)
Definition BytesPayload__init__ (v : bytes) (headers : option imultidict.t)
    (content_type : option content_type_arg) (filename encoding : option str) : t :=
  let content_type :=
    match content_type with
    | None => given (Some (s "application/octet-stream"))
    | Some c => c
    end in
  let self := payload_superclass.__init__ BytesPayload (Data v) headers content_type
                filename encoding in
  set_size self (Some (Bytes.len v)).

(** [BytesIOPayload(value, disposition, headers=..., filename=...)], that is
    [IOBasePayload.__init__]; a [BytesIO] has no [name]. *)
Definition BytesIOPayload__init__ (f : BytesIO) (disposition : option str)
    (headers : option imultidict.t) (content_type : content_type_arg)
    (filename encoding : option str) : result t :=
  let self := payload_superclass.__init__ BytesIOPayload (Stream f) headers content_type
                filename encoding in
  match Payload.filename self, disposition with
  | Some name, Some disposition =>
      set_content_disposition self disposition [(s "filename", name)] true
  | _, _ => Ok self
  end.

End WithHelpers.

(** The [size] property. *)
Definition size (self : t) : result (option Z) :=
  match cls self, value self with
  | BytesPayload, _ => Ok (_size self)
  | BytesIOPayload, Stream f =>
      if closed f then Raise ValueError
      else Ok (Some (Bytes.len (getvalue f) - Z.of_nat (tell f))%Z)
  | BytesIOPayload, Data _ => Raise AttributeError
  end.

(** [write(writer)]: the chunks handed to the writer, in order, and the
    payload afterwards (a stream is read to its end and closed). *)
Definition write (self : t) : result (list bytes * t) :=
  match cls self, value self with
  | BytesPayload, Data v => Ok ([v], self)
  | BytesIOPayload, Stream f =>
      if closed f then Raise ValueError
      else Ok (chunked BIG_CHUNK_LIMIT (skipn (tell f) (getvalue f)),
               set_value self (Stream {| getvalue := getvalue f;
                                         tell := Nat.max (tell f) (length (getvalue f));
                                         closed := true |}))
  | _, _ => Raise AttributeError
  end.

(** What [create_payload] is given: a value of a supported class or not. *)
Inductive data : Type :=
| DBytes (v : bytes)
| DBytesIO (f : BytesIO)
| DUnsupported.

Definition create_payload (H : helpers) (d : data) (headers : option imultidict.t)
    : result t :=
  match d with
  | DBytes v => Ok (BytesPayload__init__ v headers None None None)
  | DBytesIO f => BytesIOPayload__init__ H f (Some (s "attachment")) headers sentinel None None
  | DUnsupported => Raise LookupError
  end.

End Payload.

(** ** class MultipartWriter *)

Module MultipartWriter.

Definition part : Type := (Payload.t * bytes * option str * option str)%type.

Record t : Type := {
  _boundary : bytes;
  _content_type : option str;
  headers : imultidict.t;
  parts : list part
}.

Definition in_bytes (x : byte) (set : string) : bool :=
  existsb (Byte.eqb x) (b set).

(** [\w] of a bytes pattern: ASCII letters, digits and the underscore. *)
Definition is_word (x : byte) : bool :=
  let n := Byte.to_N x in
  ((48 <=? n) && (n <=? 57) || (65 <=? n) && (n <=? 90) || (97 <=? n) && (n <=? 122)
   || (n =? 95))%N.

(** [_valid_tchar_regex]: one or more bytes of the class, nothing else. *)
Definition valid_tchar (x : byte) : bool :=
  in_bytes x "!#$%&'*+-.^_`|~" || is_word x.

Definition _valid_tchar_regex_match (value : bytes) : bool :=
  truthy value && forallb valid_tchar value.

(** [_invalid_qdtext_char_regex]: [\x00-\x08], [\x0A-\x1F] or [\x7F]. *)
Definition invalid_qdtext_char (x : byte) : bool :=
  let n := Byte.to_N x in
  ((n <=? 8) || (10 <=? n) && (n <=? 31) || (n =? 127))%N.

Definition _invalid_qdtext_char_regex_search (value : bytes) : bool :=
  existsb invalid_qdtext_char value.

Definition BACKSLASH : byte := Byte.x5c.
Definition DQUOTE : byte := Byte.x22.

Definition boundary_value_of (value : bytes) : result str :=
  if _valid_tchar_regex_match value then Str.decode_ascii value
  else if _invalid_qdtext_char_regex_search value then Raise ValueError
  else
    let quoted_value_content := Bytes.replace1 BACKSLASH [BACKSLASH; BACKSLASH] value in
    let quoted_value_content :=
      Bytes.replace1 DQUOTE [BACKSLASH; DQUOTE] quoted_value_content in
    content <- Str.decode_ascii quoted_value_content ;;
    Ok ([ascii_of_byte DQUOTE] ++ content ++ [ascii_of_byte DQUOTE]).

Definition boundary_value (self : t) : result str := boundary_value_of (_boundary self).

Definition __init__ (H : helpers) (subtype : str) (boundary : option str) : result t :=
  boundary <- match boundary with
              | None => Str.encode_ascii (uuid4_hex H)
              | Some boundary => Str.encode_ascii boundary
              end ;;
  value <- boundary_value_of boundary ;;
  let content_type := s "multipart/" ++ subtype ++ s "; boundary=" ++ value in
  Ok {| _boundary := boundary; _content_type := Some content_type;
        headers := imultidict.setitem imultidict.empty CONTENT_TYPE content_type;
        parts := [] |}.

Definition add_part (self : t) (p : part) : t :=
  {| _boundary := _boundary self; _content_type := _content_type self;
     headers := headers self; parts := parts self ++ [p] |}.

Definition set_parts (self : t) (ps : list part) : t :=
  {| _boundary := _boundary self; _content_type := _content_type self;
     headers := headers self; parts := ps |}.

Definition one_of (x : str) (names : list string) : bool :=
  existsb (fun n => Str.eqb x (s n)) names.

Section WithHelpers.

Variable H : helpers.

Definition render_headers (h : imultidict.t) : bytes :=
  Str.encode_utf8
    (concat (map (fun kv => fst kv ++ s ": " ++ snd kv ++ [ascii_of_byte CR; ascii_of_byte LF])
                 (imultidict.items h)))
  ++ CRLF.

(** [append_payload(payload)]: the writer and the payload afterwards. *)
Definition append_payload (self : t) (payload : Payload.t) : result (t * Payload.t) :=
  h <- match Payload.headers payload with
       | Unset => Raise AttributeError
       | Assigned None => Raise TypeError
       | Assigned (Some h) => Ok h
       end ;;
  let h :=
    if negb (imultidict.contains h CONTENT_TYPE)
    then imultidict.setitem h CONTENT_TYPE (Payload.content_type H payload)
    else h in
  encoding <-
    match imultidict.get h CONTENT_ENCODING with
    | None => Ok None
    | Some e =>
        let e := Str.lower e in
        if one_of e ["deflate"; "gzip"; "br"]%string then Ok (Some e)
        else if Str.eqb e [] || Str.eqb e (s "identity") then Ok None
        else Raise RuntimeError
    end ;;
  te_encoding <-
    match imultidict.get h CONTENT_TRANSFER_ENCODING with
    | None => Ok None
    | Some e =>
        let e := Str.lower e in
        if Str.eqb e [] then Ok None
        else if one_of e ["base64"; "quoted-printable"]%string then Ok (Some e)
        else if Str.eqb e (s "binary") then Ok None
        else Raise RuntimeError
    end ;;
  size <- Payload.size payload ;;
  let h :=
    match size, encoding, te_encoding with
    | Some size, None, None =>
        imultidict.setitem h CONTENT_LENGTH (Str.of_int size)
    | _, _, _ => h
    end in
  let payload := Payload.set_headers payload (Some h) in
  let headers := render_headers h in
  Ok (add_part self (payload, headers, encoding, te_encoding), payload).

(** What [append] is given: a payload object or a raw value. *)
Inductive obj : Type :=
| OPayload (p : Payload.t)
| OData (d : Payload.data).

(** [append(obj, headers)]: the writer afterwards, the object afterwards
    when it is a payload, and the value returned. *)
Definition append (self : t) (o : obj) (headers : option imultidict.t)
    : result (t * option Payload.t * option Payload.t) :=
  let headers := match headers with
                 | None => imultidict.empty
                 | Some h => h
                 end in
  match o with
  | OPayload p =>
      match Payload.headers p with
      | Unset => Raise AttributeError
      | Assigned None =>
          Ok (self, Some (Payload.set_headers p (Some headers)), None)
      | Assigned (Some h) =>
          Ok (self,
              Some (Payload.set_headers p
                      (Some (imultidict.update h (imultidict.items headers)))),
              None)
      end
  | OData d =>
      match (p <- Payload.create_payload H d (Some headers) ;; append_payload self p) with
      | Raise LookupError | Raise KeyError | Raise IndexError => Raise TypeError
      | Raise e => Raise e
      | Ok (self, p) => Ok (self, None, Some p)
      end
  end.

(** Truthiness of an optional string: [None] and the empty string are
    false. *)
Definition str_truthy (e : option str) : bool :=
  match e with
  | Some e => truthy e
  | None => false
  end.

(** The [size] property. *)
Fixpoint size_loop (boundary : bytes) (ps : list part) (total : Z) : result (option Z) :=
  match ps with
  | [] => Ok (Some (total + (6 + Bytes.len boundary)))%Z
  | (p, headers, encoding, te_encoding) :: ps =>
      if str_truthy encoding || str_truthy te_encoding then Ok None
      else
        sz <- Payload.size p ;;
        match sz with
        | None => Ok None
        | Some sz =>
            size_loop boundary ps
              (total + (6 + Bytes.len boundary + sz + Bytes.len headers))%Z
        end
  end.

Definition size (self : t) : result (option Z) :=
  if negb (truthy (parts self)) then Ok (Some 0%Z)
  else size_loop (_boundary self) (parts self) 0.

Section Write.

Variable C : MultipartPayloadWriter.compressor_ops.
Variable b2a_qp : bytes -> bytes.

(** The body of the loop of [write] for one part: what the writer has
    received afterwards, and the part's payload afterwards. *)
Definition write_part (boundary : bytes) (writer : list bytes) (p : part)
    : result (list bytes * part) :=
  let '(payload, headers, encoding, te_encoding) := p in
  let writer := writer ++ [b "--" ++ boundary ++ CRLF] in
  let writer := writer ++ [headers] in
  '(writer, payload) <-
    match encoding, te_encoding with
    | None, None =>
        '(chunks, payload) <- Payload.write payload ;;
        Ok (writer ++ chunks, payload)
    | _, _ =>
        let w := MultipartPayloadWriter.__init__ C writer in
        w <- match encoding with
             | Some e => MultipartPayloadWriter.enable_compression C w e
             | None => Ok w
             end ;;
        let w := match te_encoding with
                 | Some e => MultipartPayloadWriter.enable_encoding C w e
                 | None => w
                 end in
        '(chunks, payload) <- Payload.write payload ;;
        w <- MultipartPayloadWriter.feed C b2a_qp w chunks ;;
        w <- MultipartPayloadWriter.write_eof C b2a_qp w ;;
        Ok (MultipartPayloadWriter.writer w, payload)
    end ;;
  Ok (writer ++ [CRLF], (payload, headers, encoding, te_encoding)).

Fixpoint write_parts (boundary : bytes) (writer : list bytes) (ps : list part)
    : result (list bytes * list part) :=
  match ps with
  | [] => Ok (writer, [])
  | p :: ps =>
      '(writer, p) <- write_part boundary writer p ;;
      '(writer, ps) <- write_parts boundary writer ps ;;
      Ok (writer, p :: ps)
  end.

(** [write(writer, close_boundary)]: the chunks the writer has received
    afterwards, and the multipart writer afterwards. *)
Definition write (self : t) (writer : list bytes) (close_boundary : bool)
    : result (list bytes * t) :=
  if negb (truthy (parts self)) then Ok (writer, self)
  else
    '(writer, ps) <- write_parts (_boundary self) writer (parts self) ;;
    let writer :=
      if close_boundary then writer ++ [b "--" ++ _boundary self ++ b "--" ++ CRLF]
      else writer in
    Ok (writer, set_parts self ps).

End Write.

End WithHelpers.

End MultipartWriter.


(** ** Text and JSON payloads, and the helpers that append them

    [json.dumps], [urllib.parse.urlencode] and [str.encode(encoding)] are
    collaborators outside the module. *)
Record text_helpers : Type := {
  json_value : Type;
  dumps : json_value -> result str;
  form_value : Type;
  urlencode : form_value -> result str;
  str_encode : str -> str -> result bytes
}.

Section TextPayloads.

Variable M : multidict_ops.
Variable T : text_helpers.
Variable H : helpers.

(** [StringPayload(value, headers=..., encoding=..., content_type=...)]; an
    instance is a [BytesPayload] as far as [size] and [write] go. *)
Definition StringPayload__init__ (value : str) (headers : option imultidict.t)
    (encoding content_type : option str) : result Payload.t :=
  '(encoding, content_type) <-
    match encoding, content_type with
    | None, None => Ok (Some (s "utf-8"), s "text/plain; charset=utf-8")
    | None, Some content_type =>
        mimetype <- MimeType.__init__ M content_type ;;
        Ok (MimeType.params_get M mimetype (s "charset") (Some (s "utf-8")), content_type)
    | Some encoding, None => Ok (Some encoding, s "text/plain; charset=" ++ encoding)
    | Some encoding, Some content_type => Ok (Some encoding, content_type)
    end ;;
  v <- match encoding with
       | Some encoding => str_encode T value encoding
       | None => Raise TypeError
       end ;;
  Ok (Payload.BytesPayload__init__ v headers
        (Some (Payload.given (Some content_type))) None encoding).

(** [JsonPayload(value, headers=...)]. *)
Definition JsonPayload__init__ (value : json_value T) (headers : option imultidict.t)
    : result Payload.t :=
  text <- dumps T value ;;
  v <- str_encode T text (s "utf-8") ;;
  Ok (Payload.BytesPayload__init__ v headers
        (Some (Payload.given (Some (s "application/json")))) None (Some (s "utf-8"))).

Definition headers_or_empty (headers : option imultidict.t) : imultidict.t :=
  match headers with
  | None => imultidict.empty
  | Some h => h
  end.

(** [MultipartWriter.append_json(obj, headers)]. *)
Definition append_json (self : MultipartWriter.t) (obj : json_value T)
    (headers : option imultidict.t) : result (MultipartWriter.t * Payload.t) :=
  let headers := headers_or_empty headers in
  payload <- JsonPayload__init__ obj (Some headers) ;;
  MultipartWriter.append_payload H self payload.

(** [MultipartWriter.append_form(obj, headers)]; [urlencode] stands for the
    conversion of a mapping into the list of its items and the encoding of
    the result. *)
Definition append_form (self : MultipartWriter.t) (obj : form_value T)
    (headers : option imultidict.t) : result (MultipartWriter.t * Payload.t) :=
  let headers := headers_or_empty headers in
  data <- urlencode T obj ;;
  payload <- StringPayload__init__ data (Some headers) None
               (Some (s "application/x-www-form-urlencoded")) ;;
  MultipartWriter.append_payload H self payload.

End TextPayloads.

(** ** Further properties of MultipartWriter *)

Module MultipartWriterProperties.

(** The [boundary] property. *)
Definition boundary (self : MultipartWriter.t) : result str :=
  Str.decode_ascii (MultipartWriter._boundary self).

(** [__len__]. *)
Definition __len__ (self : MultipartWriter.t) : nat :=
  length (MultipartWriter.parts self).

End MultipartWriterProperties.
(** ** Content-Disposition headers *)

(** Modelled from the spec: [helpers.TOKEN] and [helpers.CHAR] are not among
    the sources.  [CHAR] is the ASCII range and [TOKEN] the valid HTTP token
    characters, the [tchar] of the grammar quoted in [boundary_value]. *)
Record grammar : Type := {
  TOKEN : ascii -> bool;
  CHAR : ascii -> bool
}.

Definition http_grammar : grammar :=
  {| TOKEN := fun c => MultipartWriter.valid_tchar (byte_of_ascii c);
     CHAR := Str.is_ascii |}.

(** A [dict] with string keys, in insertion order. *)
Definition dict := list (str * str).

Definition dict_get (d : dict) (k : str) : option str :=
  option_map snd (find (fun kv => Str.eqb (fst kv) k) d).

Definition dict_contains (d : dict) (k : str) : bool :=
  match dict_get d k with Some _ => true | None => false end.

(** [d[k] = v] for a key that may be present already. *)
Fixpoint dict_set (d : dict) (k v : str) : dict :=
  match d with
  | [] => [(k, v)]
  | (k', v') :: r => if Str.eqb k' k then (k', v) :: r else (k', v') :: dict_set r k v
  end.

Definition QUOTE : ascii := "034".
Definition APOSTROPHE : ascii := "'".

Section Disposition.

Variable G : grammar.

(** [urllib.parse.unquote(value, encoding, 'strict')]. *)
Variable unquote : str -> str -> result str.

Definition is_token (x : str) : bool := truthy x && forallb (TOKEN G) x.

Definition is_quoted (x : str) : result bool :=
  match x with
  | [] => Raise IndexError
  | c :: _ => Ok (Ascii.eqb c (last x c) && Ascii.eqb (last x c) QUOTE)
  end.

Definition is_rfc5987 (x : str) : bool :=
  is_token x && (Str.count APOSTROPHE x =? 2).

Definition is_extended_param (x : str) : bool := Str.endswith x (s "*").

Definition is_continuous_param (x : str) : bool :=
  let pos := Str.find_succ "*" x in
  if pos =? 0 then false
  else
    let substring :=
      if Str.endswith x (s "*") then Str.drop_last (skipn pos x) else skipn pos x in
    Str.isdigit substring.

Fixpoint unescape (text : str) : str :=
  match text with
  | [] => []
  | c :: r =>
      if Ascii.eqb c "\" then
        match r with
        | d :: r' => if CHAR G d then d :: unescape r' else c :: unescape r
        | [] => [c]
        end
      else c :: unescape r
  end.

(** [key, value = item.split('=', 1)] with the key lowered and stripped and
    the value left-stripped; [None] when there is no ['='] in the item. *)
Definition split_item (item : str) : option (str * str) :=
  match Str.splitn "=" 1 item with
  | [key; value] => Some (Str.strip (Str.lower key), Str.lstrip value)
  | _ => None
  end.

Definition utf8_default (encoding : str) : str :=
  if truthy encoding then encoding else s "utf-8".

(** The [while parts:] loop; [Ok None] is the early [return None, {}]. *)
Fixpoint parse_params (parts : list str) (params : dict) : result (option dict) :=
  match parts with
  | [] => Ok (Some params)
  | item :: parts' =>
      match split_item item with
      | None => Ok None
      | Some (key, value) =>
          if dict_contains params key then Ok None
          else if negb (is_token key) then parse_params parts' params
          else if is_continuous_param key then
            q <- is_quoted value ;;
            if q then parse_params parts' (dict_set params key (unescape (Str.strip_ends value)))
            else if negb (is_token value) then parse_params parts' params
            else parse_params parts' (dict_set params key value)
          else if is_extended_param key then
            if is_rfc5987 value then
              match Str.splitn APOSTROPHE 2 value with
              | [encoding; _; value] =>
                  match unquote value (utf8_default encoding) with
                  | Ok value => parse_params parts' (dict_set params key value)
                  | Raise UnicodeDecodeError => parse_params parts' params
                  | Raise e => Raise e
                  end
              | _ => Raise ValueError
              end
            else parse_params parts' params
          else
            q <- is_quoted value ;;
            if q then Ok None
            else if is_token value then parse_params parts' (dict_set params key value)
            else
              match parts' with
              | next :: parts'' =>
                  let value_ := value ++ s ";" ++ next in
                  q <- is_quoted value_ ;;
                  if q then
                    parse_params parts''
                      (dict_set params key
                         (unescape (Str.lstrip_chars (s "\/") (Str.strip_ends value_))))
                  else Ok None
              | [] => Ok None
              end
      end
  end.

Definition parse_content_disposition (header : str) : result (option str * dict) :=
  if negb (truthy header) then Ok (None, [])
  else
    match Str.split ";" header with
    | disptype :: parts =>
        if negb (is_token disptype) then Ok (None, [])
        else
          r <- parse_params parts [] ;;
          match r with
          | None => Ok (None, [])
          | Some params => Ok (Some (Str.lower disptype), params)
          end
    | [] => Raise ValueError
    end.

(** [sorted] on (key, value) pairs. *)
Definition pair_leb (x y : str * str) : bool :=
  match Str.compare (fst x) (fst y) with
  | Lt => true
  | Gt => false
  | Eq => match Str.compare (snd x) (snd y) with Gt => false | _ => true end
  end.

Fixpoint insert_sorted (x : str * str) (l : list (str * str)) : list (str * str) :=
  match l with
  | [] => [x]
  | y :: r => if pair_leb x y then x :: l else y :: insert_sorted x r
  end.

Definition sorted (l : list (str * str)) : list (str * str) :=
  fold_right insert_sorted [] l.

(** The [for num, (key, value) in enumerate(fnparams)] loop. *)
Fixpoint collect_parts (num : nat) (fnparams : list (str * str)) : result (list str) :=
  match fnparams with
  | [] => Ok []
  | (key, value) :: r =>
      match Str.splitn "*" 1 key with
      | [_; tail] =>
          let tail := if Str.endswith tail (s "*") then Str.drop_last tail else tail in
          if Str.eqb tail (Str.of_nat num) then
            parts <- collect_parts (S num) r ;; Ok (value :: parts)
          else Ok []
      | _ => Raise ValueError
      end
  end.

Definition content_disposition_filename (params : dict) (name : str)
    : result (option str) :=
  let name_suf := name ++ s "*" in
  if negb (truthy params) then Ok None
  else match dict_get params name_suf with
  | Some v => Ok (Some v)
  | None =>
  match dict_get params name with
  | Some v => Ok (Some v)
  | None =>
      let fnparams :=
        sorted (filter (fun kv => Str.startswith (fst kv) (s "filename*")) params) in
      parts <- collect_parts 0 fnparams ;;
      if negb (truthy parts) then Ok None
      else
        let value := concat parts in
        if Str.member APOSTROPHE value then
          match Str.splitn APOSTROPHE 2 value with
          | [encoding; _; value] =>
              v <- unquote value (utf8_default encoding) ;; Ok (Some v)
          | _ => Raise ValueError
          end
        else Ok (Some value)
  end end.

End Disposition.

(** A double-quoted string content: backslash and double quote escaped by a
    backslash. *)
Definition escape_quoted (x : str) : str :=
  flat_map (fun c => if Ascii.eqb c "\" || Ascii.eqb c "034" then ["\"%char; c] else [c]) x.

Definition quoted (x : str) : str := "034"%char :: escape_quoted x ++ ["034"%char].

(** Modelled from the spec: [helpers.content_disposition_header] is not among
    the sources.  [render(type, params, quote_fields)] serializes into the form
    [type; key="value"; ...], escaping backslash and double quote the way the
    parser unescapes them.  The spec gives [quote_fields] no effect of its
    own. *)
Definition render_disposition (disptype : str) (params : list (str * str))
    (quote_fields : bool) : result str :=
  Ok (Str.join (s "; ")
        (disptype :: map (fun kv => fst kv ++ s "=" ++ quoted (snd kv)) params)).


(** ** The header-reading methods of BodyPartReader *)

Module BodyPartReaderHeaders.

Section WithCollaborators.

Variable G : grammar.
Variable unquote : str -> str -> result str.
Variable M : multidict_ops.

(** [parse_content_disposition(self.headers.get(CONTENT_DISPOSITION))]; a
    missing header is [None], which the parser treats as the empty string. *)
Definition disposition (self : BodyPartReader.t) : result (option str * dict) :=
  parse_content_disposition G unquote
    (match imultidict.get (BodyPartReader.headers self) CONTENT_DISPOSITION with
     | Some v => v
     | None => []
     end).

(** The [name] property. *)
Definition name (self : BodyPartReader.t) : result (option str) :=
  r <- disposition self ;;
  content_disposition_filename unquote (snd r) (s "name").

(** The [filename] property. *)
Definition filename (self : BodyPartReader.t) : result (option str) :=
  r <- disposition self ;;
  content_disposition_filename unquote (snd r) (s "filename").

(** [get_charset(default)]. *)
Definition get_charset (self : BodyPartReader.t) (default : option str)
    : result (option str) :=
  let ctype := match imultidict.get (BodyPartReader.headers self) CONTENT_TYPE with
               | Some v => v
               | None => []
               end in
  mimetype <- MimeType.__init__ M ctype ;;
  Ok (MimeType.params_get M mimetype (s "charset") default).

End WithCollaborators.

End BodyPartReaderHeaders.
(** ** Predicates used in the statements *)

(** What the sink has seen so far splits into the encoded prefix, a whole
    number of 3-byte groups, and the retained remainder. *)
Definition sink_inv (C : MultipartPayloadWriter.compressor_ops) (seen : bytes)
    (sink : MultipartPayloadWriter.t C) : Prop :=
  exists done buf k,
    seen = done ++ buf /\ length done = 3 * k /\ length buf < 3 /\
    concat (MultipartPayloadWriter.writer sink) = Base64.b64encode done /\
    MultipartPayloadWriter.encoding_buffer sink = Some buf /\
    MultipartPayloadWriter.encoding sink = Some (s "base64") /\
    MultipartPayloadWriter.compressor sink = None.

(** [sub] occurs in [l] at index [i]. *)
Definition occ (sub l : bytes) (i : nat) : Prop :=
  firstn (length sub) (skipn i l) = sub.

(** No occurrence of [sub] in [body ++ sub] before the end of [body]. *)
Definition first_at (sub body : bytes) : Prop :=
  forall j, j < length body -> ~ occ sub (body ++ sub) j.

(** The reader is in the middle of a body of unknown length: [p] is the
    carried-over chunk and [segs] is what the transport will deliver. *)
Definition scanning (boundary : bytes) (self : BodyPartReader.t) (p : bytes)
    (segs : list bytes) : Prop :=
  BodyPartReader._at_eof self = false /\ BodyPartReader._length self = None /\
  BodyPartReader._prev_chunk self = Some p /\
  Transport.segments (BodyPartReader._content self) = segs /\
  BodyPartReader._boundary self = boundary.

(** The reader has not read anything of the body yet. *)
Definition fresh (boundary : bytes) (self : BodyPartReader.t)
    (segs : list bytes) : Prop :=
  BodyPartReader._at_eof self = false /\ BodyPartReader._length self = None /\
  BodyPartReader._prev_chunk self = None /\
  Transport.segments (BodyPartReader._content self) = segs /\
  BodyPartReader._boundary self = boundary.

(** A delivered segment that one [read(size)] returns whole. *)
Definition fits (size : Z) (q : bytes) : Prop := q <> [] /\ (Bytes.len q <= size)%Z.

(** The two replacements of [boundary_value], one after the other. *)
Definition escape_bytes (value : bytes) : bytes :=
  Bytes.replace1 MultipartWriter.DQUOTE [MultipartWriter.BACKSLASH; MultipartWriter.DQUOTE]
    (Bytes.replace1 MultipartWriter.BACKSLASH
       [MultipartWriter.BACKSLASH; MultipartWriter.BACKSLASH] value).

(** The number a string of decimal digits stands for, after [acc]. *)
Definition digits_value (acc : Z) (l : str) : Z :=
  fold_left (fun a c => match Str.digit_val c with
                        | Some d => 10 * a + d
                        | None => a
                        end%Z) l acc.

Definition is_decimal (c : ascii) : bool :=
  match Str.digit_val c with Some _ => true | None => false end.

(** No parameter with a plain name (one without [*]) has a value that
    starts with a slash. *)
Definition no_leading_slash (params : dict) : Prop :=
  forall k v r, In (k, v) params -> Str.member "*" k = false -> v <> "/"%char :: r.

(** ** Writing a body and reading it back *)



Fixpoint append_payloads (H : helpers) (w : MultipartWriter.t) (ps : list Payload.t)
    : result MultipartWriter.t :=
  match ps with
  | [] => Ok w
  | p :: ps =>
      r <- MultipartWriter.append_payload H w p ;;
      append_payloads H (fst r) ps
  end.

(** Modelled from the spec: the reader that finds the parts on the stream is
    not among the sources.  The part reader is handed the parsed headers of
    its part, the boundary with its two leading dashes, and the transport
    positioned after the header block; the model moves the transport past
    the delimiter line and the header block. *)
Definition advance (n : nat) (tr : Transport.t) : Transport.t :=
  {| Transport.segments := [skipn n (Transport.remaining tr)];
     Transport.log := Transport.log tr |}.

Definition reader_boundary (boundary : bytes) : bytes := b "--" ++ boundary.

Definition delimiter (boundary : bytes) : bytes := b "--" ++ boundary ++ CRLF.

Definition closing_delimiter (boundary : bytes) : bytes :=
  b "--" ++ boundary ++ b "--" ++ CRLF.

Fixpoint read_parts (fuel : nat) (boundary : bytes) (ps : list MultipartWriter.part)
    (tr : Transport.t) : option (list (bytes * imultidict.t) * Transport.t) :=
  match ps with
  | [] => Some ([], tr)
  | (payload, headers, _, _) :: ps =>
      match Payload.headers payload with
      | Assigned (Some h) =>
          let tr := advance (length (delimiter boundary) + length headers) tr in
          match BodyPartReader.__init__ (reader_boundary boundary) h tr with
          | Ok reader =>
              match BodyPartReader.read fuel reader with
              | Some (body, reader) =>
                  match read_parts fuel boundary ps (BodyPartReader._content reader) with
                  | Some (rs, tr) => Some ((body, BodyPartReader.headers reader) :: rs, tr)
                  | None => None
                  end
              | None => None
              end
          | Raise _ => None
          end
      | _ => None
      end
  end.

(** The disposition a part reader sees: [parse_content_disposition] of its
    Content-Disposition header, as in the [name] and [filename] properties. *)
Definition part_disposition (unquote : str -> str -> result str) (h : imultidict.t)
    : result (option str * dict) :=
  parse_content_disposition http_grammar unquote
    (match imultidict.get h CONTENT_DISPOSITION with
     | Some v => v
     | None => []
     end).

(** What comes back of one part: body, content type, disposition. *)
Definition part_read : Type :=
  (bytes * option str * result (option str * dict))%type.

(** Appending the payloads to a writer, writing the multipart body, and
    reading every part back from the chunks as they were written. *)
Definition round_trip (H : helpers) (C : MultipartPayloadWriter.compressor_ops)
    (b2a_qp : bytes -> bytes) (unquote : str -> str -> result str) (fuel : nat)
    (w : MultipartWriter.t) (ps : list Payload.t) : option (list part_read) :=
  match append_payloads H w ps with
  | Ok w =>
      match MultipartWriter.write C b2a_qp w [] true with
      | Ok (out, _) =>
          match read_parts fuel (MultipartWriter._boundary w) (MultipartWriter.parts w)
                  (Transport.of_segments out) with
          | Some (rs, _) =>
              Some (map (fun r => (fst r, imultidict.get (snd r) CONTENT_TYPE,
                                   part_disposition unquote (snd r))) rs)
          | None => None
          end
      | Raise _ => None
      end
  | Raise _ => None
  end.




(** ** Sample values *)

Definition sample_done_reader : BodyPartReader.t :=
  {| BodyPartReader.headers := imultidict.empty;
     BodyPartReader._boundary := b "--X";
     BodyPartReader._content := Transport.of_segments [b "--X--"];
     BodyPartReader._at_eof := true;
     BodyPartReader._length := None;
     BodyPartReader._read_bytes := 0;
     BodyPartReader._unread := [];
     BodyPartReader._prev_chunk := Some [];
     BodyPartReader._content_eof := 0 |}.

(** A part declared empty whose delimiter reaches the reader in three reads. *)
Definition zero_length_headers : imultidict.t :=
  imultidict.of_mapping [(CONTENT_LENGTH, s "0")].

Definition zero_length_content : Transport.t :=
  Transport.of_segments [[CR]; [LF]; b "--X--" ++ CRLF].

(** [urllib.parse.unquote] on the strings of the worked cases: none of them
    has a percent escape, and such a string is returned as it is. *)
Definition unquote_plain (value encoding : str) : result str := Ok value.

Definition sample_helpers : helpers :=
  {| guess_type := fun _ => None;
     content_disposition_header := render_disposition;
     uuid4_hex := s "0123456789abcdef0123456789abcdef" |}.

(** Eleven continuation segments, [filename*0] to [filename*10]. *)
Definition eleven_segments : str :=
  s "attachment; filename*0=a; filename*1=b; filename*2=c; filename*3=d; filename*4=e; filename*5=f; filename*6=g; filename*7=h; filename*8=i; filename*9=j; filename*10=k".

(** A payload that carries a header, and a writer with no part yet. *)
Definition sample_payload : Payload.t :=
  Payload.set_headers
    (Payload.BytesPayload__init__ (b "abc") None None None None)
    (Some (imultidict.of_mapping [(s "X-A", s "1")])).

Definition sample_writer : MultipartWriter.t :=
  {| MultipartWriter._boundary := b "X";
     MultipartWriter._content_type := Some (s "multipart/mixed; boundary=X");
     MultipartWriter.headers :=
       imultidict.of_mapping [(CONTENT_TYPE, s "multipart/mixed; boundary=X")];
     MultipartWriter.parts := [] |}.

(** A bytes payload after [append] handed it an empty header mapping. *)
Definition sample_bytes_payload (v : bytes) : Payload.t :=
  Payload.set_headers (Payload.BytesPayload__init__ v None None None None)
    (Some imultidict.empty).


(** ** Further predicates *)

(** A payload whose recorded size agrees with the bytes its [write] will
    produce: what [BytesPayload.__init__] establishes, and a [BytesIO] whose
    position is inside its buffer. *)
Definition sized (p : Payload.t) : Prop :=
  match Payload.cls p, Payload.value p with
  | Payload.BytesPayload, Payload.Data v => Payload._size p = Some (Bytes.len v)
  | Payload.BytesIOPayload, Payload.Stream f =>
      Payload.tell f <= length (Payload.getvalue f)
  | _, _ => False
  end.

(** A recorded part as [append_payload] records it: an encoding is either
    absent or a non-empty name. *)
Definition part_ok (p : MultipartWriter.part) : Prop :=
  let '(payload, _, encoding, te_encoding) := p in
  sized payload /\ encoding <> Some [] /\ te_encoding <> Some [].

(** A writer with two recorded parts, as [append_payload] records them. *)
Definition sample_parts_writer : MultipartWriter.t :=
  match append_payloads sample_helpers sample_writer
          [sample_bytes_payload (b "abc"); sample_bytes_payload (b "hello")] with
  | Ok w => w
  | Raise _ => sample_writer
  end.

(** What [append_payload] raises for a payload constructed with
    [headers=...]: with an empty mapping its [headers] attribute is [None],
    with a non-empty one it was never assigned. *)
Definition headers_failure (headers : option imultidict.t) : exn :=
  match headers with
  | Some (_ :: _) => AttributeError
  | _ => TypeError
  end.

(** The line [readline] examines: the oldest queued line, or else the next
    line of the transport. *)
Definition upcoming_line (self : BodyPartReader.t) : bytes :=
  match BodyPartReader._unread self with
  | line :: _ => line
  | [] => fst (Transport.readline (BodyPartReader._content self))
  end.

(** The bytes still ahead of a line reader: the queued lines, then what the
    transport holds. *)
Definition queued (self : BodyPartReader.t) : bytes :=
  concat (BodyPartReader._unread self)
  ++ Transport.remaining (BodyPartReader._content self).

(** The chunk a scanning reader has read and not handed out yet. *)
Definition carried (self : BodyPartReader.t) : bytes :=
  match BodyPartReader._prev_chunk self with
  | Some p => p
  | None => []
  end.

(** A reader in front of a closing boundary line that has no line end. *)
Definition sample_line_reader : BodyPartReader.t :=
  {| BodyPartReader.headers := imultidict.empty;
     BodyPartReader._boundary := b "--X";
     BodyPartReader._content := Transport.of_segments [b "--X--"];
     BodyPartReader._at_eof := false;
     BodyPartReader._length := None;
     BodyPartReader._read_bytes := 0;
     BodyPartReader._unread := [];
     BodyPartReader._prev_chunk := None;
     BodyPartReader._content_eof := 0 |}.

(** A reader in front of a line of data with a bare line feed, followed by
    the closing boundary line. *)
Definition sample_data_line_reader : BodyPartReader.t :=
  {| BodyPartReader.headers := imultidict.empty;
     BodyPartReader._boundary := b "--X";
     BodyPartReader._content := Transport.of_segments [[Byte.x61; LF] ++ b "--X--"];
     BodyPartReader._at_eof := false;
     BodyPartReader._length := None;
     BodyPartReader._read_bytes := 0;
     BodyPartReader._unread := [];
     BodyPartReader._prev_chunk := None;
     BodyPartReader._content_eof := 0 |}.

(** A reader at the start of a two-byte body of unknown length. *)
Definition sample_stream_reader : BodyPartReader.t :=
  {| BodyPartReader.headers := imultidict.empty;
     BodyPartReader._boundary := b "--X";
     BodyPartReader._content :=
       Transport.of_segments [b "ab" ++ CRLF ++ b "--X--" ++ CRLF];
     BodyPartReader._at_eof := false;
     BodyPartReader._length := None;
     BodyPartReader._read_bytes := 0;
     BodyPartReader._unread := [];
     BodyPartReader._prev_chunk := None;
     BodyPartReader._content_eof := 0 |}.

(** The parameter names of a parsed disposition: pairwise different,
    each a token, none with an upper-case letter. *)
Definition well_keyed (G : grammar) (params : dict) : Prop :=
  NoDup (map fst params) /\
  forall k v, In (k, v) params -> is_token G k = true /\ Str.lower k = k.

(** The continuation segments [content_disposition_filename] assembles. *)
Definition continuation_parts (params : dict) : result (list str) :=
  collect_parts 0
    (sorted (filter (fun kv => Str.startswith (fst kv) (s "filename*")) params)).

(** A part reader with the given Content-Disposition header only. *)
Definition reader_with_disposition (value : str) : BodyPartReader.t :=
  {| BodyPartReader.headers := imultidict.of_mapping [(CONTENT_DISPOSITION, value)];
     BodyPartReader._boundary := b "--X";
     BodyPartReader._content := Transport.of_segments [];
     BodyPartReader._at_eof := false;
     BodyPartReader._length := None;
     BodyPartReader._read_bytes := 0;
     BodyPartReader._unread := [];
     BodyPartReader._prev_chunk := None;
     BodyPartReader._content_eof := 0 |}.

(** The output of a compressor that is given the non-empty chunks one after
    the other and then flushed. *)
Fixpoint compress_stream (C : MultipartPayloadWriter.compressor_ops)
    (c : MultipartPayloadWriter.comp_state C) (chunks : list bytes) : bytes :=
  match chunks with
  | [] => MultipartPayloadWriter.flush C c
  | chunk :: chunks =>
      if truthy chunk then
        let '(out, c') := MultipartPayloadWriter.compress C c chunk in
        out ++ compress_stream C c' chunks
      else compress_stream C c chunks
  end.

(** What the compressor stage hands on for a body written in [chunks]. *)
Definition compressed (C : MultipartPayloadWriter.compressor_ops)
    (c : option (MultipartPayloadWriter.comp_state C)) (chunks : list bytes) : bytes :=
  match c with
  | Some c => compress_stream C c chunks
  | None => concat chunks
  end.

(** The transfer encoding of a whole body: base64 when a transfer encoding
    is named, the identity otherwise. *)
Definition transfer_encode (te_encoding : option str) (data : bytes) : bytes :=
  match te_encoding with
  | Some _ => Base64.b64encode data
  | None => data
  end.

(** What the sink has done with the bytes [seen] by its encoder stage, on a
    writer that held [pre] before. *)
Definition encoded_so_far (C : MultipartPayloadWriter.compressor_ops) (pre seen : bytes)
    (sink : MultipartPayloadWriter.t C) : Prop :=
  match MultipartPayloadWriter.encoding sink with
  | None => concat (MultipartPayloadWriter.writer sink) = pre ++ seen
  | Some e =>
      e = s "base64" /\
      exists done buf k,
        seen = done ++ buf /\ length done = 3 * k /\ length buf < 3 /\
        concat (MultipartPayloadWriter.writer sink) = pre ++ Base64.b64encode done /\
        MultipartPayloadWriter.encoding_buffer sink = Some buf
  end.

(** A compressor that holds everything back until it is flushed. *)
Definition buffering_compressor : MultipartPayloadWriter.compressor_ops :=
  {| MultipartPayloadWriter.comp_state := bytes;
     MultipartPayloadWriter.ZLIB_COMPRESSOR := fun _ => [];
     MultipartPayloadWriter.BROTLI_COMPRESSOR := None;
     MultipartPayloadWriter.compress := fun c x => ([], c ++ x);
     MultipartPayloadWriter.flush := fun c => c |}.

(** The compressor [MultipartWriter.write] sets up for a part. *)
Definition part_compressor (C : MultipartPayloadWriter.compressor_ops)
    (encoding : option str) : result (option (MultipartPayloadWriter.comp_state C)) :=
  match encoding with
  | Some e =>
      w <- MultipartPayloadWriter.enable_compression C (MultipartPayloadWriter.__init__ C []) e ;;
      Ok (MultipartPayloadWriter.compressor w)
  | None => Ok None
  end.

(** One part on the wire: the delimiter line, the header block, the body
    compressed and transfer-encoded, and a line end. *)
Definition part_frame (C : MultipartPayloadWriter.compressor_ops) (boundary : bytes)
    (p : MultipartWriter.part) : result bytes :=
  let '(payload, headers, encoding, te_encoding) := p in
  c <- part_compressor C encoding ;;
  r <- Payload.write payload ;;
  Ok (delimiter boundary ++ headers
      ++ transfer_encode te_encoding (compressed C c (fst r)) ++ CRLF).

Fixpoint part_frames (C : MultipartPayloadWriter.compressor_ops) (boundary : bytes)
    (ps : list MultipartWriter.part) : result bytes :=
  match ps with
  | [] => Ok []
  | p :: ps =>
      f <- part_frame C boundary p ;;
      r <- part_frames C boundary ps ;;
      Ok (f ++ r)
  end.

(** The transfer encoding of a part is absent or base64. *)
Definition plain_or_base64 (p : MultipartWriter.part) : Prop :=
  snd p = None \/ snd p = Some (s "base64").

(** A writer with one part that is compressed and base64-encoded. *)
Definition sample_encoded_writer : MultipartWriter.t :=
  {| MultipartWriter._boundary := b "X";
     MultipartWriter._content_type := Some (s "multipart/mixed; boundary=X");
     MultipartWriter.headers :=
       imultidict.of_mapping [(CONTENT_TYPE, s "multipart/mixed; boundary=X")];
     MultipartWriter.parts :=
       [(sample_bytes_payload (b "hello"), b "A: 1" ++ CRLF ++ CRLF,
         Some (s "gzip"), Some (s "base64"))] |}.

(** A payload whose headers ask for compression and a transfer encoding,
    in mixed case. *)
Definition sample_encoded_payload : Payload.t :=
  Payload.set_headers (Payload.BytesPayload__init__ (b "abc") None None None None)
    (Some (imultidict.of_mapping
             [(CONTENT_ENCODING, s "GZip"); (CONTENT_TRANSFER_ENCODING, s "Base64")])).

(** A body of eleven bytes that contains the closing delimiter line, and the
    headers that declare its length. *)
Definition sample_opaque_body : bytes := b "a" ++ CRLF ++ b "--X--" ++ CRLF ++ b "b".

Definition sample_length_headers : imultidict.t :=
  imultidict.of_mapping [(CONTENT_LENGTH, s "11")].

(** A stream payload over five bytes, read from the second byte on. *)
Definition sample_stream_payload : Payload.t :=
  Payload.set_headers
    (Payload.payload_superclass.__init__ Payload.BytesIOPayload
       (Payload.Stream {| Payload.getvalue := b "hello"; Payload.tell := 1;
                          Payload.closed := false |})
       None Payload.sentinel None None)
    (Some imultidict.empty).

(** Decoders that return their input. *)
Definition sample_codecs : BodyPartReader.codecs :=
  {| BodyPartReader.zlib_decompress := fun data _ => Ok data;
     BodyPartReader.b64decode := fun data => Ok data;
     BodyPartReader.a2b_qp := fun data => data |}.

(** A payload that asks for brotli compression. *)
Definition sample_brotli_payload : Payload.t :=
  Payload.set_headers (Payload.BytesPayload__init__ (b "abc") None None None None)
    (Some (imultidict.of_mapping [(CONTENT_ENCODING, s "br")])).

(** A part reader over the given headers. *)
Definition reader_with_headers (h : imultidict.t) : BodyPartReader.t :=
  {| BodyPartReader.headers := h;
     BodyPartReader._boundary := b "--X";
     BodyPartReader._content := Transport.of_segments [];
     BodyPartReader._at_eof := false;
     BodyPartReader._length := None;
     BodyPartReader._read_bytes := 0;
     BodyPartReader._unread := [];
     BodyPartReader._prev_chunk := None;
     BodyPartReader._content_eof := 0 |}.

(** The headers of a payload, the empty mapping when it has none. *)
Definition payload_headers (p : Payload.t) : imultidict.t :=
  match Payload.headers p with
  | Assigned (Some h) => h
  | _ => imultidict.empty
  end.

(** Headers that declare a negative length. *)
Definition sample_negative_length_headers : imultidict.t :=
  imultidict.of_mapping [(CONTENT_LENGTH, s "-5")].

(** A multidict kept as a list of pairs, the newest first. *)
Definition list_multidict : multidict_ops :=
  {| multidict := list (str * str);
     md_empty := [];
     md_setitem := fun m k v => (k, v) :: m;
     md_get := fun m k => option_map snd (find (fun kv => Str.eqb (fst kv) k) m) |}.

(** The key of the continuation segment number [i], and the segments of a
    file name in order, numbered from zero. *)
Definition segment_key (i : nat) : str := s "filename*" ++ Str.of_nat i.

Definition segments_in_order (vs : list str) : list (str * str) :=
  combine (map segment_key (seq 0 (length vs))) vs.

Definition is_segment (kv : str * str) : bool :=
  Str.startswith (fst kv) (s "filename*").

(** The order of [sorted] as a relation, and the order of the keys alone. *)
Definition pair_le (x y : str * str) : Prop := pair_leb x y = true.

Definition key_lt (x y : str * str) : Prop := Str.compare (fst x) (fst y) = Lt.

(** A disposition type followed by [; name=value] parameters. *)
Definition parameter_item (kv : str * str) : str :=
  " "%char :: fst kv ++ s "=" ++ snd kv.

Definition render_parameters (disptype : str) (kvs : list (str * str)) : str :=
  disptype ++ concat (map (fun kv => ";"%char :: parameter_item kv) kvs).

(** The token characters are none of the white space, [;], [=] and the
    double quote. *)
Definition delimits (G : grammar) : Prop :=
  forall c, TOKEN G c = true ->
    Str.isspace c = false /\ c <> ";"%char /\ c <> "="%char /\ c <> QUOTE.

(** A parameter with a plain lower-case token name and a token value. *)
Definition plain_parameter (G : grammar) (kv : str * str) : Prop :=
  is_token G (fst kv) = true /\ is_token G (snd kv) = true /\
  Str.lower (fst kv) = fst kv /\ Str.member "*" (fst kv) = false.

(** A reader whose body arrives in three reads, the delimiter starting at
    the end of the second one. *)
Definition sample_resized_reader : BodyPartReader.t :=
  {| BodyPartReader.headers := imultidict.empty;
     BodyPartReader._boundary := b "--X";
     BodyPartReader._content :=
       Transport.of_segments [b "abcdefgh"; b "ijkl" ++ CRLF ++ b "-"; b "-X--" ++ CRLF];
     BodyPartReader._at_eof := false;
     BodyPartReader._length := None;
     BodyPartReader._read_bytes := 0;
     BodyPartReader._unread := [];
     BodyPartReader._prev_chunk := None;
     BodyPartReader._content_eof := 0 |}.
(** * Part II: properties *)

(** ** The encoding sink and base64 *)

Section SinkFacts.

Import MultipartPayloadWriter.

Variable C : compressor_ops.
Variable b2a_qp : bytes -> bytes.

Local Abbreviation sink_inv := (sink_inv C).

Lemma b64encode_app : forall k (done rest : bytes),
  length done = 3 * k ->
  Base64.b64encode (done ++ rest) = Base64.b64encode done ++ Base64.b64encode rest.
Proof.
  induction k as [|k IH]; intros done rest Hlen.
  - destruct done; [reflexivity | discriminate].
  - destruct done as [|x [|y [|z done]]]; simpl in Hlen; try lia.
    change ((x :: y :: z :: done) ++ rest) with (x :: y :: z :: (done ++ rest)).
    cbn [Base64.b64encode].
    rewrite (IH done rest) by lia.
    now rewrite app_assoc.
Qed.

Lemma sink_inv_init : sink_inv [] (enable_encoding C (__init__ C []) (s "base64")).
Proof.
  exists [], [], 0. cbn. repeat split; auto.
Qed.

Lemma firstn_barrier_length : forall (l : bytes),
  length (firstn (length l / 3 * 3) l) = 3 * (length l / 3).
Proof.
  intros l. rewrite length_firstn.
  pose proof (Nat.Div0.mul_div_le (length l) 3). lia.
Qed.

Lemma skipn_barrier_length : forall (l : bytes),
  length (skipn (length l / 3 * 3) l) < 3.
Proof.
  intros l. rewrite length_skipn.
  pose proof (Nat.div_mod_eq (length l) 3).
  pose proof (Nat.mod_upper_bound (length l) 3). lia.
Qed.

Lemma write_sink_inv : forall seen sink chunk,
  sink_inv seen sink ->
  exists sink', write C b2a_qp sink chunk = Ok sink' /\ sink_inv (seen ++ chunk) sink'.
Proof.
  intros seen sink chunk (done & buf & k & Hseen & Hdone & Hbuf & Hw & Hb & He & Hc).
  unfold write. rewrite Hc. unfold write_encoded, is_encoding. rewrite He.
  change (str_eqb (s "base64") (s "base64")) with true. cbv iota. rewrite Hb.
  set (buf' := buf ++ chunk).
  assert (Hsplit : buf' = firstn (length buf' / 3 * 3) buf' ++ skipn (length buf' / 3 * 3) buf')
    by (symmetry; apply firstn_skipn).
  destruct (truthy buf') eqn:Ht.
  - destruct (length buf' / 3 * 3 =? 0) eqn:Hz; cbn [negb].
    + apply Nat.eqb_eq in Hz.
      eexists; split; [reflexivity|].
      exists done, buf', k. cbn. repeat split; auto.
      * subst seen buf'. now rewrite app_assoc.
      * pose proof (skipn_barrier_length buf') as Hs.
        rewrite length_skipn in Hs. lia.
    + apply Nat.eqb_neq in Hz.
      eexists; split; [reflexivity|].
      exists (done ++ firstn (length buf' / 3 * 3) buf'),
             (skipn (length buf' / 3 * 3) buf'), (k + length buf' / 3).
      cbn [writer encoding_buffer encoding compressor writer_write set_buffer].
      repeat split; auto.
      * subst seen. rewrite <- !app_assoc. f_equal. exact Hsplit.
      * rewrite length_app, firstn_barrier_length. lia.
      * apply skipn_barrier_length.
      * rewrite concat_app. cbn. rewrite app_nil_r, Hw.
        symmetry. now apply (b64encode_app k).
  - destruct buf' as [|? ?] eqn:E; [|discriminate].
    eexists; split; [reflexivity|].
    exists done, [], k. cbn. repeat split; auto; try lia.
    subst seen. unfold buf' in E. rewrite <- app_assoc, E. reflexivity.
Qed.

Lemma feed_sink_inv : forall chunks seen sink,
  sink_inv seen sink ->
  exists sink', feed C b2a_qp sink chunks = Ok sink' /\
                sink_inv (seen ++ concat chunks) sink'.
Proof.
  induction chunks as [|c cs IH]; intros seen sink Hinv.
  - exists sink. cbn. rewrite app_nil_r. auto.
  - destruct (write_sink_inv seen sink c Hinv) as (sink1 & Hw & Hinv1).
    destruct (IH _ _ Hinv1) as (sink2 & Hf & Hinv2).
    exists sink2. cbn. rewrite Hw. cbn. split; [exact Hf|].
    now rewrite app_assoc.
Qed.

Lemma write_eof_sink_inv : forall seen sink,
  sink_inv seen sink ->
  exists sink', write_eof C b2a_qp sink = Ok sink' /\
                concat (writer sink') = Base64.b64encode seen.
Proof.
  intros seen sink (done & buf & k & Hseen & Hdone & Hbuf & Hw & Hb & He & Hc).
  unfold write_eof. rewrite Hc. cbn [bind]. unfold is_encoding. rewrite He.
  change (str_eqb (s "base64") (s "base64")) with true. cbv iota. rewrite Hb.
  destruct buf as [|x buf]; cbn [truthy].
  - exists sink. split; [reflexivity|]. subst seen. now rewrite app_nil_r.
  - eexists; split; [reflexivity|]. cbn [writer_write writer].
    rewrite concat_app. cbn [concat]. rewrite app_nil_r, Hw. subst seen.
    symmetry. now apply (b64encode_app k).
Qed.

Lemma sink_inv_barrier : forall seen sink,
  sink_inv seen sink ->
  concat (writer sink) = Base64.b64encode (firstn (length seen / 3 * 3) seen) /\
  encoding_buffer sink = Some (skipn (length seen / 3 * 3) seen).
Proof.
  intros seen sink (done & buf & k & Hseen & Hdone & Hbuf & Hw & Hb & He & Hc).
  assert (Hq : length seen / 3 * 3 = length done).
  { subst seen. rewrite length_app, Hdone.
    replace (3 * k + length buf) with (length buf + k * 3) by lia.
    rewrite Nat.div_add by lia. rewrite (Nat.div_small (length buf)) by lia. lia. }
  rewrite Hq. subst seen.
  rewrite firstn_app, Nat.sub_diag, firstn_all, skipn_app, Nat.sub_diag, skipn_all.
  cbn. rewrite app_nil_r. auto.
Qed.

Lemma concat_chunks_of : forall fuel n data,
  0 < n -> length data <= fuel -> concat (chunks_of fuel n data) = data.
Proof.
  induction fuel as [|fuel IH]; intros n data Hn Hlen.
  - destruct data; [reflexivity | cbn in Hlen; lia].
  - destruct data as [|x data]; [reflexivity|].
    cbn [chunks_of concat]. rewrite IH; auto.
    + apply firstn_skipn.
    + rewrite length_skipn. cbn [length] in *. lia.
Qed.

(** C7. Base64 chunk-boundary invariance: feeding any body to the sink with
    base64 enabled and no compressor, in chunks of 1, 2, 3, 7 or 4096 bytes,
    then calling [write_eof], leaves on the underlying writer exactly the
    one-shot base64 encoding of the body; after every chunk only the whole
    3-byte groups seen so far are encoded and the remainder is in the buffer. *)
Theorem base64_chunk_boundary_invariance : forall (data : bytes) (n : nat),
  In n [1; 2; 3; 7; 4096] ->
  let sink0 := enable_encoding C (__init__ C []) (s "base64") in
  (exists sink1 sink2,
      feed C b2a_qp sink0 (chunked n data) = Ok sink1 /\
      write_eof C b2a_qp sink1 = Ok sink2 /\
      concat (writer sink2) = Base64.b64encode data) /\
  (forall k, exists sinkk,
      feed C b2a_qp sink0 (firstn k (chunked n data)) = Ok sinkk /\
      let seen := concat (firstn k (chunked n data)) in
      let barrier := length seen / 3 * 3 in
      concat (writer sinkk) = Base64.b64encode (firstn barrier seen) /\
      encoding_buffer sinkk = Some (skipn barrier seen)).
Proof.
  intros data n Hn sink0.
  assert (Hpos : 0 < n) by (cbn in Hn; intuition lia).
  split.
  - destruct (feed_sink_inv (chunked n data) [] sink0 sink_inv_init)
      as (sink1 & Hf & Hinv).
    cbn [app] in Hinv. unfold chunked in Hinv at 1.
    rewrite concat_chunks_of in Hinv by auto.
    destruct (write_eof_sink_inv _ _ Hinv) as (sink2 & He & Hout).
    exists sink1, sink2. auto.
  - intros k.
    destruct (feed_sink_inv (firstn k (chunked n data)) [] sink0 sink_inv_init)
      as (sinkk & Hf & Hinv).
    exists sinkk. split; [exact Hf|].
    cbn [app] in Hinv. now apply sink_inv_barrier.
Qed.

End SinkFacts.

(** ** The part reader *)

Section ReaderFacts.

Import BodyPartReader.

Lemma read_chunk_at_eof : forall self size,
  _at_eof self = true -> read_chunk self size = ([], self).
Proof.
  intros self size H. unfold read_chunk. now rewrite H.
Qed.

Lemma read_chunks_at_eof : forall sizes self,
  _at_eof self = true ->
  read_chunks self sizes = (map (fun _ => []) sizes, self).
Proof.
  induction sizes as [|size sizes IH]; intros self H; cbn [read_chunks map].
  - reflexivity.
  - rewrite (read_chunk_at_eof self size H), (IH self H). reflexivity.
Qed.

Lemma read_from_length_log : forall self size,
  Transport.log (_content (snd (_read_chunk_from_length self size))) =
  Transport.log (_content self) ++ [Transport.Read (Z.min size (remaining_length self))].
Proof.
  intros self size. unfold _read_chunk_from_length, Transport.read.
  destruct (Z.min size (remaining_length self) <? 0)%Z; [reflexivity|].
  destruct (Transport.read_segments _ _); reflexivity.
Qed.

Lemma transport_read_log : forall tr n,
  Transport.log (snd (Transport.read tr n)) = Transport.log tr ++ [Transport.Read n].
Proof.
  intros tr n. unfold Transport.read.
  destruct (n <? 0)%Z; [reflexivity|].
  destruct (Transport.read_segments _ _); reflexivity.
Qed.

Lemma transport_readline_log : forall tr,
  Transport.log (snd (Transport.readline tr)) = Transport.log tr ++ [Transport.Readline].
Proof.
  intros tr. unfold Transport.readline.
  destruct (Transport.readline_segments _); reflexivity.
Qed.

Lemma count_readline_app : forall l1 l2,
  count_readline (l1 ++ l2) = count_readline l1 + count_readline l2.
Proof.
  intros. unfold count_readline. now rewrite filter_app, length_app.
Qed.

(** The stream scanner never consumes a line. *)
Lemma read_from_stream_log : forall self size,
  exists ops,
    Transport.log (_content (snd (_read_chunk_from_stream self size))) =
      Transport.log (_content self) ++ ops /\
    count_readline ops = 0.
Proof.
  intros self size. unfold _read_chunk_from_stream.
  destruct (_prev_chunk self) as [prev|] eqn:Hprev.
  - destruct (Transport.read (_content self) size) as [chunk content] eqn:Hr.
    pose proof (transport_read_log (_content self) size) as Hl. rewrite Hr in Hl.
    cbn [snd] in Hl. cbn [set_content _content set_content_eof _boundary].
    destruct (Bytes.find _ _ _ >=? 0)%Z.
    + eexists. split.
      * destruct (negb (truthy _)); cbn; rewrite Hl, <- app_assoc; reflexivity.
      * reflexivity.
    + eexists. split; [cbn; exact Hl | reflexivity].
  - destruct (Transport.read (_content self) size) as [data content0] eqn:Hr0.
    pose proof (transport_read_log (_content self) size) as Hl0. rewrite Hr0 in Hl0.
    cbn [snd] in Hl0. cbn [set_content _content set_prev_chunk].
    destruct (Transport.read content0 size) as [chunk content] eqn:Hr.
    pose proof (transport_read_log content0 size) as Hl. rewrite Hr in Hl.
    cbn [snd] in Hl. cbn [set_content _content set_content_eof _boundary set_prev_chunk].
    destruct (Bytes.find _ _ _ >=? 0)%Z.
    + eexists. split.
      * destruct (negb (truthy _)); cbn; rewrite Hl, Hl0, <- !app_assoc; reflexivity.
      * reflexivity.
    + eexists. split; [cbn; rewrite Hl, Hl0, <- app_assoc; reflexivity | reflexivity].
Qed.

(** A [read_chunk] call consumes a line exactly when it leaves the part at
    its end, and then as its last transport operation. *)
Lemma read_chunk_transition : forall self size,
  _at_eof self = false ->
  let self' := snd (read_chunk self size) in
  exists ops,
    Transport.log (_content self') = Transport.log (_content self) ++ ops /\
    count_readline ops = (if _at_eof self' then 1 else 0) /\
    (_at_eof self' = true -> exists ops', ops = ops' ++ [Transport.Readline]).
Proof.
  intros self size H. unfold read_chunk. rewrite H.
  assert (Hpre : exists ops,
    let r := (if length_truthy self then _read_chunk_from_length self size
              else _read_chunk_from_stream self size) in
    Transport.log (_content (snd r)) = Transport.log (_content self) ++ ops /\
    count_readline ops = 0).
  { destruct (length_truthy self).
    - eexists. split; [apply read_from_length_log | reflexivity].
    - apply read_from_stream_log. }
  destruct Hpre as (ops & Hlog & Hcnt).
  destruct (if length_truthy self then _ else _) as [chunk self1].
  cbn [snd] in Hlog.
  set (self2 := set_read_bytes self1 _).
  set (self3 := match _length self2 with
                | Some length => if (_read_bytes self2 =? length)%Z
                                 then set_at_eof self2 true else self2
                | None => self2 end).
  assert (Hc3 : _content self3 = _content self1).
  { unfold self3. destruct (_length self2); [destruct (_ =? _)%Z|]; reflexivity. }
  destruct (_at_eof self3) eqn:He; cbn [snd].
  - exists (ops ++ [Transport.Readline]).
    cbn [set_content _content _at_eof]. rewrite He.
    rewrite transport_readline_log, Hc3, Hlog, <- app_assoc.
    split; [reflexivity|]. split.
    + rewrite count_readline_app, Hcnt. reflexivity.
    + intros _. now exists ops.
  - exists ops. rewrite He, Hc3. split; [exact Hlog|]. split; [exact Hcnt|].
    discriminate.
Qed.

(** C3. Idempotent end-of-part: once the end-of-part flag is set, every
    further [read_chunk], whatever size is asked and however often, returns
    the empty byte string and leaves the reader and its transport (the log of
    transport operations included) as they were; the one line consumption
    belongs to the call on which the flag turns true, as its last transport
    operation, and a call that does not reach the end consumes no line. *)
Theorem read_chunk_idempotent_at_end_of_part : forall self,
  (_at_eof self = true ->
     forall sizes, read_chunks self sizes = (map (fun _ => []) sizes, self)) /\
  (_at_eof self = false ->
     forall size,
       let self' := snd (read_chunk self size) in
       exists ops,
         Transport.log (_content self') = Transport.log (_content self) ++ ops /\
         count_readline ops = (if _at_eof self' then 1 else 0) /\
         (_at_eof self' = true -> exists ops', ops = ops' ++ [Transport.Readline])).
Proof.
  intros self. split.
  - intros H sizes. now apply read_chunks_at_eof.
  - intros H size. now apply read_chunk_transition.
Qed.

End ReaderFacts.

(** ** Searching for the delimiter *)

Ltac zbool :=
  repeat match goal with
  | H : context [(_ >=? _)%Z] |- _ => rewrite Z.geb_leb in H
  | H : context [(_ >? _)%Z] |- _ => rewrite Z.gtb_ltb in H
  | H : (_ <? _)%Z = true |- _ => apply Z.ltb_lt in H
  | H : (_ <? _)%Z = false |- _ => apply Z.ltb_ge in H
  | H : (_ <=? _)%Z = true |- _ => apply Z.leb_le in H
  | H : (_ <=? _)%Z = false |- _ => apply Z.leb_gt in H
  | H : (_ =? _)%Z = true |- _ => apply Z.eqb_eq in H
  | H : (_ =? _)%Z = false |- _ => apply Z.eqb_neq in H
  end.

Section FindFacts.

Lemma byte_eqb_eq : forall x y : byte, Byte.eqb x y = true <-> x = y.
Proof.
  intros x y. split.
  - apply Byte.byte_dec_bl.
  - apply Byte.byte_dec_lb.
Qed.

Lemma startswith_occ : forall sub l,
  Bytes.startswith l sub = true <-> firstn (length sub) l = sub.
Proof.
  induction sub as [|x sub IH]; intros l; cbn.
  - split; auto.
  - destruct l as [|y l]; cbn.
    + split; discriminate.
    + rewrite andb_true_iff, byte_eqb_eq, IH. split.
      * intros [-> ->]. reflexivity.
      * intros H. injection H as -> H. auto.
Qed.

Lemma occ_length : forall sub l i,
  sub <> [] -> occ sub l i -> i + length sub <= length l.
Proof.
  unfold occ. intros sub l i Hne H.
  assert (Hl : length (firstn (length sub) (skipn i l)) = length sub) by now rewrite H.
  rewrite length_firstn, length_skipn in Hl.
  destruct sub; [congruence | cbn [length] in *; lia].
Qed.

Lemma occ_skipn : forall sub l n j, occ sub (skipn n l) j <-> occ sub l (n + j).
Proof.
  intros. unfold occ. rewrite skipn_skipn, (Nat.add_comm j n). reflexivity.
Qed.

Lemma occ_app_l : forall sub w z j,
  j + length sub <= length w -> (occ sub (w ++ z) j <-> occ sub w j).
Proof.
  intros sub w z j Hle. unfold occ.
  rewrite skipn_app, firstn_app, length_skipn.
  replace (j - length w) with 0 by lia.
  replace (length sub - (length w - j)) with 0 by lia.
  cbn. rewrite app_nil_r. reflexivity.
Qed.

Lemma occ_here : forall sub u z, occ sub (u ++ sub ++ z) (length u).
Proof.
  intros. unfold occ.
  rewrite skipn_app, Nat.sub_diag, skipn_all. cbn.
  rewrite firstn_app, Nat.sub_diag, firstn_all. cbn. apply app_nil_r.
Qed.

Lemma find_at_none : forall sub l i0,
  (forall j, ~ occ sub l j) -> Bytes.find_at sub l i0 = None.
Proof.
  induction l as [|x l IH]; intros i0 H; cbn.
  - destruct (Bytes.startswith [] sub) eqn:E; [|reflexivity].
    apply startswith_occ in E. exfalso. apply (H 0). exact E.
  - destruct (Bytes.startswith (x :: l) sub) eqn:E.
    + apply startswith_occ in E. exfalso. apply (H 0). exact E.
    + apply IH. intros j Hj. apply (H (S j)). exact Hj.
Qed.

Lemma find_at_first : forall sub u z i0,
  (forall j, j < length u -> ~ occ sub (u ++ sub ++ z) j) ->
  Bytes.find_at sub (u ++ sub ++ z) i0 = Some (i0 + length u).
Proof.
  induction u as [|x u IH]; intros z i0 H.
  - cbn [app length]. rewrite Nat.add_0_r.
    assert (E : Bytes.startswith (sub ++ z) sub = true).
    { apply startswith_occ. apply (occ_here sub [] z). }
    destruct (sub ++ z); cbn; now rewrite E.
  - cbn [app Bytes.find_at].
    destruct (Bytes.startswith (x :: u ++ sub ++ z) sub) eqn:E.
    + apply startswith_occ in E. exfalso. apply (H 0); [cbn; lia | exact E].
    + rewrite IH.
      * f_equal. cbn. lia.
      * intros j Hj Hocc. apply (H (S j)); [cbn; lia | exact Hocc].
Qed.

Lemma find_at_sound : forall sub l i0 r,
  Bytes.find_at sub l i0 = Some r ->
  exists j, r = i0 + j /\ occ sub l j /\ forall j', j' < j -> ~ occ sub l j'.
Proof.
  induction l as [|x l IH]; intros i0 r; cbn.
  - destruct (Bytes.startswith [] sub) eqn:E; [|discriminate].
    intros [= <-]. exists 0. repeat split; [lia | now apply startswith_occ | lia].
  - destruct (Bytes.startswith (x :: l) sub) eqn:E.
    + intros [= <-]. exists 0. repeat split; [lia | now apply startswith_occ | lia].
    + intros H. destruct (IH _ _ H) as (j & -> & Hocc & Hmin).
      exists (S j). repeat split; [lia | exact Hocc |].
      intros [|j'] Hlt Hj'.
      * unfold occ in Hj'. cbn [skipn] in Hj'.
        apply startswith_occ in Hj'. congruence.
      * apply (Hmin j'); [lia | exact Hj'].
Qed.

Lemma find_first_at : forall sub body,
  Bytes.find (body ++ sub) sub 0 = Bytes.len body -> first_at sub body.
Proof.
  intros sub body H j Hj Hocc. unfold Bytes.find, Bytes.len in H.
  cbn [Z.ltb Z.compare] in H.
  destruct (Z.of_nat (length (body ++ sub)) <? 0)%Z eqn:E; [zbool; lia|].
  cbn [Z.to_nat skipn] in H.
  destruct (Bytes.find_at sub (body ++ sub) 0) as [r|] eqn:Ef; [|lia].
  apply find_at_sound in Ef. destruct Ef as (j0 & -> & _ & Hmin).
  apply (Hmin j); [lia | exact Hocc].
Qed.

Lemma first_at_drop : forall sub p body,
  first_at sub (p ++ body) -> first_at sub body.
Proof.
  intros sub p body H j Hj Hocc.
  apply (H (length p + j)); [rewrite length_app; lia|].
  rewrite <- app_assoc. apply occ_skipn.
  rewrite skipn_app, Nat.sub_diag, skipn_all. exact Hocc.
Qed.

(** A window that ends before the delimiter is complete does not contain it. *)
Lemma find_incomplete : forall sub body w z start,
  sub <> [] ->
  first_at sub body ->
  body ++ sub = w ++ z ->
  length w < length body + length sub ->
  (0 <= start)%Z ->
  Bytes.find w sub start = (-1)%Z.
Proof.
  intros sub body w z start Hne Hfirst Heq Hlen Hstart. unfold Bytes.find.
  destruct (start <? 0)%Z eqn:E0; [zbool; lia|].
  destruct (Z.of_nat (length w) <? start)%Z eqn:E1; [reflexivity|].
  rewrite find_at_none; [reflexivity|].
  intros j Hocc. apply occ_skipn in Hocc.
  pose proof (occ_length _ _ _ Hne Hocc) as Hl.
  zbool. apply (Hfirst (Z.to_nat start + j)); [lia|].
  rewrite Heq. apply occ_app_l; [lia | exact Hocc].
Qed.

(** A window holding the whole delimiter finds it right after the body. *)
Lemma find_complete : forall sub body z start,
  first_at sub body ->
  (0 <= start <= Bytes.len body)%Z ->
  Bytes.find (body ++ sub ++ z) sub start = Bytes.len body.
Proof.
  intros sub body z start Hfirst Hstart. unfold Bytes.find, Bytes.len in *.
  destruct (start <? 0)%Z eqn:E0; [zbool; lia|].
  destruct (Z.of_nat (length (body ++ sub ++ z)) <? start)%Z eqn:E1.
  { rewrite length_app in E1. zbool. lia. }
  zbool. rewrite skipn_app.
  replace (Z.to_nat start - length body) with 0 by lia. cbn [skipn].
  rewrite find_at_first.
  - rewrite length_skipn. lia.
  - intros j Hj Hocc. rewrite length_skipn in Hj.
    apply (Hfirst (Z.to_nat start + j)); [lia|].
    assert (Hs : skipn (Z.to_nat start) body ++ sub ++ z =
                 skipn (Z.to_nat start) (body ++ sub ++ z)).
    { rewrite skipn_app. replace (Z.to_nat start - length body) with 0 by lia.
      reflexivity. }
    rewrite Hs in Hocc. apply occ_skipn in Hocc.
    rewrite app_assoc in Hocc.
    apply occ_app_l in Hocc; [exact Hocc|]. rewrite length_app. lia.
Qed.

End FindFacts.

(** ** Boundary scanning across reads *)

Section Straddling.

Import BodyPartReader.

Variable boundary : bytes.
Variable size : Z.

Let sub : bytes := CRLF ++ boundary.

Local Abbreviation scanning := (scanning boundary).
Local Abbreviation fresh := (fresh boundary).
Local Abbreviation fits := (fits size).

Lemma read_whole_segment : forall q segs lg,
  fits q ->
  Transport.read {| Transport.segments := q :: segs; Transport.log := lg |} size =
    (q, {| Transport.segments := segs; Transport.log := lg ++ [Transport.Read size] |}).
Proof.
  intros q segs lg [Hne Hlen]. unfold Transport.read, Bytes.len in *.
  cbn [Transport.segments Transport.log].
  destruct (size <? 0)%Z eqn:E; [zbool; lia|].
  destruct q as [|x q]; [congruence|]. cbn [Transport.read_segments].
  rewrite firstn_all2 by lia.
  replace (length (x :: q) <=? Z.to_nat size) with true
    by (symmetry; apply Nat.leb_le; lia).
  reflexivity.
Qed.

Ltac open_reader self :=
  destruct self as [h bnd0 [segs0 lg] ae len rb unr prev ce];
  cbn [_at_eof _length _prev_chunk _content _boundary Transport.segments] in *.

Ltac reader_simpl :=
  cbn [_at_eof _length _prev_chunk _content _boundary _read_bytes _content_eof
       headers _unread set_content set_at_eof set_read_bytes set_prev_chunk
       set_content_eof Transport.segments Transport.log fst snd].

Lemma step_not_found : forall self p q segs,
  scanning self p (q :: segs) ->
  fits q ->
  Bytes.find (p ++ q) sub (Z.max 0 (Bytes.len p - Bytes.len sub)) = (-1)%Z ->
  exists self', read_chunk self size = (p, self') /\ scanning self' q segs.
Proof.
  intros self p q segs (Hae & Hlen & Hprev & Hsegs & Hb) Hfit Hfind.
  open_reader self. subst.
  unfold read_chunk, length_truthy, _read_chunk_from_stream. reader_simpl.
  rewrite (read_whole_segment q segs lg Hfit). reader_simpl.
  fold sub. rewrite Hfind. cbn [Z.geb Z.compare]. reader_simpl.
  eexists. split; [reflexivity|]. repeat split.
Qed.

Lemma first_not_found : forall self p q segs,
  fresh self (p :: q :: segs) ->
  fits p -> fits q ->
  Bytes.find (p ++ q) sub 0 = (-1)%Z ->
  exists self', read_chunk self size = (p, self') /\ scanning self' q segs.
Proof.
  intros self p q segs (Hae & Hlen & Hprev & Hsegs & Hb) Hp Hq Hfind.
  open_reader self. subst.
  unfold read_chunk, length_truthy, _read_chunk_from_stream. reader_simpl.
  rewrite (read_whole_segment p (q :: segs) lg Hp). reader_simpl.
  rewrite (read_whole_segment q segs _ Hq). reader_simpl.
  fold sub. rewrite Hfind. cbn [Z.geb Z.compare]. reader_simpl.
  eexists. split; [reflexivity|]. repeat split.
Qed.

Lemma readline_crlf : forall data segs lg,
  Transport.readline
    {| Transport.segments := (CRLF ++ data) :: segs; Transport.log := lg |} =
  (CRLF, {| Transport.segments := data :: segs;
            Transport.log := lg ++ [Transport.Readline] |}).
Proof. reflexivity. Qed.

Variable tail_ rest : bytes.
Variable k : nat.
Variable more : list bytes.

Let seg1 : bytes := tail_ ++ CRLF ++ firstn k boundary.
Let seg2 : bytes := skipn k boundary ++ rest.

Hypothesis Hk : 1 <= k <= length boundary - 1.
Hypothesis Hseg1 : fits seg1.
Hypothesis Hseg2 : fits seg2.

Lemma window_complete : seg1 ++ seg2 = tail_ ++ sub ++ rest.
Proof.
  unfold seg1, seg2, sub. rewrite <- !app_assoc. do 2 f_equal.
  rewrite app_assoc, firstn_skipn. reflexivity.
Qed.

Lemma seg1_length : length seg1 = length tail_ + 2 + k.
Proof.
  unfold seg1. rewrite !length_app, length_firstn. cbn. lia.
Qed.

Lemma sub_length : length sub = 2 + length boundary.
Proof. reflexivity. Qed.

Lemma found_facts :
  (Bytes.len tail_ >=? 0)%Z = true /\
  (size >? Bytes.len tail_)%Z = true /\
  Z.to_nat (Bytes.len tail_) = length tail_ /\
  firstn (length tail_) seg1 = tail_.
Proof.
  destruct Hseg1 as [_ Hl1]. unfold Bytes.len in *. rewrite seg1_length in Hl1.
  repeat split.
  - apply Z.geb_le. lia.
  - apply Z.gtb_lt. lia.
  - apply Nat2Z.id.
  - unfold seg1. rewrite firstn_app, Nat.sub_diag, firstn_all. cbn. apply app_nil_r.
Qed.

Lemma unread_suffix :
  skipn (length tail_) (tail_ ++ sub ++ rest) = CRLF ++ (boundary ++ rest).
Proof.
  rewrite skipn_app, Nat.sub_diag, skipn_all. unfold sub.
  now rewrite <- app_assoc.
Qed.

Lemma step_found : forall self,
  scanning self seg1 (seg2 :: more) ->
  first_at sub tail_ ->
  exists self',
    read_chunk self size = (tail_, self') /\ _at_eof self' = true /\
    Transport.remaining (_content self') = boundary ++ rest ++ concat more.
Proof.
  intros self (Hae & Hlen & Hprev & Hsegs & Hb) Hfirst.
  open_reader self. subst.
  unfold read_chunk, length_truthy, _read_chunk_from_stream. reader_simpl.
  rewrite (read_whole_segment seg2 more lg Hseg2). reader_simpl.
  fold sub. rewrite window_complete.
  rewrite find_complete; [|exact Hfirst|].
  2:{ unfold Bytes.len. rewrite seg1_length, sub_length. lia. }
  destruct found_facts as (Hge & Hgt & Hto & Hp).
  rewrite Hge, Hgt, !Hto, Hp. unfold slice. rewrite Nat.sub_diag.
  cbn [firstn truthy negb]. reader_simpl.
  rewrite unread_suffix.
  unfold Transport.unread_data. reader_simpl. rewrite readline_crlf. reader_simpl.
  eexists. split; [reflexivity|]. split; [reflexivity|].
  unfold Transport.remaining. reader_simpl. cbn [concat]. now rewrite app_assoc.
Qed.

Lemma first_found : forall self,
  fresh self (seg1 :: seg2 :: more) ->
  first_at sub tail_ ->
  exists self',
    read_chunk self size = (tail_, self') /\ _at_eof self' = true /\
    Transport.remaining (_content self') = boundary ++ rest ++ concat more.
Proof.
  intros self (Hae & Hlen & Hprev & Hsegs & Hb) Hfirst.
  open_reader self. subst.
  unfold read_chunk, length_truthy, _read_chunk_from_stream. reader_simpl.
  rewrite (read_whole_segment seg1 (seg2 :: more) lg Hseg1). reader_simpl.
  rewrite (read_whole_segment seg2 more _ Hseg2). reader_simpl.
  fold sub. rewrite window_complete.
  rewrite find_complete; [|exact Hfirst|].
  2:{ unfold Bytes.len. lia. }
  destruct found_facts as (Hge & Hgt & Hto & Hp).
  rewrite Hge, Hgt, !Hto, Hp. unfold slice. rewrite Nat.sub_diag.
  cbn [firstn truthy negb]. reader_simpl.
  rewrite unread_suffix.
  unfold Transport.unread_data. reader_simpl. rewrite readline_crlf. reader_simpl.
  eexists. split; [reflexivity|]. split; [reflexivity|].
  unfold Transport.remaining. reader_simpl. cbn [concat]. now rewrite app_assoc.
Qed.

Lemma sub_nonempty : sub <> [].
Proof. discriminate. Qed.

Lemma incomplete_window_last : forall p start,
  first_at sub (p ++ tail_) -> (0 <= start)%Z ->
  Bytes.find (p ++ seg1) sub start = (-1)%Z.
Proof.
  intros p start Hfirst Hstart.
  apply (find_incomplete sub (p ++ tail_) (p ++ seg1) (skipn k boundary));
    auto using sub_nonempty.
  - unfold seg1, sub. rewrite <- !app_assoc. do 3 f_equal.
    now rewrite firstn_skipn.
  - rewrite !length_app, seg1_length, sub_length. lia.
Qed.

Lemma incomplete_window_mid : forall p q T start,
  first_at sub (p ++ q ++ T) -> (0 <= start)%Z ->
  Bytes.find (p ++ q) sub start = (-1)%Z.
Proof.
  intros p q T start Hfirst Hstart.
  apply (find_incomplete sub (p ++ q ++ T) (p ++ q) (T ++ sub));
    auto using sub_nonempty.
  - now rewrite <- !app_assoc.
  - rewrite !length_app, sub_length. lia.
Qed.

Lemma read_chunks_cons : forall self sz sizes,
  read_chunks self (sz :: sizes) =
    (fst (read_chunk self sz) :: fst (read_chunks (snd (read_chunk self sz)) sizes),
     snd (read_chunks (snd (read_chunk self sz)) sizes)).
Proof.
  intros. cbn [read_chunks]. destruct (read_chunk self sz) as [c s1].
  cbn [fst snd]. destruct (read_chunks s1 sizes). reflexivity.
Qed.

Lemma scan_tail : forall pre p self,
  scanning self p (pre ++ seg1 :: seg2 :: more) ->
  Forall fits pre ->
  first_at sub (p ++ concat pre ++ tail_) ->
  exists self',
    read_chunks self (repeat size (S (S (length pre)))) = (p :: pre ++ [tail_], self') /\
    _at_eof self' = true /\
    Transport.remaining (_content self') = boundary ++ rest ++ concat more.
Proof.
  induction pre as [|q pre IH]; intros p self Hscan Hfits Hfirst.
  - cbn [app concat] in *.
    destruct (step_not_found self p seg1 (seg2 :: more) Hscan Hseg1)
      as (self1 & Hr1 & Hscan1).
    { apply incomplete_window_last; [exact Hfirst | lia]. }
    destruct (step_found self1 Hscan1) as (self2 & Hr2 & Heof & Hrem).
    { exact (first_at_drop _ _ _ Hfirst). }
    exists self2. cbn [length repeat].
    rewrite read_chunks_cons, Hr1. cbn [fst snd].
    rewrite read_chunks_cons, Hr2. cbn [fst snd read_chunks]. auto.
  - cbn [app concat] in *. inversion Hfits as [|? ? Hq Hrest]; subst.
    destruct (step_not_found self p q (pre ++ seg1 :: seg2 :: more) Hscan Hq)
      as (self1 & Hr1 & Hscan1).
    { apply (incomplete_window_mid p q (concat pre ++ tail_)); [|lia].
      now rewrite <- app_assoc in Hfirst. }
    destruct (IH q self1 Hscan1 Hrest) as (self2 & Hr2 & Heof & Hrem).
    { rewrite <- app_assoc in Hfirst. exact (first_at_drop _ _ _ Hfirst). }
    exists self2. cbn [length repeat]. cbn [length repeat] in Hr2.
    rewrite read_chunks_cons, Hr1. cbn [fst snd]. rewrite Hr2. auto.
Qed.

Lemma scan_body : forall pre self,
  fresh self (pre ++ seg1 :: seg2 :: more) ->
  Forall fits pre ->
  first_at sub (concat pre ++ tail_) ->
  exists self',
    read_chunks self (repeat size (S (length pre))) = (pre ++ [tail_], self') /\
    _at_eof self' = true /\
    Transport.remaining (_content self') = boundary ++ rest ++ concat more.
Proof.
  intros [|p pre] self Hfresh Hfits Hfirst; cbn [app concat] in *.
  - destruct (first_found self Hfresh Hfirst) as (self1 & Hr & Heof & Hrem).
    exists self1. cbn [length repeat].
    rewrite read_chunks_cons, Hr. cbn [fst snd read_chunks]. auto.
  - inversion Hfits as [|? ? Hp Hrest]; subst.
    destruct pre as [|q pre]; cbn [app concat] in *.
    + rewrite <- app_assoc in Hfirst. cbn [app] in Hfirst.
      destruct (first_not_found self p seg1 (seg2 :: more) Hfresh Hp Hseg1)
        as (self1 & Hr1 & Hscan1).
      { apply incomplete_window_last; [exact Hfirst | lia]. }
      destruct (step_found self1 Hscan1) as (self2 & Hr2 & Heof & Hrem).
      { exact (first_at_drop _ _ _ Hfirst). }
      exists self2. cbn [length repeat].
      rewrite read_chunks_cons, Hr1. cbn [fst snd].
      rewrite read_chunks_cons, Hr2. cbn [fst snd read_chunks]. auto.
    + inversion Hrest as [|? ? Hq Hrest']; subst.
      rewrite <- !app_assoc in Hfirst.
      destruct (first_not_found self p q (pre ++ seg1 :: seg2 :: more) Hfresh Hp Hq)
        as (self1 & Hr1 & Hscan1).
      { apply (incomplete_window_mid p q (concat pre ++ tail_)); [exact Hfirst|lia]. }
      destruct (scan_tail pre q self1 Hscan1 Hrest') as (self2 & Hr2 & Heof & Hrem).
      { exact (first_at_drop _ _ _ Hfirst). }
      exists self2. cbn [length repeat]. cbn [length repeat] in Hr2.
      rewrite read_chunks_cons, Hr1. cbn [fst snd]. rewrite Hr2. auto.
Qed.

End Straddling.

(** C2. Boundary straddling: a body arrives in the reads [pre] and ends in a
    read that also carries the CRLF and the first [k] bytes of the boundary,
    [1 <= k <= B - 1]; the next read brings the rest of the boundary.  The
    reader without a declared content-length then yields exactly the body
    bytes, chunk by chunk, sets end-of-part on the last of them, and leaves
    the transport at the boundary. *)
Theorem boundary_straddling_scan :
  forall (boundary : bytes) (headers : imultidict.t) (pre : list bytes)
         (tail_ rest : bytes) (more : list bytes) (k : nat) (size : Z),
    let sub := CRLF ++ boundary in
    let body := concat pre ++ tail_ in
    let seg1 := tail_ ++ CRLF ++ firstn k boundary in
    let seg2 := skipn k boundary ++ rest in
    1 <= k <= length boundary - 1 ->
    Forall (fun q => q <> [] /\ (Bytes.len q <= size)%Z) (pre ++ [seg1; seg2]) ->
    Bytes.find (body ++ sub) sub 0 = Bytes.len body ->
    imultidict.get headers CONTENT_LENGTH = None ->
    exists self self',
      BodyPartReader.__init__ boundary headers
        (Transport.of_segments (pre ++ seg1 :: seg2 :: more)) = Ok self /\
      BodyPartReader.read_chunks self (repeat size (S (length pre))) =
        (pre ++ [tail_], self') /\
      concat (pre ++ [tail_]) = body /\
      BodyPartReader._at_eof self' = true /\
      Transport.remaining (BodyPartReader._content self') =
        boundary ++ rest ++ concat more.
Proof.
  intros boundary headers pre tail_ rest more k size sub body seg1 seg2
         Hk Hfits Hfind Hlen.
  apply Forall_app in Hfits. destruct Hfits as [Hpre Hsegs].
  inversion Hsegs as [|? ? Hs1 Hsegs']; subst.
  inversion Hsegs' as [|? ? Hs2 _]; subst.
  unfold BodyPartReader.__init__. rewrite Hlen. cbn [bind].
  eexists.
  destruct (scan_body boundary size tail_ rest k more Hk Hs1 Hs2 pre
              {| BodyPartReader.headers := headers;
                 BodyPartReader._boundary := boundary;
                 BodyPartReader._content :=
                   Transport.of_segments (pre ++ seg1 :: seg2 :: more);
                 BodyPartReader._at_eof := false;
                 BodyPartReader._length := None;
                 BodyPartReader._read_bytes := 0;
                 BodyPartReader._unread := [];
                 BodyPartReader._prev_chunk := None;
                 BodyPartReader._content_eof := 0 |})
    as (self' & Hr & Heof & Hrem).
  - repeat split.
  - exact Hpre.
  - apply find_first_at. exact Hfind.
  - exists self'. split; [reflexivity|]. split; [exact Hr|].
    split; [|auto]. rewrite concat_app. cbn. now rewrite app_nil_r.
Qed.

(** ** Worked cases *)

Example b64encode_hello : Base64.b64encode (b "hello") = b "aGVsbG8=".
Proof. reflexivity. Qed.

Example b64encode_high_bits :
  Base64.b64encode [Byte.xff; Byte.xfe] = b "//4=" /\
  Base64.b64encode [Byte.xfb] = b "+w==".
Proof. split; reflexivity. Qed.

Lemma base64_chunk_boundary_invariance_witness :
  exists sink1 sink2,
    MultipartPayloadWriter.feed no_compressor (fun x => x)
      (MultipartPayloadWriter.enable_encoding no_compressor
         (MultipartPayloadWriter.__init__ no_compressor []) (s "base64"))
      (chunked 3 (b "hello")) = Ok sink1 /\
    MultipartPayloadWriter.write_eof no_compressor (fun x => x) sink1 = Ok sink2 /\
    concat (MultipartPayloadWriter.writer sink2) = Base64.b64encode (b "hello").
Proof.
  exact (proj1 (base64_chunk_boundary_invariance no_compressor (fun x => x)
                  (b "hello") 3 (or_intror (or_intror (or_introl eq_refl))))).
Defined.

Lemma read_chunk_idempotent_at_end_of_part_witness :
  BodyPartReader.read_chunks sample_done_reader [1; 8192; 0]%Z =
    ([[]; []; []], sample_done_reader).
Proof.
  exact (proj1 (read_chunk_idempotent_at_end_of_part sample_done_reader)
           eq_refl [1; 8192; 0]%Z).
Defined.

Lemma boundary_straddling_scan_witness :
  exists self self',
    BodyPartReader.__init__ (b "--X") imultidict.empty
      (Transport.of_segments
         ([b "ab"] ++ (b "cd" ++ CRLF ++ firstn 1 (b "--X"))
            :: (skipn 1 (b "--X") ++ b "--") :: [])) = Ok self /\
    BodyPartReader.read_chunks self (repeat 8192%Z 2) = ([b "ab"] ++ [b "cd"], self') /\
    concat ([b "ab"] ++ [b "cd"]) = concat [b "ab"] ++ b "cd" /\
    BodyPartReader._at_eof self' = true /\
    Transport.remaining (BodyPartReader._content self') = b "--X" ++ b "--" ++ concat [].
Proof.
  apply (boundary_straddling_scan (b "--X") imultidict.empty [b "ab"] (b "cd")
           (b "--") [] 1 8192%Z).
  - cbn. lia.
  - repeat constructor; try discriminate; cbn; lia.
  - reflexivity.
  - reflexivity.
Defined.

(** C8. Declared-length reads, at a declared length of zero: the reader does
    not read [min(size, 0)] bytes; it takes the boundary-scanning path, asks the
    transport for [size] bytes twice, hands out a byte of the delimiter as
    body and does not set end-of-part although the running total was equal
    to the declared length from the start. *)
Theorem declared_length_zero_is_scanned :
  match BodyPartReader.__init__ (b "--X") zero_length_headers zero_length_content with
  | Ok self =>
      let r := BodyPartReader.read_chunk self 8192 in
      BodyPartReader._length self = Some 0%Z /\
      fst r = [CR] /\
      BodyPartReader._at_eof (snd r) = false /\
      Transport.log (BodyPartReader._content (snd r)) =
        [Transport.Read 8192; Transport.Read 8192]
  | Raise _ => False
  end.
Proof.
  vm_compute. repeat split.
Qed.

(** ** Rendering the boundary parameter *)

Section BoundaryFacts.

Import MultipartWriter.

Lemma to_N_byte_of_ascii : forall c, Byte.to_N (byte_of_ascii c) = N_of_ascii c.
Proof.
  intros c. apply Byte.to_of_N. symmetry. apply byte_of_ascii_via_N.
Qed.

Lemma byte_eqb_of_ascii : forall c x,
  Byte.eqb (byte_of_ascii c) x = Ascii.eqb c (ascii_of_byte x).
Proof.
  intros c x. destruct (Ascii.eqb c (ascii_of_byte x)) eqn:E.
  - apply Ascii.eqb_eq in E. subst c. rewrite byte_of_ascii_of_byte.
    now apply byte_eqb_eq.
  - apply Ascii.eqb_neq in E. destruct (Byte.eqb (byte_of_ascii c) x) eqn:E'; auto.
    apply byte_eqb_eq in E'. subst x. rewrite ascii_of_byte_of_ascii in E. congruence.
Qed.

Lemma decode_ascii_ok : forall x,
  forallb (fun c => (Byte.to_N c <? 128)%N) x = true ->
  Str.decode_ascii x = Ok (map ascii_of_byte x).
Proof.
  intros x Hx. unfold Str.decode_ascii. now rewrite Hx.
Qed.

Lemma encode_is_ascii : forall x,
  forallb Str.is_ascii x = true ->
  forallb (fun c => (Byte.to_N c <? 128)%N) (map byte_of_ascii x) = true.
Proof.
  induction x as [|c x IH]; cbn; [reflexivity|].
  rewrite !andb_true_iff. intros [Hc Hx]. split; [|now apply IH].
  rewrite to_N_byte_of_ascii. exact Hc.
Qed.

Lemma decode_encode_ascii : forall x,
  forallb Str.is_ascii x = true ->
  Str.decode_ascii (map byte_of_ascii x) = Ok x.
Proof.
  intros x Hx. rewrite decode_ascii_ok by now apply encode_is_ascii.
  f_equal. rewrite map_map. rewrite <- (map_id x) at 2.
  apply map_ext. apply ascii_of_byte_of_ascii.
Qed.

Lemma escape_bytes_cons : forall x value,
  escape_bytes (x :: value) =
    (if Byte.eqb x BACKSLASH || Byte.eqb x DQUOTE then [BACKSLASH; x] else [x])
    ++ escape_bytes value.
Proof.
  intros x value. unfold escape_bytes, Bytes.replace1. cbn [flat_map].
  rewrite flat_map_app. f_equal.
  destruct (Byte.eqb x BACKSLASH) eqn:E1.
  - apply byte_eqb_eq in E1. subst x. reflexivity.
  - cbn [flat_map orb]. destruct (Byte.eqb x DQUOTE) eqn:E2.
    + apply byte_eqb_eq in E2. subst x. reflexivity.
    + reflexivity.
Qed.

Lemma escape_bytes_ascii : forall value,
  forallb (fun c => (Byte.to_N c <? 128)%N) value = true ->
  forallb (fun c => (Byte.to_N c <? 128)%N) (escape_bytes value) = true.
Proof.
  induction value as [|x value IH]; [reflexivity|].
  cbn [forallb]. rewrite andb_true_iff. intros [Hx Hv].
  rewrite escape_bytes_cons, forallb_app, IH by exact Hv.
  destruct (_ || _); cbn; rewrite Hx; reflexivity.
Qed.

Lemma escape_bytes_decoded : forall x,
  map ascii_of_byte (escape_bytes (map byte_of_ascii x)) = escape_quoted x.
Proof.
  induction x as [|c x IH]; [reflexivity|].
  cbn [map]. rewrite escape_bytes_cons, map_app, IH.
  cbn [escape_quoted flat_map]. f_equal.
  rewrite !byte_eqb_of_ascii.
  change (ascii_of_byte BACKSLASH) with "\"%char.
  change (ascii_of_byte DQUOTE) with "034"%char.
  destruct (_ || _); cbn; now rewrite ascii_of_byte_of_ascii.
Qed.

(** C9, as amended. Boundary rendering is a total three-way case split on
    the caller-supplied ASCII boundary: a non-empty boundary of token
    characters only is emitted as the raw token; otherwise a boundary with a
    control character other than TAB makes the construction fail with
    [ValueError]; otherwise (the empty boundary included) the boundary is
    emitted between double quotes with backslash and double quote escaped. *)
Theorem boundary_rendering_three_way : forall (H : helpers) (subtype boundary : str),
  forallb Str.is_ascii boundary = true ->
  let value := map byte_of_ascii boundary in
  let token := truthy value && forallb valid_tchar value in
  let control := existsb invalid_qdtext_char value in
  let emitted (rendered : str) :=
    exists w,
      __init__ H subtype (Some boundary) = Ok w /\
      _boundary w = value /\
      boundary_value w = Ok rendered /\
      _content_type w = Some (s "multipart/" ++ subtype ++ s "; boundary=" ++ rendered) in
  (token = true -> emitted boundary) /\
  (token = false -> control = true ->
     __init__ H subtype (Some boundary) = Raise ValueError) /\
  (token = false -> control = false -> emitted (quoted boundary)).
Proof.
  intros H subtype boundary Hascii value token control emitted.
  assert (Hinit : forall r,
            boundary_value_of value = r ->
            __init__ H subtype (Some boundary) =
              (v <- r ;;
               Ok {| _boundary := value;
                     _content_type := Some (s "multipart/" ++ subtype ++ s "; boundary=" ++ v);
                     headers := imultidict.setitem imultidict.empty CONTENT_TYPE
                                  (s "multipart/" ++ subtype ++ s "; boundary=" ++ v);
                     parts := [] |})).
  { intros r <-. unfold __init__, Str.encode_ascii. rewrite Hascii. reflexivity. }
  assert (Hquoted : token = false -> control = false ->
                    boundary_value_of value = Ok (quoted boundary)).
  { intros Ht Hc. unfold boundary_value_of, _valid_tchar_regex_match,
      _invalid_qdtext_char_regex_search.
    fold token control. rewrite Ht, Hc.
    fold (escape_bytes value).
    rewrite decode_ascii_ok
      by (apply escape_bytes_ascii; now apply encode_is_ascii).
    unfold value. rewrite escape_bytes_decoded. reflexivity. }
  assert (Htoken : token = true -> boundary_value_of value = Ok boundary).
  { intros Ht. unfold boundary_value_of, _valid_tchar_regex_match. fold token.
    rewrite Ht. now apply decode_encode_ascii. }
  repeat split.
  - intros Ht. unfold emitted. rewrite (Hinit _ (Htoken Ht)). cbn [bind].
    eexists. split; [reflexivity|]. repeat split. exact (Htoken Ht).
  - intros Ht Hc. rewrite (Hinit _ eq_refl).
    unfold boundary_value_of, _valid_tchar_regex_match,
      _invalid_qdtext_char_regex_search.
    fold token control. now rewrite Ht, Hc.
  - intros Ht Hc. unfold emitted. rewrite (Hinit _ (Hquoted Ht Hc)). cbn [bind].
    eexists. split; [reflexivity|]. repeat split. exact (Hquoted Ht Hc).
Qed.

End BoundaryFacts.

(** ** Parsing Content-Disposition *)

Section DispositionFacts.

Variable G : grammar.
Variable unquote : str -> str -> result str.

Local Abbreviation params_loop := (parse_params G unquote).
Local Abbreviation token := (is_token G).









End DispositionFacts.




(** ** Resolving the filename *)

Lemma filename_prefers_extended : forall unquote params v,
  dict_get params (s "filename*") = Some v ->
  content_disposition_filename unquote params (s "filename") = Ok (Some v).
Proof.
  intros unquote params v Hv. unfold content_disposition_filename.
  destruct params as [|kv params]; [discriminate|]. cbn [truthy negb].
  change (s "filename" ++ s "*") with (s "filename*"). now rewrite Hv.
Qed.

Lemma filename_then_plain : forall unquote params v,
  dict_get params (s "filename*") = None ->
  dict_get params (s "filename") = Some v ->
  content_disposition_filename unquote params (s "filename") = Ok (Some v).
Proof.
  intros unquote params v Hn Hv. unfold content_disposition_filename.
  destruct params as [|kv params]; [discriminate|]. cbn [truthy negb].
  change (s "filename" ++ s "*") with (s "filename*"). now rewrite Hn, Hv.
Qed.

Example filename_foobar : forall unquote,
  (r <- parse_content_disposition http_grammar unquote
          (s "attachment; filename*0=foo; filename*1=bar") ;;
   content_disposition_filename unquote (snd r) (s "filename")) = Ok (Some (s "foobar")).
Proof. reflexivity. Qed.

(** C5, at eleven continuation segments [filename*0] to [filename*10] with
    the values [a] to [k]: the segments are sorted as text, [filename*10]
    comes before [filename*2], and the assembly stops after the second
    segment although there is no gap in the numbering. *)
Theorem filename_continuation_sorted_as_text : forall unquote,
  (r <- parse_content_disposition http_grammar unquote eleven_segments ;;
   content_disposition_filename unquote (snd r) (s "filename")) = Ok (Some (s "ab")).
Proof. reflexivity. Qed.

(** ** Worked cases of the boundary rendering *)

Lemma boundary_rendering_three_way_witness :
  exists w,
    MultipartWriter.__init__ sample_helpers (s "mixed") (Some (s "a b")) = Ok w /\
    MultipartWriter._boundary w = map byte_of_ascii (s "a b") /\
    MultipartWriter.boundary_value w = Ok (quoted (s "a b")) /\
    MultipartWriter._content_type w =
      Some (s "multipart/" ++ s "mixed" ++ s "; boundary=" ++ quoted (s "a b")).
Proof.
  exact (proj2 (proj2 (boundary_rendering_three_way sample_helpers (s "mixed") (s "a b")
                         eq_refl)) eq_refl eq_refl).
Defined.

(** C9 as stated does not hold at the empty boundary: every byte of it is a
    token character, and it is emitted as two double quotes, not as the raw
    (empty) token. *)
Lemma boundary_rendering_empty_is_quoted :
  forallb MultipartWriter.valid_tchar [] = true /\
  exists w,
    MultipartWriter.__init__ sample_helpers (s "mixed") (Some []) = Ok w /\
    MultipartWriter._boundary w = [] /\
    MultipartWriter.boundary_value w = Ok [QUOTE; QUOTE] /\
    MultipartWriter.boundary_value w <> Ok [].
Proof.
  split; [reflexivity|]. eexists. split; [reflexivity|].
  repeat split. discriminate.
Qed.

(** ** Payload headers and [append] *)

Section AppendFacts.

Import MultipartWriter.

Variable H : helpers.

Lemma append_payload_unset : forall w p,
  Payload.headers p = Unset -> append_payload H w p = Raise AttributeError.
Proof.
  intros w p Hp. unfold append_payload. now rewrite Hp.
Qed.

Lemma append_unset : forall w p supplied,
  Payload.headers p = Unset -> append H w (OPayload p) supplied = Raise AttributeError.
Proof.
  intros w p supplied Hp. unfold append. now rewrite Hp.
Qed.

Lemma set_content_disposition_unset : forall p disptype params quote_fields,
  Payload.headers p = Unset ->
  Payload.set_content_disposition H p disptype params quote_fields = Raise AttributeError.
Proof.
  intros p disptype params quote_fields Hp. unfold Payload.set_content_disposition.
  now rewrite Hp.
Qed.

(** C10. A payload constructed with a non-empty headers mapping keeps the
    mapping under [headrs]; its [headers] attribute is never assigned, so
    [append_payload], [append] and [set_content_disposition] fail on it with
    [AttributeError], and so does appending a raw value with such headers.
    A payload constructed with no headers, or with an empty mapping, has its
    [headers] set to none; [append] then gives it the supplied headers. *)
Theorem payload_headers_attribute_never_assigned :
  forall (cls : Payload.class) (value : Payload.value_t) (hs : imultidict.t)
         (content_type : Payload.content_type_arg) (filename encoding : option str),
  truthy hs = true ->
  let p := Payload.payload_superclass.__init__ cls value (Some hs) content_type
             filename encoding in
  (Payload.headers p = Unset /\ Payload.headrs p = Assigned hs) /\
  (forall w, append_payload H w p = Raise AttributeError) /\
  (forall w supplied, append H w (OPayload p) supplied = Raise AttributeError) /\
  (forall disptype params quote_fields,
     Payload.set_content_disposition H p disptype params quote_fields =
       Raise AttributeError) /\
  (forall v ct,
     Payload.headers (Payload.BytesPayload__init__ v (Some hs) ct filename encoding) = Unset) /\
  (forall w v, append H w (OData (Payload.DBytes v)) (Some hs) = Raise AttributeError) /\
  (forall headers,
     (headers = None \/ headers = Some []) ->
     let q := Payload.payload_superclass.__init__ cls value headers content_type
                filename encoding in
     Payload.headers q = Assigned None /\ Payload.headrs q = Unset /\
     forall w supplied,
       append H w (OPayload q) (Some supplied) =
         Ok (w, Some (Payload.set_headers q (Some supplied)), None)).
Proof.
  intros cls value hs content_type filename encoding Hhs p.
  assert (Hp : Payload.headers p = Unset).
  { unfold p, Payload.payload_superclass.__init__. cbn. now rewrite Hhs. }
  split.
  { split; [exact Hp|]. unfold p, Payload.payload_superclass.__init__. cbn.
    now rewrite Hhs. }
  split; [intros; now apply append_payload_unset|].
  split; [intros; now apply append_unset|].
  split; [intros; now apply set_content_disposition_unset|].
  assert (Hb : forall v ct,
    Payload.headers (Payload.BytesPayload__init__ v (Some hs) ct filename encoding) = Unset).
  { intros v ct. unfold Payload.BytesPayload__init__, Payload.payload_superclass.__init__.
    cbn. now rewrite Hhs. }
  split; [exact Hb|].
  split.
  { intros w v. unfold append. cbn [Payload.create_payload bind].
    rewrite append_payload_unset; [reflexivity|].
    unfold Payload.BytesPayload__init__, Payload.payload_superclass.__init__.
    cbn. now rewrite Hhs. }
  intros headers Hh q.
  assert (Hq : Payload.headers q = Assigned None)
    by (destruct Hh as [-> | ->]; reflexivity).
  split; [exact Hq|]. split; [destruct Hh as [-> | ->]; reflexivity|].
  intros w supplied. unfold append. now rewrite Hq.
Qed.

End AppendFacts.

Lemma payload_headers_attribute_never_assigned_witness :
  MultipartWriter.append_payload sample_helpers sample_writer
    (Payload.payload_superclass.__init__ Payload.BytesPayload (Payload.Data (b "abc"))
       (Some (imultidict.of_mapping [(s "X-A", s "1")])) Payload.sentinel None None) =
  Raise AttributeError.
Proof.
  exact (proj1 (proj2 (payload_headers_attribute_never_assigned sample_helpers
           Payload.BytesPayload (Payload.Data (b "abc"))
           (imultidict.of_mapping [(s "X-A", s "1")]) Payload.sentinel None None eq_refl))
         sample_writer).
Defined.

(** C6, at a payload that carries the header [X-A: 1], appended with the
    header [X-A: 2]: the supplied value is layered after the payload's own,
    but the part is not recorded; the writer still has no part, nothing is
    returned and no Content-Type was ensured.  Only a separate call of
    [append_payload] records the part. *)
Theorem append_of_payload_records_no_part :
  let supplied := imultidict.of_mapping [(s "X-A", s "2")] in
  let layered := Payload.set_headers sample_payload (Some [(s "X-A", [s "1"; s "2"])]) in
  MultipartWriter.append sample_helpers sample_writer
    (MultipartWriter.OPayload sample_payload) (Some supplied) =
    Ok (sample_writer, Some layered, None) /\
  MultipartWriter.parts sample_writer = [] /\
  match MultipartWriter.append_payload sample_helpers sample_writer layered with
  | Ok (w, p) =>
      length (MultipartWriter.parts w) = 1 /\
      Payload.headers p =
        Assigned (Some [(s "X-A", [s "1"; s "2"]);
                        (CONTENT_TYPE, [s "application/octet-stream"]);
                        (CONTENT_LENGTH, [s "3"])])
  | Raise _ => False
  end.
Proof.
  vm_compute. repeat split.
Qed.

(** ** [int(str(n))] *)

Section IntFacts.

Lemma digit_val_digit_char : forall d,
  d < 10 -> Str.digit_val (Str.digit_char d) = Some (Z.of_nat d).
Proof.
  intros d Hd.
  do 10 (destruct d as [|d]; [reflexivity|]). lia.
Qed.

Lemma int_digits_decimal : forall l acc after_digit,
  forallb is_decimal l = true ->
  Str.int_digits acc after_digit l =
    if after_digit || truthy l then Some (digits_value acc l) else None.
Proof.
  induction l as [|c l IH]; intros acc after_digit Hl; cbn [Str.int_digits].
  - cbn. now rewrite orb_false_r.
  - cbn [forallb] in Hl. apply andb_true_iff in Hl. destruct Hl as [Hc Hl].
    unfold is_decimal in Hc. unfold digits_value. cbn [fold_left truthy].
    destruct (Str.digit_val c) as [d|] eqn:Ed; [|discriminate].
    rewrite IH by exact Hl. cbn [orb]. rewrite orb_true_r. reflexivity.
Qed.

Lemma digits_of_decimal : forall fuel n,
  forallb is_decimal (Str.digits_of fuel n) = true.
Proof.
  induction fuel as [|fuel IH]; intros n; cbn [Str.digits_of]; [reflexivity|].
  destruct (n <? 10) eqn:E.
  - apply Nat.ltb_lt in E. cbn [forallb]. unfold is_decimal.
    rewrite digit_val_digit_char by exact E. reflexivity.
  - rewrite forallb_app, IH. cbn [forallb andb]. unfold is_decimal.
    rewrite digit_val_digit_char by (apply Nat.mod_upper_bound; lia).
    reflexivity.
Qed.

Lemma digits_of_value : forall fuel n,
  n < fuel -> digits_value 0 (Str.digits_of fuel n) = Z.of_nat n.
Proof.
  induction fuel as [|fuel IH]; intros n Hn; [lia|]. cbn [Str.digits_of].
  destruct (n <? 10) eqn:E.
  - apply Nat.ltb_lt in E. unfold digits_value. cbn [fold_left].
    rewrite digit_val_digit_char by exact E. lia.
  - apply Nat.ltb_ge in E. unfold digits_value. rewrite fold_left_app.
    fold (digits_value 0 (Str.digits_of fuel (n / 10))).
    rewrite IH.
    + cbn [fold_left]. rewrite digit_val_digit_char
        by (apply Nat.mod_upper_bound; lia).
      pose proof (Nat.div_mod_eq n 10). lia.
    + pose proof (Nat.Div0.div_lt_upper_bound n 10 fuel). lia.
Qed.

Lemma digits_of_nonempty : forall fuel n, truthy (Str.digits_of (S fuel) n) = true.
Proof.
  intros fuel n. cbn [Str.digits_of]. destruct (n <? 10); [reflexivity|].
  destruct (Str.digits_of fuel (n / 10)); reflexivity.
Qed.

Lemma lstrip_by_none : forall p x,
  forallb (fun c => negb (p c)) x = true -> Str.lstrip_by p x = x.
Proof.
  intros p [|c x]; cbn; [reflexivity|].
  rewrite andb_true_iff. intros [Hc _]. apply negb_true_iff in Hc. now rewrite Hc.
Qed.

Lemma rstrip_by_none : forall p x,
  forallb (fun c => negb (p c)) x = true -> Str.rstrip_by p x = x.
Proof.
  intros p x Hx. unfold Str.rstrip_by. rewrite lstrip_by_none.
  - apply rev_involutive.
  - rewrite forallb_forall in *. intros c Hc. apply Hx. now apply in_rev.
Qed.

Lemma decimal_not_space : forall l,
  forallb is_decimal l = true ->
  forallb (fun c => negb (Str.int_space c)) l = true.
Proof.
  intros l Hl. rewrite forallb_forall in *. intros c Hc.
  specialize (Hl c Hc). unfold is_decimal, Str.digit_val in Hl.
  unfold Str.int_space.
  destruct ((48 <=? Str.code c)%N && (Str.code c <=? 57)%N) eqn:E; [|discriminate].
  apply andb_true_iff in E. destruct E as [E1 E2].
  apply N.leb_le in E1. apply N.leb_le in E2.
  repeat match goal with
  | |- context [(?a <=? ?b)%N] => destruct (N.leb_spec a b)
  | |- context [(?a =? ?b)%N] => destruct (N.eqb_spec a b)
  end; cbn; try reflexivity; lia.
Qed.

Lemma decimal_no_sign : forall c l (T : Type) (plus minus other : T),
  is_decimal c = true ->
  match c :: l with
  | "+"%char :: r => plus
  | "-"%char :: r => minus
  | _ => other
  end = other.
Proof.
  intros c l T plus minus other Hc.
  destruct c as [[] [] [] [] [] [] [] []]; try reflexivity; discriminate.
Qed.

Lemma int_of_nat : forall n, Str.int (Str.of_nat n) = Ok (Z.of_nat n).
Proof.
  intros n. unfold Str.int, Str.of_nat.
  pose proof (digits_of_decimal (S n) n) as Hd.
  rewrite lstrip_by_none by now apply decimal_not_space.
  rewrite rstrip_by_none by now apply decimal_not_space.
  pose proof (digits_of_nonempty n n) as Hne.
  destruct (Str.digits_of (S n) n) as [|c l] eqn:E; [discriminate|].
  assert (Hc : is_decimal c = true).
  { cbn [forallb] in Hd. now apply andb_true_iff in Hd. }
  rewrite (decimal_no_sign c l _ _ _ _ Hc).
  rewrite int_digits_decimal by exact Hd. cbn [orb truthy].
  rewrite <- E, digits_of_value by lia. f_equal. lia.
Qed.

Lemma int_of_int : forall n, (0 <= n)%Z -> Str.int (Str.of_int n) = Ok n.
Proof.
  intros n Hn. unfold Str.of_int.
  destruct (n <? 0)%Z eqn:E; [zbool; lia|].
  rewrite int_of_nat. f_equal. lia.
Qed.

End IntFacts.

(** ** The header container *)

Section HeaderFacts.

Import imultidict.

Lemma str_eqb_eq : forall x y, Str.eqb x y = true <-> x = y.
Proof.
  intros x y. unfold Str.eqb. destruct (list_eq_dec ascii_dec x y); split;
    congruence.
Qed.

Lemma key_eqb_trans : forall a c k,
  key_eqb a k = true -> key_eqb c k = true -> key_eqb c a = true.
Proof.
  unfold key_eqb. intros a c k H1 H2.
  apply str_eqb_eq in H1. apply str_eqb_eq in H2. apply str_eqb_eq. congruence.
Qed.

Lemma getall_setitem_new : forall h k v,
  getall h k = None -> getall (setitem h k v) k = Some [v].
Proof.
  induction h as [|[k' vs] h IH]; intros k v Hg; cbn [setitem getall] in *.
  - assert (E : key_eqb k k = true) by (apply str_eqb_eq; reflexivity).
    now rewrite E.
  - destruct (key_eqb k k') eqn:E; [discriminate|].
    cbn [getall]. rewrite E. now apply IH.
Qed.

Lemma getall_setitem_other : forall h k k' v,
  key_eqb k k' = false -> getall (setitem h k' v) k = getall h k.
Proof.
  induction h as [|[k0 vs] h IH]; intros k k' v Hk; cbn [setitem getall].
  - now rewrite Hk.
  - destruct (key_eqb k' k0) eqn:E1; cbn [getall].
    + destruct (key_eqb k k0) eqn:E2; [|reflexivity].
      rewrite (key_eqb_trans _ _ _ E1 E2) in Hk. discriminate.
    + destruct (key_eqb k k0); [reflexivity|]. now apply IH.
Qed.

Lemma get_setitem_new : forall h k v,
  getall h k = None -> get (setitem h k v) k = Some v.
Proof.
  intros h k v Hg. unfold get. now rewrite getall_setitem_new.
Qed.



End HeaderFacts.

(** ** The transport, by the bytes that remain *)

Section TransportFacts.

Lemma read_segments_remaining : forall segs k,
  0 < k -> concat segs <> [] ->
  let r := Transport.read_segments k segs in
  fst r <> [] /\ length (fst r) <= k /\ concat segs = fst r ++ concat (snd r).
Proof.
  induction segs as [|seg segs IH]; intros k Hk Hne; [now elim Hne|].
  destruct seg as [|x seg].
  - cbn [Transport.read_segments concat app] in *. now apply IH.
  - cbn [Transport.read_segments fst snd].
    repeat split.
    + destruct k; [lia | discriminate].
    + rewrite length_firstn. lia.
    + destruct (length (x :: seg) <=? k) eqn:E.
      * apply Nat.leb_le in E. rewrite firstn_all2 by exact E. reflexivity.
      * cbn [concat]. rewrite app_assoc, firstn_skipn. reflexivity.
Qed.

Lemma read_remaining : forall tr n,
  (0 < n)%Z -> Transport.remaining tr <> [] ->
  let r := Transport.read tr n in
  fst r <> [] /\ (Bytes.len (fst r) <= n)%Z /\
  Transport.remaining tr = fst r ++ Transport.remaining (snd r).
Proof.
  intros tr n Hn Hne. unfold Transport.read, Transport.remaining in *.
  destruct (n <? 0)%Z eqn:E; [zbool; lia|].
  pose proof (read_segments_remaining (Transport.segments tr) (Z.to_nat n)) as Hr.
  destruct (Transport.read_segments (Z.to_nat n) (Transport.segments tr)) as [c segs'].
  cbn [fst snd Transport.segments] in *.
  destruct Hr as (H1 & H2 & H3); [lia | exact Hne |].
  repeat split; auto. unfold Bytes.len. lia.
Qed.

Lemma split_line_found : forall line rest,
  ~ In LF line ->
  Transport.split_line (line ++ LF :: rest) = (line ++ [LF], Some rest).
Proof.
  induction line as [|x line IH]; intros rest Hnot; cbn [app Transport.split_line].
  - reflexivity.
  - destruct (Byte.eqb x LF) eqn:E.
    + apply byte_eqb_eq in E. subst x. elim Hnot. now left.
    + rewrite IH; [reflexivity|]. intros Hin. apply Hnot. now right.
Qed.

Lemma split_line_none : forall seg,
  ~ In LF seg -> Transport.split_line seg = (seg, None).
Proof.
  induction seg as [|x seg IH]; intros Hnot; cbn [Transport.split_line].
  - reflexivity.
  - destruct (Byte.eqb x LF) eqn:E.
    + apply byte_eqb_eq in E. subst x. elim Hnot. now left.
    + rewrite IH; [reflexivity|]. intros Hin. apply Hnot. now right.
Qed.

(** Where the first line feed of [a ++ x] lies when [a ++ x = line ++ LF :: rest]
    and there is none in [line]. *)
Lemma first_lf_split : forall (a x line rest : bytes),
  a ++ x = line ++ LF :: rest -> ~ In LF line ->
  (exists line', line = a ++ line' /\ x = line' ++ LF :: rest) \/
  (exists a1 a2, a = a1 ++ LF :: a2 /\ line = a1 /\ rest = a2 ++ x).
Proof.
  induction a as [|y a IH]; intros x line rest Heq Hnot.
  - left. exists line. auto.
  - destruct line as [|z line].
    + cbn in Heq. injection Heq as -> Heq. right. exists [], a. auto.
    + cbn in Heq. injection Heq as -> Heq.
      destruct (IH x line rest Heq) as [(line' & -> & Hx) | (a1 & a2 & -> & -> & Hr)].
      * intros Hin. apply Hnot. now right.
      * left. exists line'. auto.
      * right. exists (z :: a1), a2. auto.
Qed.

Lemma readline_segments_remaining : forall segs line rest,
  concat segs = line ++ LF :: rest -> ~ In LF line ->
  let r := Transport.readline_segments segs in
  fst r = line ++ [LF] /\ concat (snd r) = rest.
Proof.
  induction segs as [|seg segs IH]; intros line rest Heq Hnot.
  - destruct line; discriminate.
  - cbn [concat] in Heq. cbn [Transport.readline_segments].
    destruct (first_lf_split seg (concat segs) line rest Heq Hnot)
      as [(line' & -> & Hx) | (a1 & a2 & -> & <- & Hr)].
    + rewrite split_line_none
        by (intros Hin; apply Hnot; apply in_or_app; now left).
      specialize (IH line' rest Hx).
      destruct (Transport.readline_segments segs) as [more segs'].
      cbn [fst snd] in *. destruct IH as [-> <-].
      * intros Hin. apply Hnot. apply in_or_app. now right.
      * split; [now rewrite app_assoc | reflexivity].
    + rewrite split_line_found by exact Hnot. cbn [fst snd concat].
      split; [reflexivity | now symmetry].
Qed.

Lemma readline_remaining : forall tr rest,
  Transport.remaining tr = CRLF ++ rest ->
  Transport.remaining (snd (Transport.readline tr)) = rest.
Proof.
  intros tr rest Hrem. unfold Transport.readline, Transport.remaining in *.
  pose proof (readline_segments_remaining (Transport.segments tr) [CR] rest Hrem) as Hr.
  destruct (Transport.readline_segments (Transport.segments tr)) as [line segs'].
  cbn [fst snd Transport.segments] in *. apply Hr.
  intros [E | []]. discriminate.
Qed.

End TransportFacts.

(** ** Reading a body of declared length *)

Section DeclaredLength.

Import BodyPartReader.

Ltac reader_fields :=
  cbn [_at_eof _length _prev_chunk _content _boundary _read_bytes _content_eof
       headers _unread set_content set_at_eof set_read_bytes set_prev_chunk
       set_content_eof fst snd].

Lemma app_prefix_split : forall (c data x y : bytes),
  data ++ x = c ++ y -> length c <= length data ->
  exists data', data = c ++ data' /\ y = data' ++ x.
Proof.
  induction c as [|z c IH]; intros data x y Heq Hlen.
  - exists data. auto.
  - destruct data as [|d data]; [cbn in Hlen; lia|].
    cbn in Heq. injection Heq as -> Heq.
    destruct (IH data x y Heq) as (data' & -> & ->); [cbn in Hlen; lia|].
    exists data'. auto.
Qed.

(** One [read_chunk] on a part with a declared non-zero length: the chunk
    comes from a single [read] of at most [min(size, remaining)] bytes, and
    end-of-part is set exactly when the running total reaches the length. *)
Lemma read_chunk_declared : forall self L data rest size,
  _at_eof self = false -> _length self = Some L -> (0 < L)%Z ->
  _read_bytes self = (L - Bytes.len data)%Z -> data <> [] ->
  Transport.remaining (_content self) = data ++ CRLF ++ rest ->
  (0 < size)%Z ->
  exists c data' self',
    read_chunk self size = (c, self') /\
    c = fst (Transport.read (_content self) (Z.min size (L - _read_bytes self))) /\
    c <> [] /\ (Bytes.len c <= Z.min size (L - _read_bytes self))%Z /\
    data = c ++ data' /\
    _length self' = Some L /\ headers self' = headers self /\
    _read_bytes self' = (L - Bytes.len data')%Z /\
    _at_eof self' = (_read_bytes self' =? L)%Z /\
    (data' = [] -> Transport.remaining (_content self') = rest) /\
    (data' <> [] -> Transport.remaining (_content self') = data' ++ CRLF ++ rest).
Proof.
  intros self L data rest size Hae Hlen HL Hrb Hne Hrem Hsize.
  destruct self as [h bnd content ae len rb unr prev ce].
  cbn [_at_eof _length _read_bytes _content headers] in *. subst ae len rb.
  unfold read_chunk, length_truthy, _read_chunk_from_length, remaining_length.
  cbn [_at_eof _length _read_bytes _content].
  assert (Hn : (0 < Bytes.len data)%Z).
  { unfold Bytes.len. destruct data; [congruence | cbn; lia]. }
  replace (negb (L =? 0)%Z) with true
    by (symmetry; apply negb_true_iff; apply Z.eqb_neq; lia).
  set (n := Z.min size (L - (L - Bytes.len data))).
  assert (Hnpos : (0 < n)%Z) by (unfold n; lia).
  assert (Hrne : Transport.remaining content <> []).
  { rewrite Hrem. destruct data; [congruence | discriminate]. }
  pose proof (read_remaining content n Hnpos Hrne) as Hr.
  destruct (Transport.read content n) as [c content'] eqn:Eread.
  cbn [fst snd] in Hr. destruct Hr as (Hc & Hclen & Hsplit).
  rewrite Hrem in Hsplit.
  destruct (app_prefix_split c data (CRLF ++ rest) (Transport.remaining content') Hsplit)
    as (data' & Hdata & Hrest).
  { subst n. unfold Bytes.len in *. lia. }
  reader_fields.
  assert (Hsum : (L - Bytes.len data + Bytes.len c = L - Bytes.len data')%Z).
  { subst data. unfold Bytes.len. rewrite length_app. lia. }
  rewrite Hsum.
  destruct (L - Bytes.len data' =? L)%Z eqn:Edone.
  - assert (Hd' : data' = []).
    { zbool. unfold Bytes.len in Edone. destruct data'; [reflexivity | cbn in Edone; lia]. }
    subst data'. reader_fields.
    eexists c, [], _. split; [reflexivity|]. reader_fields.
    split; [reflexivity|]. split; [exact Hc|]. split; [exact Hclen|].
    split; [exact Hdata|]. split; [reflexivity|]. split; [reflexivity|].
    split; [reflexivity|]. split; [now rewrite Edone|].
    split; [|congruence].
    intros _. apply readline_remaining. exact Hrest.
  - reader_fields.
    eexists c, data', _. split; [reflexivity|]. reader_fields.
    split; [reflexivity|]. split; [exact Hc|]. split; [exact Hclen|].
    split; [exact Hdata|]. split; [reflexivity|]. split; [reflexivity|].
    split; [reflexivity|]. split; [now rewrite Edone|].
    split; [|intros _; exact Hrest].
    intros ->. zbool. unfold Bytes.len in Edone. cbn in Edone. lia.
Qed.

Lemma read_loop_declared : forall fuel self L data rest acc,
  _at_eof self = false -> _length self = Some L -> (0 < L)%Z ->
  _read_bytes self = (L - Bytes.len data)%Z -> data <> [] ->
  Transport.remaining (_content self) = data ++ CRLF ++ rest ->
  length data <= fuel ->
  exists self',
    read_loop fuel self acc = Some (acc ++ data, self') /\
    _at_eof self' = true /\ headers self' = headers self /\
    Transport.remaining (_content self') = rest.
Proof.
  induction fuel as [|fuel IH]; intros self L data rest acc Hae Hlen HL Hrb Hne Hrem Hfuel.
  - destruct data; [congruence | cbn in Hfuel; lia].
  - cbn [read_loop]. rewrite Hae.
    destruct (read_chunk_declared self L data rest chunk_size Hae Hlen HL Hrb Hne Hrem)
      as (c & data' & self1 & Hread & _ & Hc & Hclen & Hdata & Hlen1 & Hh1 & Hrb1 & Hae1
          & Hdone & Hmore); [reflexivity|].
    rewrite Hread.
    destruct data' as [|d data'].
    + assert (Heof : _at_eof self1 = true).
      { rewrite Hae1, Hrb1. apply Z.eqb_eq. unfold Bytes.len. cbn. lia. }
      exists self1. subst data. rewrite app_nil_r.
      destruct fuel; cbn [read_loop]; rewrite Heof; auto.
    + assert (Heof : _at_eof self1 = false).
      { rewrite Hae1, Hrb1. apply Z.eqb_neq. unfold Bytes.len. cbn [length]. lia. }
      assert (Hfuel' : length (d :: data') <= fuel).
      { subst data. rewrite length_app in Hfuel.
        destruct c; [congruence | cbn [length] in *; lia]. }
      destruct (IH self1 L (d :: data') rest (acc ++ c) Heof Hlen1 HL Hrb1
                  ltac:(discriminate) (Hmore ltac:(discriminate)) Hfuel')
        as (self2 & Hloop & He2 & Hh2 & Hr2).
      exists self2. rewrite Hloop. subst data. rewrite <- app_assoc.
      repeat split; auto. congruence.
Qed.

End DeclaredLength.

(** ** The multipart writer, and reading its output back *)

Section RoundTrip.

Import MultipartWriter.

Variable H : helpers.
Variable C : MultipartPayloadWriter.compressor_ops.
Variable b2a_qp : bytes -> bytes.





Lemma big_chunk_limit_pos : 0 < BIG_CHUNK_LIMIT.
Proof.
  unfold BIG_CHUNK_LIMIT. rewrite Nat.shiftl_mul_pow2.
  apply Nat.mul_pos_pos; [lia|]. apply Nat.neq_0_lt_0, Nat.pow_nonzero. lia.
Qed.






End RoundTrip.

Section RoundTripTheorem.

Variable H : helpers.
Variable C : MultipartPayloadWriter.compressor_ops.
Variable b2a_qp : bytes -> bytes.
Variable unquote : str -> str -> result str.




End RoundTripTheorem.

(** ** What the parser never gives back *)

Section LeadingSlash.

Variable G : grammar.
Variable unquote : str -> str -> result str.

Hypothesis slash_not_token : TOKEN G "/" = false.

Lemma in_dict_set : forall d k v kv,
  In kv (dict_set d k v) -> kv = (k, v) \/ In kv d.
Proof.
  induction d as [|[k' v'] d IH]; intros k v kv Hin; cbn [dict_set] in Hin.
  - destruct Hin as [<- | []]. now left.
  - destruct (Str.eqb k' k) eqn:E.
    + apply str_eqb_eq in E. subst k'. destruct Hin as [<- | Hin]; [now left|].
      right. now right.
    + destruct Hin as [<- | Hin]; [right; now left|].
      destruct (IH _ _ _ Hin) as [-> | Hd]; [now left | right; now right].
Qed.

Lemma no_leading_slash_set : forall params k v,
  no_leading_slash params ->
  (Str.member "*" k = false -> forall r, v <> "/"%char :: r) ->
  no_leading_slash (dict_set params k v).
Proof.
  intros params k v Hinv Hv k0 v0 r Hin Hk0.
  destruct (in_dict_set _ _ _ _ Hin) as [[= -> ->] | Hold].
  - now apply Hv.
  - now apply (Hinv k0 v0 r).
Qed.

Lemma find_succ_member : forall c x,
  Str.find_succ c x <> 0 -> Str.member c x = true.
Proof.
  induction x as [|d x IH]; cbn [Str.find_succ]; intros Hf; [congruence|].
  unfold Str.member in *. cbn [existsb].
  rewrite (Ascii.eqb_sym c d).
  destruct (Ascii.eqb d c); [reflexivity|]. cbn [orb]. apply IH.
  destruct (Str.find_succ c x); congruence.
Qed.

Lemma continuous_has_star : forall key,
  is_continuous_param key = true -> Str.member "*" key = true.
Proof.
  intros key Hc. unfold is_continuous_param in Hc.
  destruct (Str.find_succ "*" key =? 0) eqn:E; [discriminate|].
  apply find_succ_member. now apply Nat.eqb_neq.
Qed.

Lemma extended_has_star : forall key,
  is_extended_param key = true -> Str.member "*" key = true.
Proof.
  intros key He. unfold is_extended_param, Str.endswith in He.
  unfold Str.member. apply existsb_exists. exists "*"%char. split; [|reflexivity].
  apply in_rev. cbn in He. destruct (rev key) as [|c r]; [discriminate|].
  apply andb_true_iff in He. destruct He as [He _].
  apply Ascii.eqb_eq in He. subst c. now left.
Qed.

Lemma token_no_slash : forall value r,
  is_token G value = true -> value <> "/"%char :: r.
Proof.
  intros value r Ht ->. unfold is_token in Ht. cbn in Ht.
  now rewrite slash_not_token in Ht.
Qed.

Lemma unescape_lstrip_no_slash : forall x r,
  unescape G (Str.lstrip_chars (s "\/") x) <> "/"%char :: r.
Proof.
  induction x as [|c x IH]; intros r; [discriminate|].
  unfold Str.lstrip_chars in *. cbn [Str.lstrip_by].
  destruct (Str.member c (s "\/")) eqn:E; [apply IH|].
  unfold Str.member in E. cbn in E.
  apply orb_false_iff in E. destruct E as [E1 E2].
  apply orb_false_iff in E2. destruct E2 as [E2 _].
  cbn [unescape]. rewrite E1. intros [= -> _]. discriminate.
Qed.

Lemma parse_params_no_leading_slash : forall n parts params res,
  length parts <= n ->
  no_leading_slash params ->
  parse_params G unquote parts params = Ok (Some res) ->
  no_leading_slash res.
Proof.
  induction n as [|n IH]; intros parts params res Hlen Hinv Hparse.
  - destruct parts; [|cbn in Hlen; lia]. cbn in Hparse. now injection Hparse as <-.
  - destruct parts as [|item parts]; [cbn in Hparse; now injection Hparse as <-|].
    cbn [length] in Hlen. cbn [parse_params] in Hparse.
    destruct (split_item item) as [[key value]|]; [|discriminate].
    destruct (dict_contains params key); [discriminate|].
    destruct (negb (is_token G key)); [apply (IH parts params); auto; lia|].
    destruct (is_continuous_param key) eqn:Ec.
    { destruct (is_quoted value) as [[|]|]; cbn [bind] in Hparse; try discriminate.
      - apply (IH parts _ res) in Hparse; auto; [lia|].
        apply no_leading_slash_set; auto.
        intros Hk. rewrite continuous_has_star in Hk by exact Ec. discriminate.
      - destruct (negb (is_token G value)); [apply (IH parts params); auto; lia|].
        apply (IH parts _ res) in Hparse; auto; [lia|].
        apply no_leading_slash_set; auto.
        intros Hk. rewrite continuous_has_star in Hk by exact Ec. discriminate. }
    destruct (is_extended_param key) eqn:Ee.
    { destruct (is_rfc5987 G value); [|apply (IH parts params); auto; lia].
      destruct (Str.splitn APOSTROPHE 2 value) as [|e [|l [|v [|]]]]; try discriminate.
      destruct (unquote v (utf8_default e)) as [v'|[]]; try discriminate.
      - apply (IH parts _ res) in Hparse; auto; [lia|].
        apply no_leading_slash_set; auto.
        intros Hk. rewrite extended_has_star in Hk by exact Ee. discriminate.
      - apply (IH parts params); auto; lia. }
    destruct (is_quoted value) as [[|]|]; cbn [bind] in Hparse; try discriminate.
    destruct (is_token G value) eqn:Et.
    { apply (IH parts _ res) in Hparse; auto; [lia|].
      apply no_leading_slash_set; auto. intros _ r. now apply token_no_slash. }
    destruct parts as [|next parts]; [discriminate|].
    destruct (is_quoted (value ++ s ";" ++ next)) as [[|]|]; cbn [bind] in Hparse;
      try discriminate.
    apply (IH parts _ res) in Hparse; auto; [cbn [length] in Hlen; lia|].
    apply no_leading_slash_set; auto. intros _ r. apply unescape_lstrip_no_slash.
Qed.

Lemma parse_no_leading_slash : forall header disptype params,
  parse_content_disposition G unquote header = Ok (disptype, params) ->
  no_leading_slash params.
Proof.
  intros header disptype params Hp. unfold parse_content_disposition in Hp.
  assert (Hnil : no_leading_slash []) by (intros k v r []).
  destruct (negb (truthy header)); [injection Hp as _ <-; exact Hnil|].
  destruct (Str.split ";" header) as [|d parts]; [discriminate|].
  destruct (negb (is_token G d)); [injection Hp as _ <-; exact Hnil|].
  destruct (parse_params G unquote parts []) as [[res|]|] eqn:E; cbn [bind] in Hp;
    try discriminate.
  - injection Hp as _ <-.
    exact (parse_params_no_leading_slash (length parts) parts [] res (le_n _) Hnil E).
  - injection Hp as _ <-. exact Hnil.
Qed.

End LeadingSlash.

(** ** Worked cases of the round trip *)

(** The payloads of the worked cases are what [append] leaves behind. *)
Lemma append_gives_sample_payload : forall H w v,
  MultipartWriter.append H w
    (MultipartWriter.OPayload (Payload.BytesPayload__init__ v None None None None)) None =
  Ok (w, Some (sample_bytes_payload v), None).
Proof. reflexivity. Qed.

(** With neither encoding header, [decode] leaves the data as it is. *)
Lemma decode_without_encodings : forall K self data,
  imultidict.contains (BodyPartReader.headers self) CONTENT_TRANSFER_ENCODING = false ->
  imultidict.contains (BodyPartReader.headers self) CONTENT_ENCODING = false ->
  BodyPartReader.decode K self data = Ok data.
Proof.
  intros K self data H1 H2. unfold BodyPartReader.decode. rewrite H1. cbn [bind].
  now rewrite H2.
Qed.




(** A plain parameter whose value is a quoted string on its own is not
    accepted: nothing marks the value as valid on that path, and the whole
    header is rejected. *)
Lemma parse_params_quoted_plain :
  forall (G : grammar) (unquote : str -> str -> result str) item rest params key value,
  split_item item = Some (key, value) ->
  dict_contains params key = false ->
  is_token G key = true ->
  is_continuous_param key = false ->
  is_extended_param key = false ->
  is_quoted value = Ok true ->
  parse_params G unquote (item :: rest) params = Ok None.
Proof.
  intros G unquote item rest params key value Hs Hd Hk Hc He Hq.
  cbn [parse_params]. now rewrite Hs, Hd, Hk, Hc, He, Hq.
Qed.

Example quoted_filename_is_rejected :
  round_trip sample_helpers no_compressor (fun x => x) unquote_plain 8 sample_writer
    [Payload.set_headers (Payload.BytesPayload__init__ (b "abc") None None None None)
       (Some (imultidict.of_mapping
                [(CONTENT_DISPOSITION, s "attachment; filename=" ++ quoted (s "ab"))]))] =
  Some [(b "abc", Some (s "application/octet-stream"), Ok (None, []))].
Proof. vm_compute. reflexivity. Qed.

(** ** The size of a multipart body *)

Section SizeFacts.

Import MultipartWriter.

Variable C : MultipartPayloadWriter.compressor_ops.
Variable b2a_qp : bytes -> bytes.

Lemma len_app : forall x y : bytes, Bytes.len (x ++ y) = (Bytes.len x + Bytes.len y)%Z.
Proof. intros. unfold Bytes.len. rewrite length_app. lia. Qed.

Lemma sized_write : forall p sz,
  sized p -> Payload.size p = Ok (Some sz) ->
  exists chunks p', Payload.write p = Ok (chunks, p') /\ Bytes.len (concat chunks) = sz.
Proof.
  intros p sz Hs Hsz. unfold sized in Hs. unfold Payload.size in Hsz. unfold Payload.write.
  destruct (Payload.cls p), (Payload.value p) as [v|f]; try contradiction.
  - exists [v], p. split; [reflexivity|]. cbn [concat]. rewrite app_nil_r.
    injection Hsz as Hsz. rewrite Hs in Hsz. now injection Hsz.
  - destruct (Payload.closed f); [discriminate|]. injection Hsz as <-.
    eexists _, _. split; [reflexivity|].
    unfold chunked. rewrite concat_chunks_of; [| exact big_chunk_limit_pos | lia].
    unfold Bytes.len. rewrite length_skipn. lia.
Qed.

Lemma str_truthy_false : forall e, str_truthy e = false -> e <> Some [] -> e = None.
Proof.
  intros [[|c e]|] Ht Hne; cbn in Ht; [now elim Hne | discriminate | reflexivity].
Qed.

Lemma size_loop_nil : forall boundary total,
  size_loop boundary [] total = Ok (Some (total + (6 + Bytes.len boundary))%Z).
Proof. reflexivity. Qed.

Lemma size_loop_cons : forall boundary p headers encoding te ps total,
  size_loop boundary ((p, headers, encoding, te) :: ps) total =
  if str_truthy encoding || str_truthy te then Ok None
  else
    sz <- Payload.size p ;;
    match sz with
    | None => Ok None
    | Some sz =>
        size_loop boundary ps (total + (6 + Bytes.len boundary + sz + Bytes.len headers))%Z
    end.
Proof. reflexivity. Qed.

Lemma size_loop_written : forall ps boundary writer total n,
  Forall part_ok ps -> size_loop boundary ps total = Ok (Some n) ->
  exists out ps',
    write_parts C b2a_qp boundary writer ps = Ok (out, ps') /\
    (Bytes.len (concat out) + total + (6 + Bytes.len boundary)
     = Bytes.len (concat writer) + n)%Z.
Proof.
  induction ps as [|[[[p headers] encoding] te] ps IH]; intros boundary writer total n Hall Hsz.
  - rewrite size_loop_nil in Hsz.
    assert (Hn : (total + (6 + Bytes.len boundary))%Z = n) by congruence.
    exists writer, [].
    split; [reflexivity|]. lia.
  - inversion Hall as [|? ? Hp Hrest]; subst.
    unfold part_ok in Hp. destruct Hp as (Hs & He & Ht).
    rewrite size_loop_cons in Hsz.
    destruct (str_truthy encoding || str_truthy te) eqn:Etr; [discriminate|].
    apply orb_false_iff in Etr. destruct Etr as [Ee Et].
    apply str_truthy_false in Ee; [|exact He]. apply str_truthy_false in Et; [|exact Ht].
    subst encoding te.
    destruct (Payload.size p) as [[sz|]|e] eqn:Esz; cbn [bind] in Hsz; try discriminate.
    destruct (sized_write p sz Hs Esz) as (chunks & p' & Hw & Hlen).
    cbn [write_parts]. unfold write_part. rewrite Hw. cbn [bind].
    match goal with
    | |- context [write_parts C b2a_qp boundary ?l ps] =>
        destruct (IH boundary l _ n Hrest Hsz) as (out & ps' & Hwp & Hcount)
    end.
    rewrite Hwp. cbn [bind]. eexists _, _. split; [reflexivity|].
    rewrite !concat_app in Hcount. cbn [concat] in Hcount.
    rewrite !len_app in Hcount.
    unfold Bytes.len in *. cbn [length b list_byte_of_string CRLF] in Hcount.
    change (length (b "--")) with 2 in Hcount. lia.
Qed.

(** X1. The [size] property counts what [write] writes: when the size of a
    writer is known, writing it with the closing boundary succeeds and hands
    the underlying writer exactly that many bytes; with no part recorded
    both are zero.  The payloads of the parts are distinct objects. *)
Theorem size_is_length_of_written_body : forall (w : MultipartWriter.t) (n : Z),
  Forall part_ok (parts w) ->
  size w = Ok (Some n) ->
  exists out w',
    write C b2a_qp w [] true = Ok (out, w') /\ Bytes.len (concat out) = n.
Proof.
  intros w n Hall Hsz. unfold size in Hsz. unfold write.
  destruct (parts w) as [|p ps] eqn:Eparts.
  - cbn in Hsz. injection Hsz as <-. cbn. exists [], w. auto.
  - cbn [truthy negb] in *.
    destruct (size_loop_written (p :: ps) (_boundary w) [] 0 n Hall Hsz)
      as (out & ps' & Hwp & Hcount).
    rewrite Hwp. cbn [bind]. eexists _, _. split; [reflexivity|].
    rewrite concat_app. cbn [concat]. rewrite app_nil_r, !len_app.
    unfold Bytes.len in *. cbn [length b list_byte_of_string CRLF concat] in *.
    change (length (b "--")) with 2 in *. cbn [length] in *. lia.
Qed.

End SizeFacts.

Lemma size_is_length_of_written_body_witness :
  exists out w',
    MultipartWriter.write no_compressor (fun x => x) sample_parts_writer [] true
      = Ok (out, w') /\
    Bytes.len (concat out) = 151%Z.
Proof.
  apply (size_is_length_of_written_body no_compressor (fun x => x) sample_parts_writer 151).
  - repeat constructor; discriminate.
  - reflexivity.
Defined.

(** ** Appending raw values *)

Section AppendRawFacts.

Import MultipartWriter.

Variable M : multidict_ops.
Variable T : text_helpers.
Variable H : helpers.

Lemma append_payload_bytes_raises : forall w v headers content_type filename encoding,
  append_payload H w
    (Payload.BytesPayload__init__ v (Some (headers_or_empty headers)) content_type
       filename encoding)
  = Raise (headers_failure headers).
Proof.
  intros w v [[|kv h]|] content_type filename encoding; reflexivity.
Qed.


(** X3. [append_json] and [append_form] never record a part either: when
    the value serializes and encodes they raise [TypeError] for missing or
    empty headers and [AttributeError] for given headers, and otherwise the
    error of the serializer or encoder. *)
Theorem append_json_and_append_form_always_raise :
  forall (w : MultipartWriter.t) (headers : option imultidict.t),
  (forall obj,
     append_json T H w obj headers =
     (text <- dumps T obj ;; _ <- str_encode T text (s "utf-8") ;;
      Raise (headers_failure headers))) /\
  (forall obj,
     append_form M T H w obj headers =
     (data <- urlencode T obj ;;
      mimetype <- MimeType.__init__ M (s "application/x-www-form-urlencoded") ;;
      _ <- match MimeType.params_get M mimetype (s "charset") (Some (s "utf-8")) with
           | Some encoding => str_encode T data encoding
           | None => Raise TypeError
           end ;;
      Raise (headers_failure headers))).
Proof.
  intros w headers. split; intros obj.
  - unfold append_json, JsonPayload__init__.
    destruct (dumps T obj) as [text|e]; [|reflexivity]. cbn [bind].
    destruct (str_encode T text (s "utf-8")) as [v|e]; [|reflexivity]. cbn [bind].
    apply append_payload_bytes_raises.
  - unfold append_form, StringPayload__init__.
    destruct (urlencode T obj) as [data|e]; [|reflexivity]. cbn [bind].
    destruct (MimeType.__init__ M (s "application/x-www-form-urlencoded")) as [m|e];
      [|reflexivity].
    cbn [bind].
    destruct (MimeType.params_get M m (s "charset") (Some (s "utf-8"))) as [enc|];
      [|reflexivity].
    destruct (str_encode T data enc) as [v|e]; [|reflexivity]. cbn [bind].
    apply append_payload_bytes_raises.
Qed.

End AppendRawFacts.

(** ** Reading a part line by line *)

Section LineFacts.

Import BodyPartReader.

Lemma split_line_conserves : forall seg,
  seg = fst (Transport.split_line seg)
        ++ match snd (Transport.split_line seg) with Some r => r | None => [] end.
Proof.
  induction seg as [|x seg IH]; cbn [Transport.split_line]; [reflexivity|].
  destruct (Byte.eqb x LF); [reflexivity|].
  destruct (Transport.split_line seg) as [line rest]. cbn [fst snd] in *.
  now rewrite IH at 1.
Qed.

Lemma readline_segments_conserves : forall segs,
  fst (Transport.readline_segments segs) ++ concat (snd (Transport.readline_segments segs))
  = concat segs.
Proof.
  induction segs as [|seg segs IH]; cbn [Transport.readline_segments concat]; [reflexivity|].
  pose proof (split_line_conserves seg) as Hs.
  destruct (Transport.split_line seg) as [line [rem|]]; cbn [fst snd] in *.
  - cbn [concat]. rewrite app_assoc. now rewrite <- Hs.
  - destruct (Transport.readline_segments segs) as [more rest']. cbn [fst snd] in *.
    rewrite <- app_assoc, IH. rewrite app_nil_r in Hs. now rewrite <- Hs.
Qed.

Lemma readline_conserves : forall tr,
  fst (Transport.readline tr) ++ Transport.remaining (snd (Transport.readline tr))
  = Transport.remaining tr.
Proof.
  intros tr. unfold Transport.readline, Transport.remaining.
  pose proof (readline_segments_conserves (Transport.segments tr)) as Hr.
  destruct (Transport.readline_segments (Transport.segments tr)) as [line segs].
  exact Hr.
Qed.

Lemma bytes_eqb_eq : forall x y, Bytes.eqb x y = true <-> x = y.
Proof.
  intros x y. unfold Bytes.eqb. destruct (list_eq_dec Byte.byte_eq_dec x y); split;
    intros; congruence.
Qed.

Lemma startswith_prefix : forall sub l,
  Bytes.startswith l sub = true <-> exists t, l = sub ++ t.
Proof.
  induction sub as [|x sub IH]; intros l; cbn [Bytes.startswith].
  - split; [intros _; now exists l | reflexivity].
  - destruct l as [|y l].
    + split; [discriminate | intros [t Ht]; discriminate].
    + rewrite andb_true_iff, byte_eqb_eq, IH. split.
      * intros [-> [t ->]]. now exists t.
      * intros [t Ht]. cbn in Ht. injection Ht as -> ->. split; [reflexivity | now exists t].
Qed.

Lemma lstrip_suffix : forall chars l, exists h, l = h ++ Bytes.lstrip chars l.
Proof.
  induction l as [|x l [h IH]]; cbn [Bytes.lstrip].
  - now exists [].
  - destruct (existsb (Byte.eqb x) chars).
    + exists (x :: h). cbn. now rewrite <- IH.
    + now exists [].
Qed.

Lemma rstrip_prefix : forall chars l, exists t, l = Bytes.rstrip chars l ++ t.
Proof.
  intros chars l. unfold Bytes.rstrip.
  destruct (lstrip_suffix chars (rev l)) as [h Hh].
  exists (rev h). rewrite <- rev_app_distr, <- Hh. now rewrite rev_involutive.
Qed.

(** X4. [readline] ends the part exactly at a boundary line: end-of-part is
    set if and only if the line it examines, with its trailing CR and LF
    bytes removed, is the boundary or the boundary followed by two dashes;
    it then returns the empty bytes and queues the line again, and
    otherwise it leaves end-of-part unset. *)
Theorem readline_ends_part_exactly_at_boundary_line : forall (self : BodyPartReader.t),
  _at_eof self = false ->
  let line := upcoming_line self in
  let r := readline self in
  (_at_eof (snd r) = true <->
   Bytes.rstrip CRLF line = _boundary self \/
   Bytes.rstrip CRLF line = _boundary self ++ b "--") /\
  (_at_eof (snd r) = true ->
   fst r = [] /\ _unread (snd r) = tl (_unread self) ++ [line]).
Proof.
  intros self Hae line r. subst line r. unfold readline, upcoming_line. rewrite Hae.
  destruct self as [h bnd content ae len rb unr prev ce].
  cbn [_at_eof _unread _content _boundary] in *. subst ae.
  assert (Hstarts : forall line,
            Bytes.rstrip CRLF line = bnd \/ Bytes.rstrip CRLF line = bnd ++ b "--" ->
            Bytes.startswith line bnd = true).
  { intros line Hl. apply startswith_prefix.
    destruct (rstrip_prefix CRLF line) as [t Ht].
    destruct Hl as [Hl | Hl]; rewrite Hl in Ht.
    - now exists t.
    - exists (b "--" ++ t). now rewrite app_assoc. }
  assert (Hcase : forall line (rest : list bytes) content',
    let self := {| headers := h; _boundary := bnd; _content := content'; _at_eof := false;
                   _length := len; _read_bytes := rb; _unread := rest;
                   _prev_chunk := prev; _content_eof := ce |} in
    let r :=
      if Bytes.startswith line (_boundary self) then
        if Bytes.eqb (Bytes.rstrip CRLF line) (_boundary self)
           || Bytes.eqb (Bytes.rstrip CRLF line) (_boundary self ++ b "--")
        then ([], set_unread (set_at_eof self true)
                    (_unread (set_at_eof self true) ++ [line]))
        else (line, self)
      else
        let '(next_line, content) := Transport.readline (_content self) in
        ((if Bytes.startswith next_line (_boundary (set_content self content))
          then firstn (length line - 2) line else line),
         set_unread (set_content self content)
           (_unread (set_content self content) ++ [next_line])) in
    (_at_eof (snd r) = true <->
     Bytes.rstrip CRLF line = bnd \/ Bytes.rstrip CRLF line = bnd ++ b "--") /\
    (_at_eof (snd r) = true -> fst r = [] /\ _unread (snd r) = rest ++ [line])).
  { intros line rest content'. cbn zeta.
    cbn [_boundary _content _unread set_content set_at_eof set_unread].
    destruct (Bytes.startswith line bnd) eqn:Es.
    - destruct (Bytes.eqb (Bytes.rstrip CRLF line) bnd
                || Bytes.eqb (Bytes.rstrip CRLF line) (bnd ++ b "--")) eqn:Eb.
      + cbn [fst snd _at_eof _unread]. apply orb_true_iff in Eb.
        rewrite !bytes_eqb_eq in Eb. repeat split; auto.
      + cbn [fst snd _at_eof]. apply orb_false_iff in Eb. destruct Eb as [E1 E2].
        split; [|discriminate]. split; [discriminate|].
        intros [Hl | Hl]; apply bytes_eqb_eq in Hl; congruence.
    - destruct (Transport.readline content') as [next_line content''].
      cbn [fst snd _at_eof set_unread set_content].
      split; [|discriminate]. split; [discriminate|].
      intros Hl. apply Hstarts in Hl. congruence. }
  destruct unr as [|line rest].
  - cbn [tl app].
    destruct (Transport.readline content) as [line content'] eqn:Er. cbn [fst].
    exact (Hcase line [] content').
  - cbn [tl]. exact (Hcase line rest content).
Qed.

Lemma readline_ends_part_exactly_at_boundary_line_witness :
  let line := upcoming_line sample_line_reader in
  let r := readline sample_line_reader in
  (_at_eof (snd r) = true <->
   Bytes.rstrip CRLF line = _boundary sample_line_reader \/
   Bytes.rstrip CRLF line = _boundary sample_line_reader ++ b "--") /\
  (_at_eof (snd r) = true ->
   fst r = [] /\ _unread (snd r) = tl (_unread sample_line_reader) ++ [line]).
Proof.
  exact (readline_ends_part_exactly_at_boundary_line sample_line_reader eq_refl).
Defined.

(** X5. [readline] keeps the stream in order: a reader with at most one
    queued line still has at most one afterwards, and the line returned,
    followed by what is queued and what the transport holds, is what was
    ahead before, except for the last two bytes of the line, which are cut
    off when the line read after it starts with the boundary.  The cut
    takes two bytes whatever they are, a line feed alone included. *)
Theorem readline_keeps_the_stream_in_order : forall (self : BodyPartReader.t),
  _at_eof self = false ->
  length (_unread self) <= 1 ->
  let r := readline self in
  length (_unread (snd r)) <= 1 /\
  exists raw,
    raw ++ queued (snd r) = queued self /\
    (fst r = raw \/
     fst r = firstn (length raw - 2) raw /\
     exists next, _unread (snd r) = [next] /\
                  Bytes.startswith next (_boundary self) = true).
Proof.
  intros self Hae Hq r. subst r. unfold readline. rewrite Hae.
  destruct self as [h bnd content ae len rb unr prev ce].
  cbn [_at_eof _unread _content _boundary] in *. subst ae.
  assert (Hcase : forall line content',
    let self := {| headers := h; _boundary := bnd; _content := content'; _at_eof := false;
                   _length := len; _read_bytes := rb; _unread := [];
                   _prev_chunk := prev; _content_eof := ce |} in
    let r :=
      if Bytes.startswith line (_boundary self) then
        if Bytes.eqb (Bytes.rstrip CRLF line) (_boundary self)
           || Bytes.eqb (Bytes.rstrip CRLF line) (_boundary self ++ b "--")
        then ([], set_unread (set_at_eof self true)
                    (_unread (set_at_eof self true) ++ [line]))
        else (line, self)
      else
        let '(next_line, content) := Transport.readline (_content self) in
        ((if Bytes.startswith next_line (_boundary (set_content self content))
          then firstn (length line - 2) line else line),
         set_unread (set_content self content)
           (_unread (set_content self content) ++ [next_line])) in
    length (_unread (snd r)) <= 1 /\
    exists raw,
      raw ++ queued (snd r) = line ++ Transport.remaining content' /\
      (fst r = raw \/
       fst r = firstn (length raw - 2) raw /\
       exists next, _unread (snd r) = [next] /\ Bytes.startswith next bnd = true)).
  { intros line content'. cbn zeta.
    cbn [_boundary _content _unread set_content set_at_eof set_unread].
    destruct (Bytes.startswith line bnd) eqn:Es.
    - destruct (Bytes.eqb (Bytes.rstrip CRLF line) bnd
                || Bytes.eqb (Bytes.rstrip CRLF line) (bnd ++ b "--")).
      + unfold queued.
        cbn [fst snd _unread _content set_unread set_at_eof app length concat].
        split; [lia|]. exists []. rewrite app_nil_r. auto.
      + unfold queued. cbn [fst snd _unread _content length concat app].
        split; [lia|]. exists line. auto.
    - pose proof (readline_conserves content') as Hc.
      destruct (Transport.readline content') as [next_line content''].
      unfold queued.
      cbn [fst snd _unread _content set_unread set_content app length concat] in *.
      split; [lia|]. exists line.
      rewrite app_nil_r, Hc. split; [reflexivity|].
      destruct (Bytes.startswith next_line bnd) eqn:En; [right | now left].
      split; [reflexivity|]. now exists next_line. }
  destruct unr as [|line [|line2 rest]]; [| |cbn in Hq; lia].
  - pose proof (readline_conserves content) as Hc.
    destruct (Transport.readline content) as [line content'] eqn:Er. cbn [fst snd] in Hc.
    unfold queued at 2. cbn [_unread _content concat app]. rewrite <- Hc.
    exact (Hcase line content').
  - unfold queued at 2. cbn [_unread _content concat app]. rewrite app_nil_r.
    exact (Hcase line content).
Qed.

Lemma readline_keeps_the_stream_in_order_witness :
  let r := readline sample_data_line_reader in
  length (_unread (snd r)) <= 1 /\
  exists raw,
    raw ++ queued (snd r) = queued sample_data_line_reader /\
    (fst r = raw \/
     fst r = firstn (length raw - 2) raw /\
     exists next, _unread (snd r) = [next] /\
                  Bytes.startswith next (_boundary sample_data_line_reader) = true).
Proof.
  apply (readline_keeps_the_stream_in_order sample_data_line_reader).
  - reflexivity.
  - cbn. lia.
Defined.

End LineFacts.

(** ** Reading a body of unknown length *)

Section StreamFacts.

Import BodyPartReader.

Lemma read_segments_conserves : forall segs k,
  concat segs = fst (Transport.read_segments k segs)
                ++ concat (snd (Transport.read_segments k segs)) /\
  length (fst (Transport.read_segments k segs)) <= k.
Proof.
  induction segs as [|seg segs IH]; intros k; cbn [Transport.read_segments].
  - cbn. split; [reflexivity | lia].
  - destruct seg as [|x seg]; [exact (IH k)|].
    cbn [fst snd]. split.
    + destruct (length (x :: seg) <=? k) eqn:E.
      * apply Nat.leb_le in E. rewrite firstn_all2 by exact E. reflexivity.
      * cbn [concat]. rewrite app_assoc, firstn_skipn. reflexivity.
    + rewrite length_firstn. lia.
Qed.

Lemma read_conserves : forall tr n,
  (0 <= n)%Z ->
  Transport.remaining tr
  = fst (Transport.read tr n) ++ Transport.remaining (snd (Transport.read tr n)) /\
  (Bytes.len (fst (Transport.read tr n)) <= n)%Z.
Proof.
  intros tr n Hn. unfold Transport.read, Transport.remaining.
  destruct (n <? 0)%Z eqn:E; [zbool; lia|].
  pose proof (read_segments_conserves (Transport.segments tr) (Z.to_nat n)) as [H1 H2].
  destruct (Transport.read_segments (Z.to_nat n) (Transport.segments tr)) as [c segs'].
  cbn [fst snd Transport.segments] in *. split; [exact H1|]. unfold Bytes.len. lia.
Qed.

Lemma find_sound : forall l sub start idx,
  (0 <= start)%Z -> Bytes.find l sub start = idx -> (0 <= idx)%Z ->
  exists i, idx = Z.of_nat i /\ occ sub l i.
Proof.
  intros l sub start idx Hs Hf Hi. unfold Bytes.find in Hf.
  destruct (start <? 0)%Z eqn:E; [zbool; lia|].
  destruct (Z.of_nat (length l) <? start)%Z; [lia|].
  destruct (Bytes.find_at sub (skipn (Z.to_nat start) l) (Z.to_nat start)) as [r|] eqn:Ef;
    [|lia].
  destruct (find_at_sound _ _ _ _ Ef) as (j & -> & Hocc & _).
  exists (Z.to_nat start + j). split; [now symmetry|].
  now apply occ_skipn.
Qed.

Lemma occ_split : forall sub l i,
  sub <> [] -> occ sub l i -> exists rest, skipn i l = sub ++ rest.
Proof.
  intros sub l i Hne Hocc. exists (skipn (length sub) (skipn i l)).
  unfold occ in Hocc. rewrite <- Hocc at 1. now rewrite firstn_skipn.
Qed.

(** What is handed out and what is carried over when the delimiter is found
    at [i]: together, the window up to [i]. *)
Lemma window_before : forall (prev chunk : bytes) i,
  firstn i prev ++ slice (prev ++ chunk) (length (firstn i prev)) i
  = firstn i (prev ++ chunk) /\
  length (slice (prev ++ chunk) (length (firstn i prev)) i) <= length chunk.
Proof.
  intros prev chunk i. unfold slice. rewrite length_firstn.
  destruct (Nat.le_gt_cases i (length prev)) as [Hle | Hgt].
  - rewrite Nat.min_l by exact Hle. rewrite Nat.sub_diag. cbn [firstn].
    rewrite firstn_app. replace (i - length prev) with 0 by lia. cbn [firstn].
    split; [reflexivity | cbn; lia].
  - rewrite Nat.min_r by lia.
    rewrite skipn_app, Nat.sub_diag, skipn_all. cbn [app skipn].
    rewrite firstn_app. rewrite (firstn_all2 prev) by lia.
    split; [reflexivity | rewrite length_firstn; lia].
Qed.

(** One scan of the stream: nothing is lost and nothing is handed out
    twice, and the part ends only in front of a delimiter. *)
Lemma stream_step : forall self size,
  _at_eof self = false -> (0 <= size)%Z -> (Bytes.len (carried self) <= size)%Z ->
  let r := _read_chunk_from_stream self size in
  (Bytes.len (carried (snd r)) <= size)%Z /\
  _boundary (snd r) = _boundary self /\ _length (snd r) = _length self /\
  _read_bytes (snd r) = _read_bytes self /\ headers (snd r) = headers self /\
  fst r ++ carried (snd r) ++ Transport.remaining (_content (snd r))
  = carried self ++ Transport.remaining (_content self) /\
  (_at_eof (snd r) = true ->
   carried (snd r) = [] /\
   exists rest, Transport.remaining (_content (snd r)) = CRLF ++ _boundary self ++ rest).
Proof.
  intros self size Hae Hsize Hcar r. subst r.
  destruct self as [h bnd content ae len rb unr prev ce].
  cbn [_at_eof] in Hae. subst ae. unfold carried in Hcar. cbn [_prev_chunk] in Hcar.
  unfold _read_chunk_from_stream. cbn [_prev_chunk].
  assert (Hgo : forall p tr first,
    (Bytes.len p <= size)%Z ->
    p ++ Transport.remaining tr
    = carried {| headers := h; _boundary := bnd; _content := content; _at_eof := false;
                 _length := len; _read_bytes := rb; _unread := unr;
                 _prev_chunk := prev; _content_eof := ce |}
      ++ Transport.remaining content ->
    forall pc,
    let self := {| headers := h; _boundary := bnd; _content := tr; _at_eof := false;
                   _length := len; _read_bytes := rb; _unread := unr;
                   _prev_chunk := pc; _content_eof := ce |} in
    let r :=
      let '(chunk, content) := Transport.read (_content self) size in
      let self := set_content self content in
      let self := set_content_eof self
                    (_content_eof self + if Transport.at_eof content then 1 else 0)%Z in
      let window := p ++ chunk in
      let sub := CRLF ++ _boundary self in
      let idx :=
        if first : bool then Bytes.find window sub 0
        else Bytes.find window sub (Z.max 0 (Bytes.len p - Bytes.len sub)) in
      let '(prev_chunk, chunk, self) :=
        if (idx >=? 0)%Z then
          let self := set_content self
                        (Transport.unread_data (_content self)
                           (skipn (Z.to_nat idx) window)) in
          let prev_chunk :=
            if (size >? idx)%Z then firstn (Z.to_nat idx) p else p in
          let chunk := slice window (length prev_chunk) (Z.to_nat idx) in
          let self := if negb (truthy chunk) then set_at_eof self true else self in
          (prev_chunk, chunk, self)
        else (p, chunk, self) in
      (prev_chunk, set_prev_chunk self (Some chunk)) in
    (Bytes.len (carried (snd r)) <= size)%Z /\
    _boundary (snd r) = bnd /\ _length (snd r) = len /\
    _read_bytes (snd r) = rb /\ headers (snd r) = h /\
    fst r ++ carried (snd r) ++ Transport.remaining (_content (snd r))
    = carried {| headers := h; _boundary := bnd; _content := content; _at_eof := false;
                 _length := len; _read_bytes := rb; _unread := unr;
                 _prev_chunk := prev; _content_eof := ce |}
      ++ Transport.remaining content /\
    (_at_eof (snd r) = true ->
     carried (snd r) = [] /\
     exists rest, Transport.remaining (_content (snd r)) = CRLF ++ bnd ++ rest)).
  { intros p tr first Hp Htot pc. cbn zeta. cbn [_content _boundary].
    pose proof (read_conserves tr size Hsize) as [Hc Hclen].
    destruct (Transport.read tr size) as [chunk tr2]. cbn [fst snd] in Hc, Hclen.
    cbn [set_content set_content_eof _content _content_eof _boundary].
    set (idx := if first then _ else _).
    assert (Hidx : (0 <= idx)%Z -> exists i, idx = Z.of_nat i /\ occ (CRLF ++ bnd) (p ++ chunk) i).
    { intros Hi. destruct first; subst idx.
      - eapply find_sound; [| reflexivity | exact Hi]. lia.
      - eapply find_sound; [| reflexivity | exact Hi]. lia. }
    rewrite <- Htot, Hc.
    destruct (idx >=? 0)%Z eqn:Efound.
    - zbool.
      destruct (Hidx Efound) as (i & Hi & Hocc). rewrite Hi.
      rewrite Nat2Z.id.
      assert (Hsub : CRLF ++ bnd <> []) by (unfold CRLF; discriminate).
      destruct (occ_split _ _ _ Hsub Hocc) as [rest Hrest].
      assert (Hprev : (if (size >? Z.of_nat i)%Z then firstn i p else p) = firstn i p).
      { destruct (size >? Z.of_nat i)%Z eqn:Egt; [reflexivity|].
        zbool. symmetry. apply firstn_all2.
        unfold Bytes.len in Hp. lia. }
      rewrite Hprev.
      destruct (window_before p chunk i) as [Hw Hwlen].
      set (c' := slice (p ++ chunk) (length (firstn i p)) i) in *.
      assert (Hfields : forall self0 : t,
                _boundary self0 = bnd -> _length self0 = len -> _read_bytes self0 = rb ->
                headers self0 = h ->
                Transport.remaining (_content self0)
                = skipn i (p ++ chunk) ++ Transport.remaining tr2 ->
                (_at_eof self0 = true -> c' = []) ->
                (Bytes.len (carried (set_prev_chunk self0 (Some c'))) <= size)%Z /\
                _boundary (set_prev_chunk self0 (Some c')) = bnd /\
                _length (set_prev_chunk self0 (Some c')) = len /\
                _read_bytes (set_prev_chunk self0 (Some c')) = rb /\
                headers (set_prev_chunk self0 (Some c')) = h /\
                firstn i p ++ carried (set_prev_chunk self0 (Some c'))
                  ++ Transport.remaining (_content (set_prev_chunk self0 (Some c')))
                = (p ++ chunk) ++ Transport.remaining tr2 /\
                (_at_eof (set_prev_chunk self0 (Some c')) = true ->
                 carried (set_prev_chunk self0 (Some c')) = [] /\
                 exists rest, Transport.remaining (_content (set_prev_chunk self0 (Some c')))
                              = CRLF ++ bnd ++ rest)).
      { intros self0 Hb Hl Hr Hh Hrem Heof. unfold carried.
        cbn [set_prev_chunk _prev_chunk _boundary _length _read_bytes headers _content _at_eof].
        repeat split; auto.
        - unfold Bytes.len in *. lia.
        - rewrite Hrem. rewrite app_assoc, Hw, app_assoc, firstn_skipn. reflexivity.
        - exists (rest ++ Transport.remaining tr2). rewrite Hrem, Hrest.
          now rewrite <- !app_assoc. }
      destruct (truthy c') eqn:Etr; cbn [negb fst snd].
      + replace (p ++ chunk ++ Transport.remaining tr2)
          with ((p ++ chunk) ++ Transport.remaining tr2) by now rewrite <- app_assoc.
        apply Hfields; try reflexivity. discriminate.
      + replace (p ++ chunk ++ Transport.remaining tr2)
          with ((p ++ chunk) ++ Transport.remaining tr2) by now rewrite <- app_assoc.
        apply Hfields; try reflexivity. intros _. destruct c'; [reflexivity | discriminate].
    - cbn [fst snd]. unfold carried.
      cbn [set_prev_chunk _prev_chunk _boundary _length _read_bytes headers _content _at_eof].
      repeat split; auto; discriminate. }
  destruct prev as [p|].
  - exact (Hgo p content false Hcar eq_refl (Some p)).
  - pose proof (read_conserves content size Hsize) as [Hc Hclen].
    cbn [_content].
    destruct (Transport.read content size) as [data content1]. cbn [fst snd] in Hc, Hclen.
    exact (Hgo data content1 true Hclen (eq_sym Hc) (Some data)).
Qed.

(** One [read_chunk] on a part of unknown length. *)
Lemma read_chunk_stream : forall self size,
  _at_eof self = false -> _length self = None ->
  (0 <= size)%Z -> (Bytes.len (carried self) <= size)%Z ->
  let r := read_chunk self size in
  (Bytes.len (carried (snd r)) <= size)%Z /\
  _boundary (snd r) = _boundary self /\ _length (snd r) = None /\
  if _at_eof (snd r) then
    carried (snd r) = [] /\
    exists rest,
      Transport.remaining (_content (snd r)) = _boundary self ++ rest /\
      fst r ++ CRLF ++ _boundary self ++ rest
      = carried self ++ Transport.remaining (_content self)
  else
    fst r ++ carried (snd r) ++ Transport.remaining (_content (snd r))
    = carried self ++ Transport.remaining (_content self).
Proof.
  intros self size Hae Hlen Hsize Hcar r. subst r.
  unfold read_chunk, length_truthy. rewrite Hae, Hlen.
  pose proof (stream_step self size Hae Hsize Hcar) as Hstep. cbn zeta in Hstep.
  destruct (_read_chunk_from_stream self size) as [chunk self1]. cbn [fst snd] in Hstep.
  destruct Hstep as (Hc1 & Hb1 & Hl1 & _ & _ & Htot & Heof).
  rewrite Hlen in Hl1.
  cbn [set_read_bytes _length _at_eof]. rewrite Hl1.
  cbn [_at_eof set_read_bytes].
  destruct (_at_eof self1) eqn:Eeof.
  - destruct (Heof eq_refl) as (Hnil & rest & Hrest).
    cbn [fst snd]. unfold carried in *.
    cbn [set_content set_read_bytes _prev_chunk _boundary _length _at_eof _content].
    rewrite Eeof. repeat split; auto.
    exists rest. split.
    + apply readline_remaining. exact Hrest.
    + rewrite <- Htot, Hnil, Hrest. reflexivity.
  - cbn [fst snd]. unfold carried in *.
    cbn [set_read_bytes _prev_chunk _boundary _length _at_eof _content].
    rewrite Eeof. repeat split; auto.
Qed.

(** X6. Reading a body of unknown length in chunks of one size loses and
    repeats nothing: after any number of [read_chunk] calls, the chunks
    handed out, then the carried chunk, then what the transport holds, is
    the stream as it was; and once end-of-part is set, the chunks are
    followed in the stream by CRLF and the boundary, at which the transport
    is left. *)
Theorem stream_reads_conserve_the_stream :
  forall (n : nat) (self : BodyPartReader.t) (size : Z),
  _at_eof self = false -> _length self = None ->
  (0 <= size)%Z -> (Bytes.len (carried self) <= size)%Z ->
  let r := read_chunks self (repeat size n) in
  concat (fst r) ++ (if _at_eof (snd r) then CRLF else carried (snd r))
    ++ Transport.remaining (_content (snd r))
  = carried self ++ Transport.remaining (_content self) /\
  (_at_eof (snd r) = true ->
   exists rest, Transport.remaining (_content (snd r)) = _boundary self ++ rest).
Proof.
  induction n as [|n IH]; intros self size Hae Hlen Hsize Hcar.
  - cbn [repeat read_chunks fst snd concat app]. rewrite Hae. split; [reflexivity | discriminate].
  - cbn [repeat]. rewrite read_chunks_cons. cbn zeta. cbn [fst snd concat].
    pose proof (read_chunk_stream self size Hae Hlen Hsize Hcar) as Hstep. cbn zeta in Hstep.
    destruct (read_chunk self size) as [chunk self1]. cbn [fst snd] in *.
    destruct Hstep as (Hc1 & Hb1 & Hl1 & Hrest).
    destruct (_at_eof self1) eqn:Eeof.
    + rewrite (read_chunks_at_eof _ self1 Eeof). cbn [fst snd]. rewrite Eeof.
      destruct Hrest as (_ & rest & Hrem & Htot).
      split; [|intros _; now exists rest].
      replace (concat (map (fun _ : Z => []) (repeat size n))) with (@nil byte).
      * rewrite app_nil_r, Hrem. exact Htot.
      * clear. induction n; cbn; auto.
    + specialize (IH self1 size Eeof Hl1 Hsize Hc1). cbn zeta in IH.
      destruct IH as [IHtot IHeof]. rewrite Hb1 in IHeof.
      split; [|exact IHeof]. rewrite <- app_assoc, IHtot. exact Hrest.
Qed.

Lemma stream_reads_conserve_the_stream_witness :
  let r := read_chunks sample_stream_reader (repeat 8192%Z 2) in
  concat (fst r) ++ (if _at_eof (snd r) then CRLF else carried (snd r))
    ++ Transport.remaining (_content (snd r))
  = carried sample_stream_reader ++ Transport.remaining (_content sample_stream_reader) /\
  (_at_eof (snd r) = true ->
   exists rest,
     Transport.remaining (_content (snd r)) = _boundary sample_stream_reader ++ rest).
Proof.
  apply (stream_reads_conserve_the_stream 2 sample_stream_reader 8192%Z).
  - reflexivity.
  - reflexivity.
  - lia.
  - cbn. lia.
Defined.

Lemma read_loop_stream : forall fuel self acc data self',
  _at_eof self = false -> _length self = None ->
  (Bytes.len (carried self) <= chunk_size)%Z ->
  read_loop fuel self acc = Some (data, self') ->
  _at_eof self' = true /\
  exists tail rest,
    data = acc ++ tail /\
    carried self ++ Transport.remaining (_content self)
    = tail ++ CRLF ++ _boundary self ++ rest /\
    Transport.remaining (_content self') = _boundary self ++ rest.
Proof.
  induction fuel as [|fuel IH]; intros self acc data self' Hae Hlen Hcar Hloop.
  - cbn [read_loop] in Hloop. rewrite Hae in Hloop. discriminate.
  - cbn [read_loop] in Hloop. rewrite Hae in Hloop.
    pose proof (read_chunk_stream self chunk_size Hae Hlen ltac:(unfold chunk_size; lia) Hcar)
      as Hstep.
    cbn zeta in Hstep.
    destruct (read_chunk self chunk_size) as [chunk self1]. cbn [fst snd] in *.
    destruct Hstep as (Hc1 & Hb1 & Hl1 & Hrest).
    destruct (_at_eof self1) eqn:Eeof.
    + destruct Hrest as (_ & rest & Hrem & Htot).
      assert (Hdone : read_loop fuel self1 (acc ++ chunk) = Some (acc ++ chunk, self1)).
      { destruct fuel; cbn [read_loop]; now rewrite Eeof. }
      rewrite Hdone in Hloop. injection Hloop as <- <-.
      split; [exact Eeof|]. exists chunk, rest. auto.
    + destruct (IH self1 (acc ++ chunk) data self' Eeof Hl1 Hc1 Hloop)
        as (Hend & tail & rest & Hdata & Htot & Hrem).
      split; [exact Hend|]. exists (chunk ++ tail), rest.
      rewrite Hb1 in *. split; [now rewrite app_assoc|]. split; [|exact Hrem].
      rewrite <- Hrest, Htot. now rewrite <- !app_assoc.
Qed.

(** X7. [read] on a body of unknown length stops only at a delimiter: when
    it returns, end-of-part is set, the data returned is followed in the
    stream by CRLF and the boundary, nothing before them was left out or
    repeated, and the transport is left at the boundary. *)
Theorem read_stops_only_at_a_delimiter :
  forall (fuel : nat) (self self' : BodyPartReader.t) (data : bytes),
  _at_eof self = false -> _length self = None ->
  (Bytes.len (carried self) <= chunk_size)%Z ->
  read fuel self = Some (data, self') ->
  _at_eof self' = true /\
  exists rest,
    carried self ++ Transport.remaining (_content self)
    = data ++ CRLF ++ _boundary self ++ rest /\
    Transport.remaining (_content self') = _boundary self ++ rest.
Proof.
  intros fuel self self' data Hae Hlen Hcar Hread.
  unfold read in Hread. rewrite Hae in Hread.
  destruct (read_loop_stream fuel self [] data self' Hae Hlen Hcar Hread)
    as (Hend & tail & rest & Hdata & Htot & Hrem).
  cbn [app] in Hdata. subst tail. split; [exact Hend|]. now exists rest.
Qed.

Lemma read_stops_only_at_a_delimiter_witness :
  match read 3 sample_stream_reader with
  | Some (data, self') =>
      _at_eof self' = true /\
      exists rest,
        carried sample_stream_reader
          ++ Transport.remaining (_content sample_stream_reader)
        = data ++ CRLF ++ _boundary sample_stream_reader ++ rest /\
        Transport.remaining (_content self') = _boundary sample_stream_reader ++ rest
  | None => False
  end.
Proof.
  destruct (read 3 sample_stream_reader) as [[data self']|] eqn:E.
  - apply (read_stops_only_at_a_delimiter 3 sample_stream_reader self' data).
    + reflexivity.
    + reflexivity.
    + cbn. unfold chunk_size. lia.
    + exact E.
  - vm_compute in E. discriminate.
Defined.

End StreamFacts.

(** ** Changing the chunk size *)

Section ResizeFacts.

Import BodyPartReader.

(** X30. A chunk size smaller than the carried chunk can hand out delimiter
    bytes as body: when the delimiter is found in the window at an index
    inside the carried chunk and the size is not above that index, the
    carried chunk is not cut at the delimiter; [read_chunk] returns it whole,
    the start of the delimiter included, and sets end-of-part. *)
Theorem smaller_chunk_size_hands_out_delimiter_bytes :
  forall (self : BodyPartReader.t) (size : Z) (prev : bytes) (idx : nat),
  _at_eof self = false -> _length self = None -> _prev_chunk self = Some prev ->
  let window := prev ++ fst (Transport.read (_content self) size) in
  let sub := CRLF ++ _boundary self in
  Bytes.find window sub (Z.max 0 (Bytes.len prev - Bytes.len sub)) = Z.of_nat idx ->
  (size <= Z.of_nat idx)%Z -> idx < length prev ->
  let r := read_chunk self size in
  fst r = prev /\ _at_eof (snd r) = true /\
  occ sub window idx /\ skipn idx prev <> [].
Proof.
  intros self size prev idx Hae Hlen Hprev window sub Hfind Hsize Hidx r.
  assert (Hocc : occ sub window idx).
  { destruct (find_sound window sub _ (Z.of_nat idx) (Z.le_max_l 0 _) Hfind
                (Nat2Z.is_nonneg idx)) as (i & Hi & Hocc).
    apply Nat2Z.inj in Hi. now subst i. }
  assert (Htail : skipn idx prev <> []).
  { intros E. apply (f_equal (@length byte)) in E. rewrite length_skipn in E.
    cbn [length] in E. lia. }
  subst r. unfold read_chunk, length_truthy. rewrite Hae, Hlen.
  unfold _read_chunk_from_stream. rewrite Hprev.
  subst window sub.
  destruct (Transport.read (_content self) size) as [chunk content] eqn:Er.
  cbn [fst] in *.
  cbn [set_content set_content_eof _boundary _content _content_eof].
  rewrite Hfind.
  replace (Z.of_nat idx >=? 0)%Z with true by (symmetry; apply Z.geb_le; lia).
  replace (size >? Z.of_nat idx)%Z with false
    by (symmetry; rewrite Z.gtb_ltb; apply Z.ltb_ge; lia).
  rewrite Nat2Z.id.
  assert (Hslice : slice (prev ++ chunk) (length prev) idx = []).
  { unfold slice. replace (idx - length prev) with 0 by lia. reflexivity. }
  rewrite Hslice. cbn [truthy negb].
  cbn [set_prev_chunk set_at_eof set_content set_content_eof set_read_bytes
       _read_bytes _length _at_eof].
  rewrite Hlen.
  cbn [_at_eof fst snd set_content set_content_eof set_read_bytes set_prev_chunk set_at_eof].
  auto.
Qed.

End ResizeFacts.

Lemma smaller_chunk_size_hands_out_delimiter_bytes_witness :
  let self := snd (BodyPartReader.read_chunk sample_resized_reader 10) in
  let r := BodyPartReader.read_chunk self 4 in
  fst r = b "ijkl" ++ CRLF ++ b "-" /\ BodyPartReader._at_eof (snd r) = true /\
  occ (CRLF ++ BodyPartReader._boundary self)
    ((b "ijkl" ++ CRLF ++ b "-")
     ++ fst (Transport.read (BodyPartReader._content self) 4)) 4 /\
  skipn 4 (b "ijkl" ++ CRLF ++ b "-") <> [].
Proof.
  apply (smaller_chunk_size_hands_out_delimiter_bytes
           (snd (BodyPartReader.read_chunk sample_resized_reader 10)) 4
           (b "ijkl" ++ CRLF ++ b "-") 4).
  - reflexivity.
  - reflexivity.
  - reflexivity.
  - reflexivity.
  - lia.
  - cbn. lia.
Defined.

Example same_chunk_size_stops_at_the_delimiter :
  fst (BodyPartReader.read_chunks sample_resized_reader [10; 10]%Z)
  = [b "abcdefgh"; b "ijkl"].
Proof. reflexivity. Qed.

(** ** Facts about the string methods *)

Section StrFacts.

Lemma lower_char_idem : forall c, Str.lower_char (Str.lower_char c) = Str.lower_char c.
Proof.
  intros c. destruct c as [[] [] [] [] [] [] [] []]; vm_compute; reflexivity.
Qed.

Lemma lower_idem : forall x, Str.lower (Str.lower x) = Str.lower x.
Proof.
  intros x. unfold Str.lower. rewrite map_map. apply map_ext. apply lower_char_idem.
Qed.

Lemma lower_fixed : forall x,
  Str.lower x = x <-> Forall (fun c => Str.lower_char c = c) x.
Proof.
  induction x as [|c x IH]; cbn [Str.lower map].
  - split; auto.
  - split.
    + intros [= Hc Hx]. constructor; [exact Hc | now apply IH].
    + intros Hall. inversion Hall as [|? ? Hc Hx]; subst.
      apply IH in Hx. unfold Str.lower in Hx. now rewrite Hc, Hx.
Qed.

Lemma lstrip_by_forall : forall (P : ascii -> Prop) p x,
  Forall P x -> Forall P (Str.lstrip_by p x).
Proof.
  induction x as [|c x IH]; intros Hall; cbn [Str.lstrip_by]; [constructor|].
  destruct (p c); [|exact Hall]. inversion Hall; subst. auto.
Qed.

Lemma rstrip_by_forall : forall (P : ascii -> Prop) p x,
  Forall P x -> Forall P (Str.rstrip_by p x).
Proof.
  intros P p x Hall. unfold Str.rstrip_by.
  apply Forall_rev, lstrip_by_forall, Forall_rev, Hall.
Qed.

Lemma strip_lower_fixed : forall x,
  Str.lower (Str.strip (Str.lower x)) = Str.strip (Str.lower x).
Proof.
  intros x. apply lower_fixed. unfold Str.strip.
  apply rstrip_by_forall, lstrip_by_forall.
  apply lower_fixed, lower_idem.
Qed.

Lemma ascii_eqb_sym : forall a c, Ascii.eqb a c = Ascii.eqb c a.
Proof.
  intros a c. destruct (Ascii.eqb c a) eqn:E.
  - apply Ascii.eqb_eq in E. subst. apply Ascii.eqb_refl.
  - apply Ascii.eqb_neq in E. apply Ascii.eqb_neq. congruence.
Qed.

Lemma count_cons : forall sep c x,
  Str.count sep (c :: x) = (if Ascii.eqb c sep then 1 else 0) + Str.count sep x.
Proof.
  intros sep c x. unfold Str.count. cbn [filter]. rewrite (ascii_eqb_sym sep c).
  destruct (Ascii.eqb c sep); reflexivity.
Qed.

Lemma count_app : forall sep x y, Str.count sep (x ++ y) = Str.count sep x + Str.count sep y.
Proof.
  intros sep x y. unfold Str.count. now rewrite filter_app, length_app.
Qed.

Lemma member_count : forall sep x, Str.member sep x = false <-> Str.count sep x = 0.
Proof.
  induction x as [|c x IH].
  - cbn. split; auto.
  - rewrite count_cons. unfold Str.member in *. cbn [existsb].
    rewrite (ascii_eqb_sym sep c). destruct (Ascii.eqb c sep); cbn [orb].
    + split; [discriminate | lia].
    + exact IH.
Qed.

Lemma splitn_zero : forall sep x, Str.splitn sep 0 x = [x].
Proof. intros sep x. destruct x; reflexivity. Qed.

(** A string without the separator is not split. *)
Lemma splitn_absent : forall sep n x,
  Str.count sep x = 0 -> Str.splitn sep n x = [x].
Proof.
  induction x as [|c x IH]; intros Hc; destruct n as [|m]; try reflexivity.
  rewrite count_cons in Hc. cbn [Str.splitn].
  destruct (Ascii.eqb c sep); [lia|]. rewrite IH by lia. reflexivity.
Qed.

(** The first split is at the first separator. *)
Lemma splitn_present : forall sep m x,
  Str.count sep x <> 0 ->
  exists a r,
    x = a ++ sep :: r /\ Str.count sep a = 0 /\
    Str.splitn sep (S m) x = a :: Str.splitn sep m r.
Proof.
  induction x as [|c x IH]; intros Hc; [now elim Hc|].
  rewrite count_cons in Hc. cbn [Str.splitn].
  destruct (Ascii.eqb c sep) eqn:E.
  - apply Ascii.eqb_eq in E. subst c. exists [], x. auto.
  - destruct (IH ltac:(lia)) as (a & r & -> & Ha & Hs).
    exists (c :: a), r. rewrite Hs. repeat split.
    rewrite count_cons, E. cbn. exact Ha.
Qed.

Lemma split_nonempty : forall sep x, Str.split sep x <> [].
Proof.
  intros sep x. unfold Str.split.
  destruct (Nat.eq_dec (Str.count sep x) 0) as [H0 | Hn].
  - now rewrite splitn_absent.
  - destruct (splitn_present sep (length x) x Hn) as (a & r & _ & _ & ->). discriminate.
Qed.

End StrFacts.

(** ** What the Content-Disposition parser returns *)

Section ParseFacts.

Variable G : grammar.
Variable unquote : str -> str -> result str.

(** A property of the parameters that every accepted parameter keeps is
    kept by the whole loop. *)
Lemma parse_params_invariant : forall (P : dict -> Prop),
  (forall params item key value0 v,
     split_item item = Some (key, value0) -> dict_contains params key = false ->
     is_token G key = true -> P params -> P (dict_set params key v)) ->
  forall n parts params res,
    length parts <= n -> P params ->
    parse_params G unquote parts params = Ok (Some res) -> P res.
Proof.
  intros P Hset. induction n as [|n IH]; intros parts params res Hlen Hinv Hparse.
  - destruct parts; [|cbn in Hlen; lia]. cbn in Hparse. now injection Hparse as <-.
  - destruct parts as [|item parts]; [cbn in Hparse; now injection Hparse as <-|].
    cbn [length] in Hlen. cbn [parse_params] in Hparse.
    destruct (split_item item) as [[key value]|] eqn:Es; [|discriminate].
    destruct (dict_contains params key) eqn:Ed; [discriminate|].
    destruct (is_token G key) eqn:Ek; cbn [negb] in Hparse;
      [|apply (IH parts params); auto; lia].
    assert (Hadd : forall v, P (dict_set params key v)) by (intros v; eapply Hset; eauto).
    destruct (is_continuous_param key).
    { destruct (is_quoted value) as [[|]|]; cbn [bind] in Hparse; try discriminate.
      - apply (IH parts _ res) in Hparse; auto; lia.
      - destruct (negb (is_token G value)); [apply (IH parts params); auto; lia|].
        apply (IH parts _ res) in Hparse; auto; lia. }
    destruct (is_extended_param key).
    { destruct (is_rfc5987 G value); [|apply (IH parts params); auto; lia].
      destruct (Str.splitn APOSTROPHE 2 value) as [|e [|l [|v [|]]]]; try discriminate.
      destruct (unquote v (utf8_default e)) as [v'|[]]; try discriminate.
      - apply (IH parts _ res) in Hparse; auto; lia.
      - apply (IH parts params); auto; lia. }
    destruct (is_quoted value) as [[|]|]; cbn [bind] in Hparse; try discriminate.
    destruct (is_token G value).
    { apply (IH parts _ res) in Hparse; auto; lia. }
    destruct parts as [|next parts]; [discriminate|].
    destruct (is_quoted (value ++ s ";" ++ next)) as [[|]|]; cbn [bind] in Hparse;
      try discriminate.
    apply (IH parts _ res) in Hparse; auto. cbn [length] in Hlen. lia.
Qed.

Lemma dict_get_absent : forall (params : dict) k,
  dict_contains params k = false -> ~ In k (map fst params).
Proof.
  induction params as [|[k' v'] params IH]; intros k Hc; [intros []|].
  unfold dict_contains, dict_get in *. cbn [find fst] in Hc.
  destruct (Str.eqb k' k) eqn:E; [discriminate|].
  intros [Heq | Hin].
  - cbn in Heq. subst k'. assert (Str.eqb k k = true) by now apply str_eqb_eq. congruence.
  - now apply (IH k).
Qed.

Lemma dict_set_keys : forall (params : dict) k v,
  ~ In k (map fst params) -> map fst (dict_set params k v) = map fst params ++ [k].
Proof.
  induction params as [|[k' v'] params IH]; intros k v Hnot; cbn [dict_set map fst app].
  - reflexivity.
  - destruct (Str.eqb k' k) eqn:E.
    + apply str_eqb_eq in E. subst k'. elim Hnot. now left.
    + cbn [map fst]. rewrite IH; [reflexivity|]. intros Hin. apply Hnot. now right.
Qed.

Lemma split_item_key_lowered : forall item key value,
  split_item item = Some (key, value) -> Str.lower key = key.
Proof.
  intros item key value Hs. unfold split_item in Hs.
  destruct (Str.splitn "=" 1 item) as [|k [|v [|]]]; try discriminate.
  injection Hs as <- _. apply strip_lower_fixed.
Qed.

Lemma well_keyed_set : forall params item key value0 v,
  split_item item = Some (key, value0) -> dict_contains params key = false ->
  is_token G key = true -> well_keyed G params -> well_keyed G (dict_set params key v).
Proof.
  intros params item key value0 v Hs Hd Hk [Hnd Hall].
  apply dict_get_absent in Hd. split.
  - rewrite dict_set_keys by exact Hd.
    apply NoDup_rev in Hnd. rewrite <- (rev_involutive (map fst params ++ [key])).
    apply NoDup_rev. rewrite rev_app_distr. cbn [rev app]. constructor; [|exact Hnd].
    rewrite <- in_rev. exact Hd.
  - intros k0 v0 Hin. destruct (in_dict_set _ _ _ _ Hin) as [[= -> ->] | Hold].
    + split; [exact Hk | exact (split_item_key_lowered _ _ _ Hs)].
    + now apply (Hall k0 v0).
Qed.

(** X8. The parameter names [parse_content_disposition] returns are
    pairwise different, each is a non-empty run of token characters, and
    none has an upper-case letter; the disposition type is returned in
    lower case. *)
Theorem parsed_parameter_names_are_distinct_lowercase_tokens :
  forall (header : str) (disptype : option str) (params : dict),
  parse_content_disposition G unquote header = Ok (disptype, params) ->
  well_keyed G params /\
  forall d, disptype = Some d -> Str.lower d = d.
Proof.
  intros header disptype params Hp. unfold parse_content_disposition in Hp.
  assert (Hnil : well_keyed G []) by (split; [constructor | intros k v []]).
  destruct (negb (truthy header)); [injection Hp as <- <-; split; [exact Hnil | discriminate]|].
  destruct (Str.split ";" header) as [|d parts]; [discriminate|].
  destruct (negb (is_token G d)); [injection Hp as <- <-; split; [exact Hnil | discriminate]|].
  destruct (parse_params G unquote parts []) as [[res|]|] eqn:E; cbn [bind] in Hp;
    try discriminate.
  - injection Hp as <- <-. split.
    + exact (parse_params_invariant (well_keyed G) well_keyed_set (length parts) parts []
               res (le_n _) Hnil E).
    + intros d' [= <-]. apply lower_idem.
  - injection Hp as <- <-. split; [exact Hnil | discriminate].
Qed.

(** Where the loop raises: at a parameter with an empty value, or where
    [unquote] does. *)
Lemma parse_params_raises : forall n parts params e,
  length parts <= n ->
  parse_params G unquote parts params = Raise e ->
  (e = IndexError /\ exists item key, In item parts /\ split_item item = Some (key, [])) \/
  (e <> UnicodeDecodeError /\ exists v enc, unquote v enc = Raise e).
Proof.
  induction n as [|n IH]; intros parts params e Hlen Hparse.
  - destruct parts; [|cbn in Hlen; lia]. discriminate.
  - destruct parts as [|item parts]; [discriminate|].
    cbn [length] in Hlen. cbn [parse_params] in Hparse.
    assert (Hnext : forall params',
              parse_params G unquote parts params' = Raise e ->
              (e = IndexError /\
               exists item0 key, In item0 (item :: parts) /\ split_item item0 = Some (key, []))
              \/ (e <> UnicodeDecodeError /\ exists v enc, unquote v enc = Raise e)).
    { intros params' Hp. destruct (IH parts params' e ltac:(lia) Hp)
        as [(He & item0 & key & Hin & Hs) | Hu]; [left | now right].
      split; [exact He|]. exists item0, key. split; [now right | exact Hs]. }
    destruct (split_item item) as [[key value]|] eqn:Es; [|discriminate].
    assert (Hempty : forall (A : Type) (k : bool -> result A),
              bind (is_quoted value) k = Raise e -> (forall q, k q <> Raise e) ->
              e = IndexError /\
              exists item0 key, In item0 (item :: parts) /\ split_item item0 = Some (key, [])).
    { intros A k Hb Hk. destruct value as [|c value].
      - cbn in Hb. injection Hb as <-. split; [reflexivity|].
        exists item, key. split; [now left | exact Es].
      - cbn [is_quoted bind] in Hb. now apply Hk in Hb. }
    destruct (dict_contains params key); [discriminate|].
    destruct (negb (is_token G key)); [now apply Hnext in Hparse|].
    destruct (is_continuous_param key).
    { destruct (is_quoted value) as [[|]|e0] eqn:Eq; cbn [bind] in Hparse.
      - now apply Hnext in Hparse.
      - destruct (negb (is_token G value)); now apply Hnext in Hparse.
      - left. destruct value; [|discriminate]. cbn in Eq. injection Eq as <-.
        injection Hparse as <-. split; [reflexivity|].
        exists item, key. split; [now left | exact Es]. }
    destruct (is_extended_param key).
    { destruct (is_rfc5987 G value) eqn:Er; [|now apply Hnext in Hparse].
      unfold is_rfc5987 in Er. apply andb_true_iff in Er. destruct Er as [_ Er].
      apply Nat.eqb_eq in Er.
      destruct (splitn_present APOSTROPHE 1 value ltac:(lia)) as (a & r & Hv & Ha & Hs1).
      assert (Hr : Str.count APOSTROPHE r = 1).
      { rewrite Hv, count_app, count_cons, Ascii.eqb_refl in Er. lia. }
      destruct (splitn_present APOSTROPHE 0 r ltac:(lia)) as (a2 & r2 & Hv2 & Ha2 & Hs2).
      rewrite Hs1, Hs2, splitn_zero in Hparse.
      destruct (unquote r2 (utf8_default a)) as [v'|e0] eqn:Eu.
      - now apply Hnext in Hparse.
      - destruct e0; try (injection Hparse as <-; right; split; [discriminate|];
                          now exists r2, (utf8_default a)).
        now apply Hnext in Hparse. }
    destruct (is_quoted value) as [[|]|e0] eqn:Eq; cbn [bind] in Hparse.
    + discriminate.
    + destruct (is_token G value); [now apply Hnext in Hparse|].
      destruct parts as [|next parts]; [discriminate|].
      assert (Hq : exists q, is_quoted (value ++ s ";" ++ next) = Ok q).
      { destruct value; cbn; eexists; reflexivity. }
      destruct Hq as [q Hq]. rewrite Hq in Hparse. cbn [bind] in Hparse.
      destruct q; [|discriminate].
      destruct (IH parts _ e ltac:(cbn [length] in Hlen; lia) Hparse)
        as [(He & item0 & key0 & Hin & Hs) | Hu]; [left | now right].
      split; [exact He|]. exists item0, key0. split; [right; now right | exact Hs].
    + left. destruct value; [|discriminate]. cbn in Eq. injection Eq as <-.
      injection Hparse as <-. split; [reflexivity|].
      exists item, key. split; [now left | exact Es].
Qed.

(** X9. [parse_content_disposition] raises in two cases only: [IndexError]
    when a parameter has nothing after its [=], and whatever [unquote]
    raises other than [UnicodeDecodeError], an unknown charset for one. *)
Theorem parse_raises_only_for_an_empty_value_or_in_unquote :
  forall (header : str) (e : exn),
  parse_content_disposition G unquote header = Raise e ->
  (e = IndexError /\
   exists item key,
     In item (tl (Str.split ";" header)) /\ split_item item = Some (key, [])) \/
  (e <> UnicodeDecodeError /\ exists v enc, unquote v enc = Raise e).
Proof.
  intros header e Hp. unfold parse_content_disposition in Hp.
  destruct (negb (truthy header)); [discriminate|].
  pose proof (split_nonempty ";" header) as Hne.
  destruct (Str.split ";" header) as [|d parts]; [now elim Hne|].
  destruct (negb (is_token G d)); [discriminate|].
  destruct (parse_params G unquote parts []) as [[res|]|e0] eqn:E; cbn [bind] in Hp;
    try discriminate.
  injection Hp as <-. cbn [tl].
  exact (parse_params_raises (length parts) parts [] e0 (le_n _) E).
Qed.

(** X10. A first parameter with a plain name and a double-quoted value, as
    in [form-data; name="field"], makes [parse_content_disposition] return
    no disposition type and no parameters: on that path nothing marks the
    value as accepted. *)
Theorem quoted_plain_parameter_rejects_the_header :
  forall (header disptype item : str) (rest : list str) (key value : str),
  Str.split ";" header = disptype :: item :: rest ->
  is_token G disptype = true ->
  split_item item = Some (key, value) ->
  is_token G key = true ->
  Str.member "*" key = false ->
  is_quoted value = Ok true ->
  parse_content_disposition G unquote header = Ok (None, []).
Proof.
  intros header disptype item rest key value Hsplit Hd Hs Hk Hstar Hq.
  unfold parse_content_disposition. rewrite Hsplit, Hd.
  destruct header as [|c header]; [discriminate|]. cbn [truthy negb].
  cbn [parse_params]. rewrite Hs. cbn [dict_contains dict_get find option_map].
  rewrite Hk. cbn [negb].
  assert (Hc : is_continuous_param key = false).
  { destruct (is_continuous_param key) eqn:E; [|reflexivity].
    rewrite continuous_has_star in Hstar by exact E. discriminate. }
  assert (He : is_extended_param key = false).
  { destruct (is_extended_param key) eqn:E; [|reflexivity].
    rewrite extended_has_star in Hstar by exact E. discriminate. }
  rewrite Hc, He, Hq. reflexivity.
Qed.

End ParseFacts.

Lemma parsed_parameter_names_are_distinct_lowercase_tokens_witness :
  well_keyed http_grammar [(s "filename", s "a.txt"); (s "x-size", s "10")] /\
  forall d, Some (s "attachment") = Some d -> Str.lower d = d.
Proof.
  exact (parsed_parameter_names_are_distinct_lowercase_tokens http_grammar unquote_plain
           (s "ATTACHMENT; FileName=a.txt; x-size=10") (Some (s "attachment"))
           [(s "filename", s "a.txt"); (s "x-size", s "10")] eq_refl).
Defined.

Lemma parse_raises_only_for_an_empty_value_or_in_unquote_witness :
  (IndexError = IndexError /\
   exists item key,
     In item (tl (Str.split ";" (s "attachment; filename="))) /\
     split_item item = Some (key, [])) \/
  (IndexError <> UnicodeDecodeError /\ exists v enc, unquote_plain v enc = Raise IndexError).
Proof.
  exact (parse_raises_only_for_an_empty_value_or_in_unquote http_grammar unquote_plain
           (s "attachment; filename=") IndexError eq_refl).
Defined.

Lemma quoted_plain_parameter_rejects_the_header_witness :
  parse_content_disposition http_grammar unquote_plain
    (s "form-data; name=" ++ quoted (s "field")) = Ok (None, []).
Proof.
  apply (quoted_plain_parameter_rejects_the_header http_grammar unquote_plain
           (s "form-data; name=" ++ quoted (s "field")) (s "form-data")
           (s " name=" ++ quoted (s "field")) [] (s "name") (quoted (s "field")));
    reflexivity.
Defined.

(** ** Names and file names of a part *)

Section FilenameFacts.

Variable G : grammar.
Variable unquote : str -> str -> result str.

(** X11. No plain parameter that [parse_content_disposition] returns has a
    value that starts with a slash: a token has none, and a quoted value
    loses its leading slashes and backslashes. *)
Theorem parsed_plain_values_never_start_with_a_slash :
  forall (header : str) (disptype : option str) (params : dict) (k v : str),
  TOKEN G "/" = false ->
  parse_content_disposition G unquote header = Ok (disptype, params) ->
  In (k, v) params -> Str.member "*" k = false ->
  Str.startswith v (s "/") = false.
Proof.
  intros header disptype params k v Hslash Hp Hin Hk.
  pose proof (parse_no_leading_slash G unquote Hslash header disptype params Hp) as Hno.
  destruct v as [|c v]; [reflexivity|].
  cbn [Str.startswith s list_ascii_of_string].
  destruct (Ascii.eqb c "/") eqn:E; [|reflexivity].
  apply Ascii.eqb_eq in E. subst c. elim (Hno k ("/"%char :: v) v Hin Hk). reflexivity.
Qed.

Lemma filename_without_exact_key : forall params name,
  params <> [] ->
  dict_get params (name ++ s "*") = None -> dict_get params name = None ->
  content_disposition_filename unquote params name =
  (parts <- continuation_parts params ;;
   if negb (truthy parts) then Ok None
   else
     let value := concat parts in
     if Str.member APOSTROPHE value then
       match Str.splitn APOSTROPHE 2 value with
       | [encoding; _; value] => v <- unquote value (utf8_default encoding) ;; Ok (Some v)
       | _ => Raise ValueError
       end
     else Ok (Some value)).
Proof.
  intros params name Hne Hs Hn. unfold content_disposition_filename, continuation_parts.
  destruct params; [now elim Hne|]. cbn [truthy negb]. now rewrite Hs, Hn.
Qed.

(** X12. The [name] argument matters for the exact keys only: with neither
    [name] nor [name*] among the parameters, [content_disposition_filename]
    assembles the [filename*N] segments whatever name it was asked for, so
    the [name] of a part is then its file name. *)
Theorem name_of_a_part_falls_back_to_its_filename_segments :
  forall (self : BodyPartReader.t) (disptype : option str) (params : dict),
  BodyPartReaderHeaders.disposition G unquote self = Ok (disptype, params) ->
  dict_get params (s "name*") = None -> dict_get params (s "name") = None ->
  dict_get params (s "filename*") = None -> dict_get params (s "filename") = None ->
  BodyPartReaderHeaders.name G unquote self = BodyPartReaderHeaders.filename G unquote self.
Proof.
  intros self disptype params Hd Hns Hn Hfs Hf.
  unfold BodyPartReaderHeaders.name, BodyPartReaderHeaders.filename.
  rewrite Hd. cbn [bind snd].
  destruct params as [|kv params]; [reflexivity|].
  rewrite (filename_without_exact_key _ (s "name")); [|discriminate | exact Hns | exact Hn].
  rewrite (filename_without_exact_key _ (s "filename")); [|discriminate | exact Hfs | exact Hf].
  reflexivity.
Qed.

(** The pieces of [value.split("'", 2)], by the number of apostrophes. *)
Lemma split_apostrophes : forall value,
  match Str.count APOSTROPHE value with
  | 0 => Str.splitn APOSTROPHE 2 value = [value]
  | 1 => exists a r, Str.splitn APOSTROPHE 2 value = [a; r]
  | _ => exists encoding lang rest,
           value = encoding ++ APOSTROPHE :: lang ++ APOSTROPHE :: rest /\
           Str.count APOSTROPHE encoding = 0 /\ Str.count APOSTROPHE lang = 0 /\
           Str.splitn APOSTROPHE 2 value = [encoding; lang; rest]
  end.
Proof.
  intros value. destruct (Str.count APOSTROPHE value) as [|[|n]] eqn:Ec.
  - now apply splitn_absent.
  - destruct (splitn_present APOSTROPHE 1 value ltac:(lia)) as (a & r & Hv & Ha & Hs).
    exists a, r. rewrite Hs. rewrite splitn_absent; [reflexivity|].
    rewrite Hv, count_app, count_cons, Ascii.eqb_refl in Ec. lia.
  - destruct (splitn_present APOSTROPHE 1 value ltac:(lia)) as (a & r & Hv & Ha & Hs).
    assert (Hr : Str.count APOSTROPHE r <> 0).
    { rewrite Hv, count_app, count_cons, Ascii.eqb_refl in Ec. lia. }
    destruct (splitn_present APOSTROPHE 0 r Hr) as (a2 & r2 & Hv2 & Ha2 & Hs2).
    exists a, a2, r2. rewrite Hs, Hs2, splitn_zero. subst r. auto.
Qed.

(** X13. How assembled continuation segments are decoded: without an
    apostrophe the joined value is returned as it is; with exactly one the
    call raises [ValueError]; with two or more the text before the first is
    the charset (utf-8 when empty), the text up to the second is dropped,
    and the rest is percent-decoded. *)
Theorem assembled_filename_is_decoded_by_its_apostrophes :
  forall (params : dict) (name : str) (parts : list str),
  params <> [] ->
  dict_get params (name ++ s "*") = None -> dict_get params name = None ->
  continuation_parts params = Ok parts -> parts <> [] ->
  let value := concat parts in
  match Str.count APOSTROPHE value with
  | 0 => content_disposition_filename unquote params name = Ok (Some value)
  | 1 => content_disposition_filename unquote params name = Raise ValueError
  | _ => exists encoding lang rest,
           value = encoding ++ APOSTROPHE :: lang ++ APOSTROPHE :: rest /\
           Str.count APOSTROPHE encoding = 0 /\ Str.count APOSTROPHE lang = 0 /\
           content_disposition_filename unquote params name =
           (v <- unquote rest (utf8_default encoding) ;; Ok (Some v))
  end.
Proof.
  intros params name parts Hne Hs Hn Hparts Hnil value.
  rewrite (filename_without_exact_key params name Hne Hs Hn), Hparts. cbn [bind].
  destruct parts as [|p parts]; [now elim Hnil|]. cbn [truthy negb]. cbn zeta.
  fold value. pose proof (split_apostrophes value) as Hsplit.
  destruct (Str.count APOSTROPHE value) as [|[|n]] eqn:Ec.
  - apply member_count in Ec. now rewrite Ec.
  - assert (Hm : Str.member APOSTROPHE value = true).
    { destruct (Str.member APOSTROPHE value) eqn:Em; [reflexivity|].
      apply member_count in Em. lia. }
    rewrite Hm. destruct Hsplit as (a & r & ->). reflexivity.
  - assert (Hm : Str.member APOSTROPHE value = true).
    { destruct (Str.member APOSTROPHE value) eqn:Em; [reflexivity|].
      apply member_count in Em. lia. }
    rewrite Hm. destruct Hsplit as (encoding & lang & rest & Hv & He & Hl & ->).
    exists encoding, lang, rest. auto.
Qed.

End FilenameFacts.

Lemma parsed_plain_values_never_start_with_a_slash_witness :
  Str.startswith (s "a;b") (s "/") = false.
Proof.
  apply (parsed_plain_values_never_start_with_a_slash http_grammar unquote_plain
           (s "attachment; filename=" ++ [QUOTE] ++ s "/a;b" ++ [QUOTE])
           (Some (s "attachment")) [(s "filename", s "a;b")] (s "filename") (s "a;b")).
  - reflexivity.
  - reflexivity.
  - now left.
  - reflexivity.
Defined.

Lemma name_of_a_part_falls_back_to_its_filename_segments_witness :
  BodyPartReaderHeaders.name http_grammar unquote_plain
    (reader_with_disposition (s "attachment; filename*0=a; filename*1=b"))
  = BodyPartReaderHeaders.filename http_grammar unquote_plain
      (reader_with_disposition (s "attachment; filename*0=a; filename*1=b")).
Proof.
  apply (name_of_a_part_falls_back_to_its_filename_segments http_grammar unquote_plain
           (reader_with_disposition (s "attachment; filename*0=a; filename*1=b"))
           (Some (s "attachment")) [(s "filename*0", s "a"); (s "filename*1", s "b")]);
    reflexivity.
Defined.

Example name_is_the_assembled_filename :
  BodyPartReaderHeaders.name http_grammar unquote_plain
    (reader_with_disposition (s "attachment; filename*0=a; filename*1=b"))
  = Ok (Some (s "ab")).
Proof. reflexivity. Qed.

Lemma assembled_filename_is_decoded_by_its_apostrophes_witness :
  content_disposition_filename unquote_plain [(s "filename*0", s "it's.txt")] (s "filename")
  = Raise ValueError.
Proof.
  exact (assembled_filename_is_decoded_by_its_apostrophes unquote_plain
           [(s "filename*0", s "it's.txt")] (s "filename") [s "it's.txt"]
           ltac:(discriminate) eq_refl eq_refl eq_refl ltac:(discriminate)).
Defined.

Example filename_with_one_apostrophe_raises :
  BodyPartReaderHeaders.filename http_grammar unquote_plain
    (reader_with_disposition (s "attachment; filename*0=it's.txt"))
  = Raise ValueError.
Proof. reflexivity. Qed.

(** ** Constructing a writer *)

Section ConstructionFacts.

Import MultipartWriter.

Variable H : helpers.

Lemma tchar_is_qdtext : forall x, valid_tchar x = true -> invalid_qdtext_char x = false.
Proof.
  intros x. destruct x; vm_compute; intros E; first [reflexivity | discriminate E].
Qed.

Lemma token_has_no_control : forall value,
  forallb valid_tchar value = true -> existsb invalid_qdtext_char value = false.
Proof.
  induction value as [|x value IH]; cbn [forallb existsb]; [reflexivity|].
  rewrite andb_true_iff. intros [Hx Hv]. now rewrite (tchar_is_qdtext x Hx), IH.
Qed.

(** X14. Which boundaries a writer accepts: [MultipartWriter(subtype,
    boundary)] raises [ValueError] when the boundary has a character outside
    ASCII or a control character other than TAB, and succeeds otherwise;
    the writer then has no part and size zero, its [boundary] property is
    the boundary it was given, and its Content-Type header carries the
    rendered content type. *)
Theorem writer_accepts_ascii_boundaries_without_controls :
  forall (subtype boundary_ : str),
  let accepted :=
    forallb Str.is_ascii boundary_
    && negb (existsb invalid_qdtext_char (map byte_of_ascii boundary_)) in
  match __init__ H subtype (Some boundary_) with
  | Ok w =>
      accepted = true /\
      MultipartWriterProperties.boundary w = Ok boundary_ /\ parts w = [] /\ size w = Ok (Some 0%Z) /\
      exists rendered,
        boundary_value w = Ok rendered /\
        imultidict.get (headers w) CONTENT_TYPE
        = Some (s "multipart/" ++ subtype ++ s "; boundary=" ++ rendered)
  | Raise e => accepted = false /\ e = ValueError
  end.
Proof.
  intros subtype bd accepted. subst accepted.
  unfold __init__, Str.encode_ascii.
  destruct (forallb Str.is_ascii bd) eqn:Ea; cbn [bind andb]; [|auto].
  unfold boundary_value_of, _valid_tchar_regex_match, _invalid_qdtext_char_regex_search.
  set (value := map byte_of_ascii bd).
  assert (Hdone : forall rendered,
            boundary_value_of value = Ok rendered ->
            existsb invalid_qdtext_char value = false ->
            let w := {| _boundary := value;
                        _content_type :=
                          Some (s "multipart/" ++ subtype ++ s "; boundary=" ++ rendered);
                        headers := imultidict.setitem imultidict.empty CONTENT_TYPE
                                     (s "multipart/" ++ subtype ++ s "; boundary=" ++ rendered);
                        parts := [] |} in
            negb (existsb invalid_qdtext_char value) = true /\
            MultipartWriterProperties.boundary w = Ok bd /\ parts w = [] /\ size w = Ok (Some 0%Z) /\
            exists rendered0,
              boundary_value w = Ok rendered0 /\
              imultidict.get (headers w) CONTENT_TYPE
              = Some (s "multipart/" ++ subtype ++ s "; boundary=" ++ rendered0)).
  { intros rendered Hr Hc. cbn zeta. rewrite Hc. split; [reflexivity|].
    split; [unfold MultipartWriterProperties.boundary; cbn [_boundary];
            now apply decode_encode_ascii|].
    split; [reflexivity|]. split; [reflexivity|].
    exists rendered. split; [exact Hr|].
    cbn [headers]. apply get_setitem_new. reflexivity. }
  destruct (truthy value && forallb valid_tchar value) eqn:Et.
  - apply andb_true_iff in Et. destruct Et as [Hne Htok].
    assert (Hr : boundary_value_of value = Ok bd).
    { unfold boundary_value_of, _valid_tchar_regex_match. rewrite Hne, Htok. cbn [andb].
      now apply decode_encode_ascii. }
    unfold value at 1. rewrite (decode_encode_ascii bd Ea). cbn [bind].
    exact (Hdone bd Hr (token_has_no_control value Htok)).
  - destruct (existsb invalid_qdtext_char value) eqn:Ec; [cbn; auto|].
    assert (Hr : boundary_value_of value = Ok (quoted bd)).
    { unfold boundary_value_of, _valid_tchar_regex_match, _invalid_qdtext_char_regex_search.
      rewrite Et, Ec. fold (escape_bytes value).
      rewrite decode_ascii_ok by (apply escape_bytes_ascii; now apply encode_is_ascii).
      unfold value. rewrite escape_bytes_decoded. reflexivity. }
    fold (escape_bytes value).
    rewrite decode_ascii_ok by (apply escape_bytes_ascii; now apply encode_is_ascii).
    cbn [bind].
    pose proof (Hdone (quoted bd) Hr eq_refl) as Hd. cbn zeta in Hd.
    subst value. rewrite escape_bytes_decoded. exact Hd.
Qed.

Lemma escape_bytes_inj : forall v1 v2, escape_bytes v1 = escape_bytes v2 -> v1 = v2.
Proof.
  induction v1 as [|x v1 IH]; intros [|y v2] E.
  - reflexivity.
  - rewrite escape_bytes_cons in E. cbn [escape_bytes Bytes.replace1 flat_map] in E.
    destruct (Byte.eqb y BACKSLASH || Byte.eqb y DQUOTE); discriminate.
  - rewrite escape_bytes_cons in E. cbn [escape_bytes Bytes.replace1 flat_map] in E.
    destruct (Byte.eqb x BACKSLASH || Byte.eqb x DQUOTE); discriminate.
  - rewrite !escape_bytes_cons in E.
    destruct (Byte.eqb x BACKSLASH || Byte.eqb x DQUOTE) eqn:Ex;
      destruct (Byte.eqb y BACKSLASH || Byte.eqb y DQUOTE) eqn:Ey;
      cbn [app] in E.
    + injection E as -> E. f_equal. now apply IH.
    + injection E as <- E. cbn in Ey. discriminate.
    + injection E as -> E. cbn in Ex. discriminate.
    + injection E as -> E. f_equal. now apply IH.
Qed.

Lemma map_ascii_of_byte_inj : forall v1 v2 : bytes,
  map ascii_of_byte v1 = map ascii_of_byte v2 -> v1 = v2.
Proof.
  induction v1 as [|x v1 IH]; intros [|y v2] E; try discriminate; [reflexivity|].
  cbn [map] in E. injection E as Ex E. f_equal; [|now apply IH].
  rewrite <- (byte_of_ascii_of_byte x), <- (byte_of_ascii_of_byte y). now rewrite Ex.
Qed.

Lemma decode_ascii_some : forall x r, Str.decode_ascii x = Ok r -> r = map ascii_of_byte x.
Proof.
  intros x r E. unfold Str.decode_ascii in E.
  destruct (forallb _ x); [now injection E | discriminate].
Qed.

(** How a boundary is rendered: as itself when it is a token, between
    double quotes otherwise. *)
Lemma boundary_value_of_cases : forall value r,
  boundary_value_of value = Ok r ->
  (_valid_tchar_regex_match value = true /\ r = map ascii_of_byte value) \/
  (_valid_tchar_regex_match value = false /\
   r = [ascii_of_byte DQUOTE] ++ map ascii_of_byte (escape_bytes value)
       ++ [ascii_of_byte DQUOTE]).
Proof.
  intros value r E. unfold boundary_value_of in E.
  destruct (_valid_tchar_regex_match value).
  - left. split; [reflexivity | now apply decode_ascii_some].
  - right. split; [reflexivity|].
    destruct (_invalid_qdtext_char_regex_search value); [discriminate|].
    fold (escape_bytes value) in E.
    destruct (Str.decode_ascii (escape_bytes value)) as [c|] eqn:Ed; cbn [bind] in E;
      [|discriminate].
    injection E as <-. now rewrite (decode_ascii_some _ _ Ed).
Qed.

Lemma token_does_not_start_with_a_quote : forall value rest,
  _valid_tchar_regex_match value = true ->
  map ascii_of_byte value <> ascii_of_byte DQUOTE :: rest.
Proof.
  intros value rest Ht E. unfold _valid_tchar_regex_match in Ht.
  destruct value as [|x value]; [discriminate|].
  cbn [truthy forallb andb map] in *. injection E as Ex _.
  apply andb_true_iff in Ht. destruct Ht as [Hx _].
  assert (x = DQUOTE).
  { rewrite <- (byte_of_ascii_of_byte x), Ex. reflexivity. }
  subst x. discriminate.
Qed.

(** X28. Two boundaries are never rendered alike: when [boundary_value]
    gives the same text for two boundaries, they are the same boundary. *)
Theorem boundary_value_identifies_the_boundary :
  forall (w1 w2 : MultipartWriter.t) (r : str),
  boundary_value w1 = Ok r -> boundary_value w2 = Ok r ->
  _boundary w1 = _boundary w2.
Proof.
  intros w1 w2 r E1 E2. unfold boundary_value in *.
  destruct (boundary_value_of_cases _ _ E1) as [[Ht1 Hr1] | [Ht1 Hr1]];
    destruct (boundary_value_of_cases _ _ E2) as [[Ht2 Hr2] | [Ht2 Hr2]].
  - apply map_ascii_of_byte_inj. congruence.
  - rewrite Hr2 in Hr1. symmetry in Hr1.
    elim (token_does_not_start_with_a_quote _ _ Ht1 Hr1).
  - rewrite Hr1 in Hr2. symmetry in Hr2.
    elim (token_does_not_start_with_a_quote _ _ Ht2 Hr2).
  - rewrite Hr1 in Hr2. cbn [app] in Hr2. injection Hr2 as Hr2.
    apply app_inv_tail in Hr2.
    apply escape_bytes_inj. now apply map_ascii_of_byte_inj.
Qed.

End ConstructionFacts.

Lemma boundary_value_identifies_the_boundary_witness :
  MultipartWriter._boundary sample_writer = MultipartWriter._boundary sample_parts_writer.
Proof.
  exact (boundary_value_identifies_the_boundary sample_writer sample_parts_writer
           (s "X") eq_refl eq_refl).
Defined.

(** ** The encoding sink with a compressor *)

Section SinkStreamFacts.

Import MultipartPayloadWriter.

Variable C : compressor_ops.
Variable b2a_qp : bytes -> bytes.

Lemma write_encoded_so_far : forall pre seen sink chunk,
  encoded_so_far C pre seen sink ->
  exists sink',
    write_encoded C b2a_qp sink chunk = Ok sink' /\
    encoded_so_far C pre (seen ++ chunk) sink' /\
    compressor sink' = compressor sink /\ encoding sink' = encoding sink.
Proof.
  intros pre seen sink chunk Hinv. unfold encoded_so_far in *.
  unfold write_encoded, is_encoding.
  destruct (encoding sink) as [e|] eqn:He.
  - destruct Hinv as (-> & done & buf & k & Hseen & Hdone & Hbuf & Hw & Hb).
    change (str_eqb (s "base64") (s "base64")) with true. cbv iota. rewrite Hb.
    set (buf' := buf ++ chunk).
    assert (Hsplit : buf' = firstn (length buf' / 3 * 3) buf'
                            ++ skipn (length buf' / 3 * 3) buf')
      by (symmetry; apply firstn_skipn).
    destruct (truthy buf') eqn:Ht.
    + destruct (length buf' / 3 * 3 =? 0) eqn:Hz; cbn [negb].
      * apply Nat.eqb_eq in Hz.
        eexists; split; [reflexivity|].
        cbn [encoding set_buffer compressor writer encoding_buffer]. rewrite He.
        repeat split; auto.
        exists done, buf', k. repeat split; auto.
        -- subst seen buf'. now rewrite app_assoc.
        -- pose proof (skipn_barrier_length buf') as Hs.
           rewrite length_skipn in Hs. lia.
      * apply Nat.eqb_neq in Hz.
        eexists; split; [reflexivity|].
        cbn [encoding set_buffer compressor writer encoding_buffer writer_write]. rewrite He.
        repeat split; auto.
        exists (done ++ firstn (length buf' / 3 * 3) buf'),
               (skipn (length buf' / 3 * 3) buf'), (k + length buf' / 3).
        repeat split; auto.
        -- subst seen. rewrite <- !app_assoc. f_equal. exact Hsplit.
        -- rewrite length_app, firstn_barrier_length. lia.
        -- apply skipn_barrier_length.
        -- rewrite concat_app. cbn [concat]. rewrite app_nil_r, Hw, <- app_assoc.
           f_equal. symmetry. now apply (b64encode_app k).
    + destruct buf' as [|? ?] eqn:E; [|discriminate].
      eexists; split; [reflexivity|].
      cbn [encoding set_buffer compressor writer encoding_buffer]. rewrite He.
      repeat split; auto.
      exists done, [], k. repeat split; auto; try lia.
      subst seen. unfold buf' in E. rewrite <- app_assoc, E. reflexivity.
  - eexists; split; [reflexivity|].
    cbn [encoding compressor writer writer_write]. rewrite He.
    repeat split; auto. rewrite concat_app. cbn [concat].
    rewrite app_nil_r, Hinv. now rewrite app_assoc.
Qed.

(** Feeding chunks: the encoder stage has seen what the compressor stage
    has given out so far. *)
Lemma feed_encoded_so_far : forall chunks pre seen sink,
  encoded_so_far C pre seen sink ->
  exists sink' out,
    feed C b2a_qp sink chunks = Ok sink' /\
    encoded_so_far C pre (seen ++ out) sink' /\
    encoding sink' = encoding sink /\
    out ++ match compressor sink' with Some c => flush C c | None => [] end
    = compressed C (compressor sink) chunks /\
    (compressor sink = None -> compressor sink' = None).
Proof.
  induction chunks as [|chunk chunks IH]; intros pre seen sink Hinv.
  - exists sink, []. cbn [feed]. rewrite app_nil_r.
    repeat split; auto; destruct (compressor sink); reflexivity.
  - cbn [feed]. unfold write.
    destruct (compressor sink) as [c|] eqn:Hc.
    + destruct (truthy chunk) eqn:Ht.
      * destruct (compress C c chunk) as [out c'] eqn:Eout.
        destruct (truthy out) eqn:Hto; cbn [negb].
        -- assert (Hinv0 : encoded_so_far C pre seen (set_compressor C sink (Some c')))
             by exact Hinv.
           destruct (write_encoded_so_far pre seen _ out Hinv0)
             as (sink1 & Hw & Hinv1 & Hc1 & He1).
           rewrite Hw. cbn [bind].
           destruct (IH pre _ sink1 Hinv1) as (sink2 & out2 & Hf & Hinv2 & He2 & Hout & _).
           exists sink2, (out ++ out2). rewrite Hf.
           repeat split; auto.
           ++ now rewrite app_assoc.
           ++ rewrite He2, He1. reflexivity.
           ++ rewrite Hc1 in Hout. cbn [compressor set_compressor] in Hout.
              cbn [compressed compress_stream] in *. rewrite Ht, Eout.
              rewrite <- Hout. now rewrite app_assoc.
           ++ discriminate.
        -- cbn [bind].
           assert (Hinv0 : encoded_so_far C pre seen (set_compressor C sink (Some c')))
             by exact Hinv.
           destruct (IH pre _ _ Hinv0) as (sink2 & out2 & Hf & Hinv2 & He2 & Hout & _).
           exists sink2, out2. rewrite Hf. repeat split; auto.
           ++ cbn [compressor set_compressor] in Hout.
              cbn [compressed compress_stream] in *. rewrite Ht, Eout.
              destruct out; [exact Hout | discriminate].
           ++ discriminate.
      * destruct (write_encoded_so_far pre seen sink chunk Hinv)
          as (sink1 & Hw & Hinv1 & Hc1 & He1).
        rewrite Hw. cbn [bind].
        destruct chunk; [|discriminate]. rewrite app_nil_r in Hinv1.
        destruct (IH pre _ sink1 Hinv1) as (sink2 & out2 & Hf & Hinv2 & He2 & Hout & _).
        exists sink2, out2. rewrite Hf. repeat split; auto.
        -- rewrite He2, He1. reflexivity.
        -- rewrite Hc1, Hc in Hout. cbn [compressed compress_stream truthy] in *.
           exact Hout.
        -- discriminate.
    + destruct (write_encoded_so_far pre seen sink chunk Hinv)
        as (sink1 & Hw & Hinv1 & Hc1 & He1).
      rewrite Hw. cbn [bind]. rewrite Hc in Hc1.
      destruct (IH pre _ sink1 Hinv1) as (sink2 & out2 & Hf & Hinv2 & He2 & Hout & Hnone).
      specialize (Hnone Hc1).
      exists sink2, (chunk ++ out2). rewrite Hf. repeat split; auto.
      * now rewrite app_assoc.
      * rewrite He2, He1. reflexivity.
      * rewrite Hc1 in Hout. rewrite Hnone in *. cbn [compressed concat] in *.
        rewrite <- Hout. now rewrite !app_nil_r.
Qed.

Lemma write_eof_encoded_so_far : forall pre seen sink,
  encoded_so_far C pre seen sink ->
  exists sink',
    write_eof C b2a_qp sink = Ok sink' /\
    concat (writer sink')
    = pre ++ transfer_encode (encoding sink)
               (seen ++ match compressor sink with Some c => flush C c | None => [] end).
Proof.
  intros pre seen sink Hinv.
  assert (Hlast : forall seen sink,
            encoded_so_far C pre seen sink -> compressor sink = None ->
            exists sink',
              (if is_encoding C sink "base64" then
                 match encoding_buffer sink with
                 | Some buf =>
                     if truthy buf then Ok (writer_write C sink (Base64.b64encode buf))
                     else Ok sink
                 | None => Ok sink
                 end
               else Ok sink) = Ok sink' /\
              concat (writer sink') = pre ++ transfer_encode (encoding sink) seen).
  { clear. intros seen sink Hinv Hc. unfold encoded_so_far in Hinv.
    unfold is_encoding. destruct (encoding sink) as [e|] eqn:He.
    - destruct Hinv as (-> & done & buf & k & Hseen & Hdone & Hbuf & Hw & Hb).
      change (str_eqb (s "base64") (s "base64")) with true. cbv iota. rewrite Hb.
      cbn [transfer_encode].
      destruct buf as [|x buf]; cbn [truthy].
      + exists sink. split; [reflexivity|]. subst seen. now rewrite app_nil_r.
      + eexists; split; [reflexivity|]. cbn [writer_write writer].
        rewrite concat_app. cbn [concat]. rewrite app_nil_r, Hw, <- app_assoc. subst seen.
        f_equal. symmetry. now apply (b64encode_app k).
    - exists sink. split; [reflexivity|]. exact Hinv. }
  unfold write_eof. destruct (compressor sink) as [c|] eqn:Hc.
  - assert (Hinv0 : encoded_so_far C pre seen (set_compressor C sink None)) by exact Hinv.
    destruct (truthy (flush C c)) eqn:Ht.
    + unfold write. cbn [compressor set_compressor].
      destruct (write_encoded_so_far pre seen _ (flush C c) Hinv0)
        as (sink1 & Hw & Hinv1 & Hc1 & He1).
      rewrite Hw. cbn [bind].
      destruct (Hlast _ sink1 Hinv1 Hc1) as (sink2 & Hf & Hout).
      exists sink2. split; [exact Hf|]. rewrite Hout. now rewrite He1.
    + cbn [bind]. destruct (Hlast _ _ Hinv0 eq_refl) as (sink2 & Hf & Hout).
      exists sink2. split; [exact Hf|]. rewrite Hout.
      destruct (flush C c); [|discriminate]. now rewrite app_nil_r.
  - cbn [bind]. destruct (Hlast _ sink Hinv Hc) as (sink2 & Hf & Hout).
    exists sink2. split; [exact Hf|]. now rewrite Hout, app_nil_r.
Qed.

(** Feeding a body and ending it. *)
Lemma sink_stream : forall pre sink chunks,
  encoded_so_far C pre [] sink ->
  exists sink1 sink2,
    feed C b2a_qp sink chunks = Ok sink1 /\
    write_eof C b2a_qp sink1 = Ok sink2 /\
    concat (writer sink2)
    = pre ++ transfer_encode (encoding sink) (compressed C (compressor sink) chunks).
Proof.
  intros pre sink chunks Hinv.
  destruct (feed_encoded_so_far chunks pre [] sink Hinv)
    as (sink1 & out & Hf & Hinv1 & He1 & Hout & _).
  destruct (write_eof_encoded_so_far pre _ sink1 Hinv1) as (sink2 & Hw & Hcat).
  exists sink1, sink2. split; [exact Hf|]. split; [exact Hw|].
  rewrite Hcat, He1. cbn [app]. now rewrite Hout.
Qed.

Lemma enable_compression_fields : forall w e sink,
  enable_compression C (__init__ C w) e = Ok sink ->
  writer sink = w /\ encoding sink = None /\ encoding_buffer sink = None /\
  part_compressor C (Some e) = Ok (compressor sink).
Proof.
  intros w e sink He. unfold part_compressor. unfold enable_compression in *.
  destruct (if str_eqb e (s "gzip") then _ else _) as [c|err]; cbn [bind] in *;
    [|discriminate].
  injection He as <-. cbn. auto.
Qed.

Lemma enable_compression_raises : forall w e err,
  enable_compression C (__init__ C w) e = Raise err ->
  part_compressor C (Some e) = Raise err.
Proof.
  intros w e err He. unfold part_compressor. unfold enable_compression in *.
  destruct (if str_eqb e (s "gzip") then _ else _) as [c|err']; cbn [bind] in *;
    [discriminate | now injection He as ->].
Qed.

(** The sink as [MultipartWriter.write] sets it up for a part. *)
Lemma sink_setup : forall w0 enc te sinkc,
  match enc with
  | Some e => enable_compression C (__init__ C w0) e
  | None => Ok (__init__ C w0)
  end = Ok sinkc ->
  te = None \/ te = Some (s "base64") ->
  let sink0 := match te with
               | Some e => enable_encoding C sinkc e
               | None => sinkc
               end in
  encoded_so_far C (concat w0) [] sink0 /\
  encoding sink0 = te /\ compressor sink0 = compressor sinkc.
Proof.
  intros w0 enc te sinkc Hc Hte sink0.
  assert (Hf : writer sinkc = w0 /\ encoding sinkc = None /\ encoding_buffer sinkc = None).
  { destruct enc as [e|].
    - destruct (enable_compression_fields w0 e sinkc Hc) as (H1 & H2 & H3 & _). auto.
    - injection Hc as <-. cbn. auto. }
  destruct Hf as (Hw & He & Hb).
  subst sink0. destruct Hte as [-> | ->].
  - unfold encoded_so_far. rewrite He, Hw, app_nil_r. auto.
  - unfold enable_encoding.
    change (str_eqb (s "base64") (s "base64")) with true. cbv iota.
    unfold encoded_so_far. cbn [encoding writer encoding_buffer compressor].
    repeat split; auto. exists [], [], 0. rewrite Hw. cbn [Base64.b64encode].
    repeat split; auto. now rewrite app_nil_r.
Qed.

(** X15. The sink writes the transfer encoding of the compressed body:
    with a compressor enabled or not, and with base64 enabled or no
    transfer encoding, feeding a body in any chunks and ending it leaves on
    the underlying writer, after what it held, the encoding of what the
    compressor gave out for the non-empty chunks in order, its final flush
    included. *)
Theorem sink_writes_the_encoded_compressed_stream :
  forall (w0 : list bytes) (enc te : option str) (sinkc : t C) (chunks : list bytes),
  match enc with
  | Some e => enable_compression C (__init__ C w0) e
  | None => Ok (__init__ C w0)
  end = Ok sinkc ->
  te = None \/ te = Some (s "base64") ->
  let sink0 := match te with
               | Some e => enable_encoding C sinkc e
               | None => sinkc
               end in
  exists sink1 sink2,
    feed C b2a_qp sink0 chunks = Ok sink1 /\
    write_eof C b2a_qp sink1 = Ok sink2 /\
    concat (writer sink2)
    = concat w0 ++ transfer_encode te (compressed C (compressor sinkc) chunks).
Proof.
  intros w0 enc te sinkc chunks Hc Hte sink0.
  destruct (sink_setup w0 enc te sinkc Hc Hte) as (Hinv & He0 & Hc0). fold sink0 in Hinv, He0, Hc0.
  destruct (sink_stream (concat w0) sink0 chunks Hinv) as (sink1 & sink2 & Hfeed & Heof & Hcat).
  exists sink1, sink2. rewrite He0, Hc0 in Hcat. auto.
Qed.

End SinkStreamFacts.

Lemma sink_writes_the_encoded_compressed_stream_witness :
  let sinkc := MultipartPayloadWriter.set_compressor buffering_compressor
                 (MultipartPayloadWriter.__init__ buffering_compressor [b "--X"])
                 (Some []) in
  let sink0 := MultipartPayloadWriter.enable_encoding buffering_compressor sinkc
                 (s "base64") in
  exists sink1 sink2,
    MultipartPayloadWriter.feed buffering_compressor (fun x => x) sink0
      [b "he"; []; b "llo"] = Ok sink1 /\
    MultipartPayloadWriter.write_eof buffering_compressor (fun x => x) sink1 = Ok sink2 /\
    concat (MultipartPayloadWriter.writer sink2)
    = concat [b "--X"]
      ++ transfer_encode (Some (s "base64"))
           (compressed buffering_compressor
              (MultipartPayloadWriter.compressor sinkc) [b "he"; []; b "llo"]).
Proof.
  apply (sink_writes_the_encoded_compressed_stream buffering_compressor (fun x => x)
           [b "--X"] (Some (s "gzip")) (Some (s "base64"))).
  - reflexivity.
  - now right.
Defined.

Example buffered_body_is_encoded_at_the_end :
  transfer_encode (Some (s "base64"))
    (compressed buffering_compressor (Some []) [b "he"; []; b "llo"]) = b "aGVsbG8=".
Proof. reflexivity. Qed.

(** ** The parts on the wire *)

Section FrameFacts.

Import MultipartWriter.

Variable C : MultipartPayloadWriter.compressor_ops.
Variable b2a_qp : bytes -> bytes.

Lemma write_part_frame : forall boundary writer p,
  plain_or_base64 p ->
  match part_frame C boundary p with
  | Ok f =>
      exists writer' p',
        write_part C b2a_qp boundary writer p = Ok (writer', p') /\
        concat writer' = concat writer ++ f
  | Raise e => write_part C b2a_qp boundary writer p = Raise e
  end.
Proof.
  intros boundary writer [[[payload headers] enc] te] Hte.
  unfold plain_or_base64 in Hte. cbn [snd] in Hte.
  unfold part_frame, write_part.
  assert (Hframe : forall (pre : list bytes) body,
            concat (pre ++ [CRLF])
            = concat writer ++ delimiter boundary ++ headers ++ body ++ CRLF <->
            concat pre = concat writer ++ (b "--" ++ boundary ++ CRLF) ++ headers ++ body).
  { intros pre body. rewrite concat_app. cbn [concat]. rewrite app_nil_r.
    unfold delimiter. split.
    - intros Hc. apply (app_inv_tail CRLF). rewrite Hc. now rewrite <- !app_assoc.
    - intros ->. now rewrite <- !app_assoc. }
  destruct enc as [e|]; [|destruct te as [t|]].
  - (* a compressor *)
    destruct (MultipartPayloadWriter.enable_compression C
                (MultipartPayloadWriter.__init__ C
                   ((writer ++ [b "--" ++ boundary ++ CRLF]) ++ [headers])) e)
      as [sinkc|err] eqn:Ec.
    + destruct (enable_compression_fields C _ e sinkc Ec) as (_ & _ & _ & Hpc).
      rewrite Hpc. cbn [bind].
      destruct (Payload.write payload) as [[chunks payload']|err]; cbn [bind fst];
        [|reflexivity].
      destruct (sink_setup C _ (Some e) te sinkc Ec Hte) as (Hinv & He0 & Hc0).
      destruct (sink_stream C b2a_qp _ _ chunks Hinv) as (sink1 & sink2 & Hfeed & Heof & Hcat).
      rewrite Hfeed. cbn [bind]. rewrite Heof. cbn [bind].
      eexists _, _. split; [reflexivity|]. apply Hframe.
      rewrite Hcat, He0, Hc0. rewrite !concat_app. cbn [concat].
      now rewrite !app_nil_r, <- !app_assoc.
    + rewrite (enable_compression_raises C _ e err Ec). reflexivity.
  - (* a transfer encoding only *)
    cbn [part_compressor bind].
    destruct (Payload.write payload) as [[chunks payload']|err]; cbn [bind fst];
      [|reflexivity].
    destruct (sink_setup C ((writer ++ [b "--" ++ boundary ++ CRLF]) ++ [headers])
                None (Some t) _ eq_refl Hte) as (Hinv & He0 & Hc0).
    destruct (sink_stream C b2a_qp _ _ chunks Hinv) as (sink1 & sink2 & Hfeed & Heof & Hcat).
    rewrite Hfeed. cbn [bind]. rewrite Heof. cbn [bind].
    eexists _, _. split; [reflexivity|]. apply Hframe.
    rewrite Hcat, He0, Hc0. rewrite !concat_app. cbn [concat].
    now rewrite !app_nil_r, <- !app_assoc.
  - (* neither *)
    cbn [part_compressor bind].
    destruct (Payload.write payload) as [[chunks payload']|err]; cbn [bind fst];
      [|reflexivity].
    eexists _, _. split; [reflexivity|]. apply Hframe.
    rewrite !concat_app. cbn [concat transfer_encode compressed].
    now rewrite !app_nil_r, <- !app_assoc.
Qed.

Lemma write_parts_frames : forall boundary ps writer,
  Forall plain_or_base64 ps ->
  match part_frames C boundary ps with
  | Ok body =>
      exists writer' ps',
        write_parts C b2a_qp boundary writer ps = Ok (writer', ps') /\
        concat writer' = concat writer ++ body
  | Raise e => write_parts C b2a_qp boundary writer ps = Raise e
  end.
Proof.
  induction ps as [|p ps IH]; intros writer Hall.
  - cbn [part_frames write_parts]. exists writer, []. now rewrite app_nil_r.
  - inversion Hall as [|? ? Hp Hrest]; subst.
    cbn [part_frames write_parts].
    pose proof (write_part_frame boundary writer p Hp) as Hf.
    destruct (part_frame C boundary p) as [f|e]; cbn [bind].
    + destruct Hf as (writer1 & p' & Hw & Hcat). rewrite Hw. cbn [bind].
      specialize (IH writer1 Hrest).
      destruct (part_frames C boundary ps) as [body|e]; cbn [bind].
      * destruct IH as (writer2 & ps' & Hws & Hcat2). rewrite Hws. cbn [bind].
        eexists _, _. split; [reflexivity|]. rewrite Hcat2, Hcat. now rewrite app_assoc.
      * now rewrite IH.
    + now rewrite Hf.
Qed.

(** X16. What [write] puts on the wire: for parts without a transfer
    encoding or with base64, each part is written as the delimiter line,
    its header block, its body as the compressor and the transfer encoding
    turn it out, and a line end; the closing delimiter line follows the
    last part.  When setting up a compressor or writing a payload fails,
    [write] raises that error.  The payloads of the parts are distinct
    objects. *)
Theorem written_body_is_the_sequence_of_part_frames :
  forall (w : MultipartWriter.t) (w0 : list bytes),
  parts w <> [] ->
  Forall plain_or_base64 (parts w) ->
  match part_frames C (_boundary w) (parts w) with
  | Ok body =>
      exists out w',
        write C b2a_qp w w0 true = Ok (out, w') /\
        concat out = concat w0 ++ body ++ closing_delimiter (_boundary w)
  | Raise e => write C b2a_qp w w0 true = Raise e
  end.
Proof.
  intros w w0 Hne Hall. unfold write.
  destruct (parts w) as [|p ps] eqn:Ep; [now elim Hne|]. cbn [truthy negb].
  pose proof (write_parts_frames (_boundary w) (p :: ps) w0 Hall) as Hf.
  destruct (part_frames C (_boundary w) (p :: ps)) as [body|e].
  - destruct Hf as (writer' & ps' & Hw & Hcat). rewrite Hw. cbn [bind].
    eexists _, _. split; [reflexivity|].
    rewrite concat_app. cbn [concat]. rewrite app_nil_r, Hcat.
    unfold closing_delimiter. now rewrite <- !app_assoc.
  - now rewrite Hf.
Qed.

End FrameFacts.

Lemma written_body_is_the_sequence_of_part_frames_witness :
  exists out w',
    MultipartWriter.write buffering_compressor (fun x => x) sample_encoded_writer [] true
    = Ok (out, w') /\
    concat out
    = concat [] ++ (b "--X" ++ CRLF ++ b "A: 1" ++ CRLF ++ CRLF ++ b "aGVsbG8=" ++ CRLF)
      ++ closing_delimiter (MultipartWriter._boundary sample_encoded_writer).
Proof.
  apply (written_body_is_the_sequence_of_part_frames buffering_compressor (fun x => x)
           sample_encoded_writer []).
  - discriminate.
  - constructor; [now right | constructor].
Defined.

(** ** What [append_payload] records *)

Section AppendPayloadFacts.

Import MultipartWriter.

Variable H : helpers.

Lemma one_of_in : forall x names,
  one_of x names = true -> In x (map s names).
Proof.
  intros x names. unfold one_of. induction names as [|n names IH]; cbn [existsb map].
  - discriminate.
  - rewrite orb_true_iff. intros [E | E].
    + left. apply str_eqb_eq in E. now symmetry.
    + right. now apply IH.
Qed.

(** X17. [append_payload] records exactly one part, after the parts already
    there, with the payload it returns.  The content encoding recorded is
    absent or one of [deflate], [gzip] and [br], the transfer encoding is
    absent or one of [base64] and [quoted-printable], both in lower case;
    the payload writer sets up a compressor for each such content encoding,
    except that [br] raises [ContentEncodingError] when there is no brotli
    compressor, and it enables each such transfer encoding. *)
Theorem append_payload_records_encodings_the_sink_implements :
  forall (w w' : MultipartWriter.t) (p p' : Payload.t),
  append_payload H w p = Ok (w', p') ->
  exists headers enc te,
    parts w' = parts w ++ [(p', headers, enc, te)] /\
    (forall e, enc = Some e -> In e [s "deflate"; s "gzip"; s "br"]) /\
    (forall e, te = Some e -> In e [s "base64"; s "quoted-printable"]) /\
    (forall C sink e, enc = Some e ->
       (exists sink' c,
          MultipartPayloadWriter.enable_compression C sink e = Ok sink' /\
          MultipartPayloadWriter.compressor sink' = Some c) \/
       (e = s "br" /\ MultipartPayloadWriter.BROTLI_COMPRESSOR C = None /\
        MultipartPayloadWriter.enable_compression C sink e = Raise ContentEncodingError)) /\
    (forall C (sink : MultipartPayloadWriter.t C) e, te = Some e ->
       MultipartPayloadWriter.encoding (MultipartPayloadWriter.enable_encoding C sink e)
       = Some e).
Proof.
  intros w w' p p' Ha. unfold append_payload in Ha.
  destruct (Payload.headers p) as [|[h|]]; cbn [bind] in Ha; try discriminate.
  set (h1 := if negb (imultidict.contains h CONTENT_TYPE) then _ else h) in Ha.
  destruct (match imultidict.get h1 CONTENT_ENCODING with None => _ | Some _ => _ end)
    as [enc|] eqn:Eenc; cbn [bind] in Ha; [|discriminate].
  destruct (match imultidict.get h1 CONTENT_TRANSFER_ENCODING with None => _ | Some _ => _ end)
    as [te|] eqn:Ete; cbn [bind] in Ha; [|discriminate].
  destruct (Payload.size p) as [sz|]; cbn [bind] in Ha; [|discriminate].
  injection Ha as <- <-.
  assert (Henc : forall e, enc = Some e -> In e [s "deflate"; s "gzip"; s "br"]).
  { intros e ->. destruct (imultidict.get h1 CONTENT_ENCODING) as [e0|]; [|discriminate].
    destruct (one_of (Str.lower e0) ["deflate"; "gzip"; "br"]%string) eqn:E1.
    - injection Eenc as <-. exact (one_of_in _ _ E1).
    - destruct (Str.eqb (Str.lower e0) [] || Str.eqb (Str.lower e0) (s "identity"));
        discriminate. }
  assert (Hte : forall e, te = Some e -> In e [s "base64"; s "quoted-printable"]).
  { intros e ->. destruct (imultidict.get h1 CONTENT_TRANSFER_ENCODING) as [e0|];
      [|discriminate].
    destruct (Str.eqb (Str.lower e0) []); [discriminate|].
    destruct (one_of (Str.lower e0) ["base64"; "quoted-printable"]%string) eqn:E1.
    - injection Ete as <-. exact (one_of_in _ _ E1).
    - destruct (Str.eqb (Str.lower e0) (s "binary")); discriminate. }
  eexists _, enc, te. split; [reflexivity|]. split; [exact Henc|]. split; [exact Hte|].
  split.
  - intros C sink e He. specialize (Henc e He).
    destruct Henc as [<- | [<- | [<- | []]]].
    + left. eexists _, _. split; reflexivity.
    + left. eexists _, _. split; reflexivity.
    + unfold MultipartPayloadWriter.enable_compression.
      change (MultipartPayloadWriter.str_eqb (s "br") (s "gzip")) with false.
      change (MultipartPayloadWriter.str_eqb (s "br") (s "deflate")) with false.
      change (MultipartPayloadWriter.str_eqb (s "br") (s "br")) with true. cbv iota.
      destruct (MultipartPayloadWriter.BROTLI_COMPRESSOR C) as [c|].
      * left. eexists _, _. split; reflexivity.
      * right. auto.
  - intros C sink e He. specialize (Hte e He).
    destruct Hte as [<- | [<- | []]]; reflexivity.
Qed.

End AppendPayloadFacts.

Lemma append_payload_records_encodings_the_sink_implements_witness :
  match MultipartWriter.append_payload sample_helpers sample_writer sample_encoded_payload with
  | Ok (w', p') =>
      exists headers enc te,
        MultipartWriter.parts w'
        = MultipartWriter.parts sample_writer ++ [(p', headers, enc, te)] /\
        (forall e, enc = Some e -> In e [s "deflate"; s "gzip"; s "br"]) /\
        (forall e, te = Some e -> In e [s "base64"; s "quoted-printable"]) /\
        (forall C sink e, enc = Some e ->
           (exists sink' c,
              MultipartPayloadWriter.enable_compression C sink e = Ok sink' /\
              MultipartPayloadWriter.compressor sink' = Some c) \/
           (e = s "br" /\ MultipartPayloadWriter.BROTLI_COMPRESSOR C = None /\
            MultipartPayloadWriter.enable_compression C sink e
            = Raise ContentEncodingError)) /\
        (forall C (sink : MultipartPayloadWriter.t C) e, te = Some e ->
           MultipartPayloadWriter.encoding
             (MultipartPayloadWriter.enable_encoding C sink e) = Some e)
  | Raise _ => False
  end.
Proof.
  destruct (MultipartWriter.append_payload sample_helpers sample_writer
              sample_encoded_payload) as [[w' p']|e] eqn:E.
  - exact (append_payload_records_encodings_the_sink_implements sample_helpers
             sample_writer w' sample_encoded_payload p' E).
  - vm_compute in E. discriminate.
Defined.

Example append_payload_lowers_the_encodings :
  match MultipartWriter.append_payload sample_helpers sample_writer sample_encoded_payload with
  | Ok (w', _) =>
      map (fun p => (snd (fst p), snd p)) (MultipartWriter.parts w')
      = [(Some (s "gzip"), Some (s "base64"))]
  | Raise _ => False
  end.
Proof. vm_compute. reflexivity. Qed.

(** ** Reading with a declared length, and releasing *)

Section DeclaredFacts.

Import BodyPartReader.

(** X18. With a declared length above zero the body is opaque: when the
    stream holds the declared number of bytes followed by a line end,
    [read] returns exactly those bytes, whatever they contain and however
    the transport delivers them, sets end-of-part, and leaves the transport
    after the line end. *)
Theorem declared_length_body_is_read_whole :
  forall (fuel : nat) (boundary : bytes) (h : imultidict.t) (tr : Transport.t)
         (body rest : bytes),
  imultidict.get h CONTENT_LENGTH = Some (Str.of_int (Bytes.len body)) ->
  body <> [] -> length body <= fuel ->
  Transport.remaining tr = body ++ CRLF ++ rest ->
  exists reader reader',
    __init__ boundary h tr = Ok reader /\
    read fuel reader = Some (body, reader') /\
    _at_eof reader' = true /\
    Transport.remaining (_content reader') = rest.
Proof.
  intros fuel boundary h tr body rest Hcl Hne Hfuel Hrem.
  unfold __init__. rewrite Hcl. cbn [bind].
  rewrite int_of_int by (unfold Bytes.len; lia). cbn [bind].
  set (reader := {| headers := h; _boundary := boundary; _content := tr;
                    _at_eof := false; _length := Some (Bytes.len body);
                    _read_bytes := 0; _unread := []; _prev_chunk := None;
                    _content_eof := 0 |}).
  assert (Hpos : (0 < Bytes.len body)%Z).
  { unfold Bytes.len. destruct body; [congruence | cbn [length]; lia]. }
  destruct (read_loop_declared fuel reader (Bytes.len body) body rest [])
    as (reader' & Hloop & Heof & _ & Hr); auto.
  { cbn [_read_bytes reader]. lia. }
  exists reader, reader'. split; [reflexivity|].
  unfold read. cbn [_at_eof reader]. auto.
Qed.

Lemma release_loop_read_loop : forall fuel self acc,
  release_loop fuel self = option_map snd (read_loop fuel self acc).
Proof.
  induction fuel as [|fuel IH]; intros self acc; cbn [release_loop read_loop].
  - destruct (_at_eof self); reflexivity.
  - destruct (_at_eof self); [reflexivity|].
    destruct (read_chunk self chunk_size) as [chunk self1]. cbn [snd]. apply IH.
Qed.

(** X19. [release] leaves the reader and the transport exactly as [read]
    does: it makes the same [read_chunk] calls and drops the data. *)
Theorem release_is_read_without_the_data : forall (fuel : nat) (self : BodyPartReader.t),
  release fuel self = option_map snd (read fuel self).
Proof.
  intros fuel self. unfold release, read.
  destruct (_at_eof self); [reflexivity|]. apply release_loop_read_loop.
Qed.

End DeclaredFacts.

Lemma declared_length_body_is_read_whole_witness :
  exists reader reader',
    BodyPartReader.__init__ (b "--X") sample_length_headers
      (Transport.of_segments [b "a" ++ CRLF; b "--X--" ++ CRLF ++ b "b" ++ CRLF ++ b "--X--"])
    = Ok reader /\
    BodyPartReader.read 11 reader = Some (sample_opaque_body, reader') /\
    BodyPartReader._at_eof reader' = true /\
    Transport.remaining (BodyPartReader._content reader') = b "--X--".
Proof.
  apply (declared_length_body_is_read_whole 11 (b "--X") sample_length_headers
           (Transport.of_segments
              [b "a" ++ CRLF; b "--X--" ++ CRLF ++ b "b" ++ CRLF ++ b "--X--"])
           sample_opaque_body (b "--X--")).
  - reflexivity.
  - discriminate.
  - cbn. lia.
  - reflexivity.
Defined.

(** ** Stream payloads *)

Section StreamPayloadFacts.

Lemma chunks_of_bounded : forall fuel n (data : bytes),
  0 < n ->
  Forall (fun c : bytes => c <> [] /\ length c <= n) (chunks_of fuel n data).
Proof.
  induction fuel as [|fuel IH]; intros n data Hn; cbn [chunks_of]; [constructor|].
  destruct data as [|x data]; [constructor|].
  constructor; [|now apply IH].
  split.
  - destruct n; [lia | discriminate].
  - rewrite length_firstn. lia.
Qed.

(** X20. A stream payload is written once, in bounded chunks: [write]
    hands the writer the bytes from the stream's position to its end, in
    non-empty chunks of at most [BIG_CHUNK_LIMIT] bytes, their number being
    what [size] reported, and closes the stream; a second [write], or
    asking for the size again, raises [ValueError]. *)
Theorem stream_payload_is_written_once_in_bounded_chunks :
  forall (p : Payload.t) (f : Payload.BytesIO),
  Payload.cls p = Payload.BytesIOPayload ->
  Payload.value p = Payload.Stream f ->
  Payload.closed f = false ->
  Payload.tell f <= length (Payload.getvalue f) ->
  exists chunks p',
    Payload.write p = Ok (chunks, p') /\
    concat chunks = skipn (Payload.tell f) (Payload.getvalue f) /\
    Forall (fun c : bytes => c <> [] /\ length c <= BIG_CHUNK_LIMIT) chunks /\
    Payload.size p = Ok (Some (Bytes.len (concat chunks))) /\
    Payload.write p' = Raise ValueError /\
    Payload.size p' = Raise ValueError.
Proof.
  intros p f Hcls Hval Hopen Htell.
  unfold Payload.write, Payload.size. rewrite Hcls, Hval, Hopen.
  eexists _, _. split; [reflexivity|].
  assert (Hcat : concat (chunked BIG_CHUNK_LIMIT (skipn (Payload.tell f) (Payload.getvalue f)))
                 = skipn (Payload.tell f) (Payload.getvalue f)).
  { unfold chunked. apply concat_chunks_of; [exact big_chunk_limit_pos | lia]. }
  split; [exact Hcat|].
  split; [apply chunks_of_bounded; exact big_chunk_limit_pos|].
  split.
  - rewrite Hcat. unfold Bytes.len. rewrite length_skipn. do 2 f_equal. lia.
  - cbn [Payload.cls Payload.value Payload.set_value Payload.closed]. rewrite Hcls. auto.
Qed.

End StreamPayloadFacts.

Lemma stream_payload_is_written_once_in_bounded_chunks_witness :
  exists chunks p',
    Payload.write sample_stream_payload = Ok (chunks, p') /\
    concat chunks = skipn 1 (b "hello") /\
    Forall (fun c : bytes => c <> [] /\ length c <= BIG_CHUNK_LIMIT) chunks /\
    Payload.size sample_stream_payload = Ok (Some (Bytes.len (concat chunks))) /\
    Payload.write p' = Raise ValueError /\
    Payload.size p' = Raise ValueError.
Proof.
  apply (stream_payload_is_written_once_in_bounded_chunks sample_stream_payload
           {| Payload.getvalue := b "hello"; Payload.tell := 1; Payload.closed := false |}).
  - reflexivity.
  - reflexivity.
  - reflexivity.
  - cbn. lia.
Defined.

(** ** Decoding what was written *)

Section DecodeFacts.

Import MultipartWriter.

Variable H : helpers.
Variable K : BodyPartReader.codecs.

Lemma get_contains : forall h k v,
  imultidict.get h k = Some v -> imultidict.contains h k = true.
Proof.
  intros h k v Hg. unfold imultidict.get, imultidict.contains in *.
  destruct (imultidict.getall h k); [reflexivity | discriminate].
Qed.

Lemma lower_br_not_decoded : forall e,
  Str.lower e = s "br" ->
  BodyPartReader.header_is (Str.lower e) ["deflate"]%string = false /\
  BodyPartReader.header_is (Str.lower e) ["gzip"]%string = false /\
  BodyPartReader.header_is (Str.lower e) ["identity"]%string = false.
Proof. intros e ->. repeat split. Qed.

(** X21. A part that [append_payload] records with the content encoding
    [br] is not decoded on the reading side: for a part reader over the
    headers of that part, [decode] raises for every body, [RuntimeError]
    unless the transfer decoding fails first. *)
Theorem brotli_part_is_recorded_but_not_decoded :
  forall (w w' : MultipartWriter.t) (p p' : Payload.t) (hdrs : bytes) (te : option str)
         (reader : BodyPartReader.t) (data : bytes),
  append_payload H w p = Ok (w', p') ->
  parts w' = parts w ++ [(p', hdrs, Some (s "br"), te)] ->
  BodyPartReader.headers reader = payload_headers p' ->
  exists e,
    BodyPartReader.decode K reader data = Raise e /\
    (e = RuntimeError \/
     exists d, BodyPartReader._decode_content_transfer K reader d = Raise e).
Proof.
  intros w w' p p' hdrs te reader data Ha Hparts Hh. unfold append_payload in Ha.
  destruct (Payload.headers p) as [|[h|]]; cbn [bind] in Ha; try discriminate.
  set (h1 := if negb (imultidict.contains h CONTENT_TYPE) then _ else h) in Ha.
  destruct (imultidict.get h1 CONTENT_ENCODING) as [e0|] eqn:Eget.
  2:{ cbn [bind] in Ha.
      destruct (match imultidict.get h1 CONTENT_TRANSFER_ENCODING with
                | None => _ | Some _ => _ end) as [te0|]; cbn [bind] in Ha; [|discriminate].
      destruct (Payload.size p) as [sz|]; cbn [bind] in Ha; [|discriminate].
      injection Ha as <- <-. cbn [parts add_part] in Hparts.
      apply app_inv_head in Hparts. discriminate. }
  destruct (one_of (Str.lower e0) ["deflate"; "gzip"; "br"]%string) eqn:E1.
  2:{ destruct (Str.eqb (Str.lower e0) [] || Str.eqb (Str.lower e0) (s "identity"));
        cbn [bind] in Ha; [|discriminate].
      destruct (match imultidict.get h1 CONTENT_TRANSFER_ENCODING with
                | None => _ | Some _ => _ end) as [te0|]; cbn [bind] in Ha; [|discriminate].
      destruct (Payload.size p) as [sz|]; cbn [bind] in Ha; [|discriminate].
      injection Ha as <- <-. cbn [parts add_part] in Hparts.
      apply app_inv_head in Hparts. discriminate. }
  cbn [bind] in Ha.
  destruct (match imultidict.get h1 CONTENT_TRANSFER_ENCODING with
            | None => _ | Some _ => _ end) as [te0|]; cbn [bind] in Ha; [|discriminate].
  destruct (Payload.size p) as [sz|]; cbn [bind] in Ha; [|discriminate].
  injection Ha as <- <-. cbn [parts add_part] in Hparts.
  apply app_inv_head in Hparts. injection Hparts as _ Hbr _.
  assert (Hfinal : payload_headers
                     (Payload.set_headers p
                        (Some match sz, Some (Str.lower e0), te0 with
                              | Some size, None, None =>
                                  imultidict.setitem h1 CONTENT_LENGTH (Str.of_int size)
                              | _, _, _ => h1
                              end)) = h1).
  { unfold payload_headers. cbn [Payload.headers Payload.set_headers].
    destruct sz; reflexivity. }
  rewrite Hfinal in Hh.
  destruct (lower_br_not_decoded e0 Hbr) as (Hd & Hg & Hi).
  unfold BodyPartReader.decode. rewrite Hh.
  rewrite (get_contains h1 CONTENT_ENCODING e0 Eget).
  assert (Hcontent : forall d, BodyPartReader._decode_content K reader d = Raise RuntimeError).
  { intros d. unfold BodyPartReader._decode_content, imultidict.getitem.
    rewrite Hh, Eget. cbn [bind]. now rewrite Hd, Hg, Hi. }
  destruct (imultidict.contains h1 CONTENT_TRANSFER_ENCODING).
  - destruct (BodyPartReader._decode_content_transfer K reader data) as [d|e] eqn:Et;
      cbn [bind].
    + exists RuntimeError. split; [apply Hcontent | now left].
    + exists e. split; [reflexivity|]. right. now exists data.
  - cbn [bind]. exists RuntimeError. split; [apply Hcontent | now left].
Qed.

End DecodeFacts.

Lemma brotli_part_is_recorded_but_not_decoded_witness :
  match MultipartWriter.append_payload sample_helpers sample_writer sample_brotli_payload with
  | Ok (w', p') =>
      exists e,
        BodyPartReader.decode sample_codecs (reader_with_headers (payload_headers p'))
          (b "abc") = Raise e /\
        (e = RuntimeError \/
         exists d,
           BodyPartReader._decode_content_transfer sample_codecs
             (reader_with_headers (payload_headers p')) d = Raise e)
  | Raise _ => False
  end.
Proof.
  destruct (MultipartWriter.append_payload sample_helpers sample_writer
              sample_brotli_payload) as [[w' p']|e] eqn:E.
  - assert (Hparts : exists hdrs te,
              MultipartWriter.parts w'
              = MultipartWriter.parts sample_writer ++ [(p', hdrs, Some (s "br"), te)]).
    { vm_compute in E. injection E as <- <-. eexists _, _. reflexivity. }
    destruct Hparts as (hdrs & te & Hparts).
    exact (brotli_part_is_recorded_but_not_decoded sample_helpers sample_codecs
             sample_writer w' sample_brotli_payload p' hdrs te
             (reader_with_headers (payload_headers p')) (b "abc") E Hparts eq_refl).
  - vm_compute in E. discriminate.
Defined.

(** ** Parsing a MIME type *)

Section MimeTypeFacts.

Variable M : multidict_ops.

Lemma split_pair_present : forall sep x,
  Str.member sep x = true ->
  exists a r,
    MimeType.split_pair sep x = Ok (a, r) /\ x = a ++ sep :: r /\ Str.count sep a = 0.
Proof.
  intros sep x Hm.
  assert (Hc : Str.count sep x <> 0).
  { intros H0. apply member_count in H0. congruence. }
  destruct (splitn_present sep 0 x Hc) as (a & r & Hx & Ha & Hs).
  exists a, r. unfold MimeType.split_pair. rewrite Hs, splitn_zero. auto.
Qed.

Lemma add_params_total : forall items params,
  exists params', MimeType.add_params M params items = Ok params'.
Proof.
  induction items as [|item items IH]; intros params; cbn [MimeType.add_params].
  - now exists params.
  - unfold MimeType.add_param.
    destruct (negb (truthy item)); cbn [bind]; [apply IH|].
    destruct (Str.member "=" item) eqn:Em.
    + destruct (split_pair_present "=" item Em) as (a & r & -> & _ & _). cbn [bind]. apply IH.
    + cbn [bind]. apply IH.
Qed.

(** X22. [MimeType] never fails, and its fields partition the type: the
    lower-cased text before the first [;], a bare [*] standing for [*/*],
    is [mtype], then, if it has a slash, the slash and the subtype part;
    the subtype part is [stype], then, if it has a plus sign, the plus sign
    and [suffix].  [mtype] has no slash and [stype] no plus sign; for an
    empty input the three fields are empty. *)
Theorem mimetype_fields_partition_the_type : forall (mimetype : str),
  exists m,
    MimeType.__init__ M mimetype = Ok m /\
    let full := if truthy mimetype then MimeType.fulltype_of (Str.split ";" mimetype)
                else [] in
    exists sub,
      (if Str.member "/" full then full = MimeType.mtype m ++ "/"%char :: sub
       else full = MimeType.mtype m /\ sub = []) /\
      (if Str.member "+" sub then sub = MimeType.stype m ++ "+"%char :: MimeType.suffix m
       else sub = MimeType.stype m /\ MimeType.suffix m = []) /\
      Str.count "/" (MimeType.mtype m) = 0 /\
      Str.count "+" (MimeType.stype m) = 0.
Proof.
  intros mimetype. unfold MimeType.__init__.
  destruct (truthy mimetype); cbn [negb].
  - destruct (add_params_total (tl (Str.split ";" mimetype)) (md_empty M)) as [params ->].
    cbn [bind]. set (full := MimeType.fulltype_of (Str.split ";" mimetype)).
    assert (Hsub : forall mtype sub,
              exists m,
                ('(stype, suffix) <- (if Str.member "+" sub then MimeType.split_pair "+" sub
                                      else Ok (sub, [])) ;;
                 Ok {| MimeType.mtype := mtype; MimeType.stype := stype;
                       MimeType.suffix := suffix; MimeType.params := Some params |})
                = Ok m /\
                MimeType.mtype m = mtype /\
                (if Str.member "+" sub
                 then sub = MimeType.stype m ++ "+"%char :: MimeType.suffix m
                 else sub = MimeType.stype m /\ MimeType.suffix m = []) /\
                Str.count "+" (MimeType.stype m) = 0).
    { intros mtype sub. destruct (Str.member "+" sub) eqn:Ep.
      - destruct (split_pair_present "+" sub Ep) as (a & r & -> & Hx & Ha). cbn [bind].
        eexists. split; [reflexivity|]. cbn. auto.
      - cbn [bind]. eexists. split; [reflexivity|]. cbn.
        repeat split; auto. now apply member_count. }
    destruct (Str.member "/" full) eqn:Es.
    + destruct (split_pair_present "/" full Es) as (a & r & -> & Hx & Ha). cbn [bind].
      destruct (Hsub a r) as (m & -> & Hm & Hplus & Hc).
      exists m. split; [reflexivity|]. cbn zeta. exists r. rewrite Hm. auto.
    + cbn [bind]. destruct (Hsub full []) as (m & -> & Hm & Hplus & Hc).
      exists m. split; [reflexivity|]. cbn zeta. exists []. rewrite Hm.
      cbn [Str.member existsb] in *. destruct Hplus as [Hst Hsu].
      repeat split; auto. now apply member_count.
  - eexists. split; [reflexivity|]. cbn. exists []. cbn. auto.
Qed.

End MimeTypeFacts.

Example mimetype_of_a_json_type :
  MimeType.__init__ list_multidict (s "Application/LD+JSON; Charset=UTF-8")
  = Ok {| MimeType.mtype := s "application"; MimeType.stype := s "ld";
          MimeType.suffix := s "json";
          MimeType.params :=
            Some (md_setitem list_multidict (md_empty list_multidict)
                    (s "charset") (s "UTF-8")) |}.
Proof. reflexivity. Qed.

Example charset_of_a_part :
  BodyPartReaderHeaders.get_charset list_multidict
    (reader_with_headers
       (imultidict.of_mapping [(CONTENT_TYPE, s "text/plain; charset=latin-1")])) None
  = Ok (Some (s "latin-1")).
Proof. reflexivity. Qed.

(** ** A negative declared length *)

Section NegativeLength.

Import BodyPartReader.

Lemma read_chunk_negative : forall self L size,
  _at_eof self = false -> _length self = Some L -> (L < 0)%Z -> (0 <= _read_bytes self)%Z ->
  let r := read_chunk self size in
  _at_eof (snd r) = false /\ _length (snd r) = Some L /\ (0 <= _read_bytes (snd r))%Z /\
  headers (snd r) = headers self.
Proof.
  intros self L size Hae Hlen HL Hrb r. subst r.
  unfold read_chunk, length_truthy. rewrite Hae, Hlen.
  replace (negb (L =? 0)%Z) with true
    by (symmetry; apply negb_true_iff; apply Z.eqb_neq; lia).
  unfold _read_chunk_from_length.
  destruct (Transport.read (_content self) (Z.min size (remaining_length self)))
    as [chunk content].
  cbn [set_content set_read_bytes _read_bytes _length _at_eof].
  rewrite Hlen.
  assert (Hneq : (_read_bytes self + Bytes.len chunk =? L)%Z = false).
  { apply Z.eqb_neq. unfold Bytes.len. lia. }
  rewrite Hneq. cbn [_at_eof set_content set_read_bytes]. rewrite Hae.
  cbn [fst snd _at_eof _length _read_bytes headers set_content set_read_bytes].
  rewrite ?Hae, ?Hlen.
  repeat split; auto. unfold Bytes.len. lia.
Qed.

Lemma read_loop_negative : forall fuel self L acc,
  _at_eof self = false -> _length self = Some L -> (L < 0)%Z -> (0 <= _read_bytes self)%Z ->
  read_loop fuel self acc = None.
Proof.
  induction fuel as [|fuel IH]; intros self L acc Hae Hlen HL Hrb; cbn [read_loop];
    rewrite Hae; [reflexivity|].
  pose proof (read_chunk_negative self L chunk_size Hae Hlen HL Hrb) as Hstep.
  cbn zeta in Hstep. destruct (read_chunk self chunk_size) as [chunk self1].
  cbn [fst snd] in Hstep. destruct Hstep as (Hae1 & Hlen1 & Hrb1 & _).
  now apply (IH self1 L).
Qed.

(** X23. A negative Content-Length is accepted and the part then never
    ends: the reader is constructed, every [read_chunk] leaves end-of-part
    unset because the running total cannot meet the negative length, and
    neither [read] nor [release] returns, however long they run and
    whatever the transport delivers. *)
Theorem negative_declared_length_never_ends :
  forall (boundary : bytes) (h : imultidict.t) (tr : Transport.t) (v : str) (L : Z),
  imultidict.get h CONTENT_LENGTH = Some v ->
  Str.int v = Ok L -> (L < 0)%Z ->
  exists reader,
    __init__ boundary h tr = Ok reader /\
    _length reader = Some L /\
    forall fuel, read fuel reader = None /\ release fuel reader = None.
Proof.
  intros boundary h tr v L Hget Hint HL. unfold __init__. rewrite Hget. cbn [bind].
  rewrite Hint. cbn [bind]. eexists. split; [reflexivity|]. split; [reflexivity|].
  intros fuel.
  assert (Hread : forall acc,
            read_loop fuel
              {| headers := h; _boundary := boundary; _content := tr; _at_eof := false;
                 _length := Some L; _read_bytes := 0; _unread := [];
                 _prev_chunk := None; _content_eof := 0 |} acc = None).
  { intros acc. apply (read_loop_negative fuel _ L); cbn; auto. lia. }
  split.
  - unfold read. cbn [_at_eof]. apply Hread.
  - unfold release. cbn [_at_eof]. rewrite (release_loop_read_loop fuel _ []).
    now rewrite Hread.
Qed.

End NegativeLength.

Lemma negative_declared_length_never_ends_witness :
  exists reader,
    BodyPartReader.__init__ (b "--X") sample_negative_length_headers
      (Transport.of_segments [b "ab" ++ CRLF ++ b "--X--" ++ CRLF]) = Ok reader /\
    BodyPartReader._length reader = Some (-5)%Z /\
    forall fuel,
      BodyPartReader.read fuel reader = None /\ BodyPartReader.release fuel reader = None.
Proof.
  apply (negative_declared_length_never_ends (b "--X") sample_negative_length_headers
           (Transport.of_segments [b "ab" ++ CRLF ++ b "--X--" ++ CRLF]) (s "-5") (-5)%Z).
  - reflexivity.
  - reflexivity.
  - lia.
Defined.

(** ** Parsing what a sender writes *)

Section ParseBackFacts.

Variable G : grammar.
Variable unquote : str -> str -> result str.

Hypothesis token_delimits : delimits G.

Lemma splitn_app_sep : forall sep m a r,
  Str.count sep a = 0 ->
  Str.splitn sep (S m) (a ++ sep :: r) = a :: Str.splitn sep m r.
Proof.
  induction a as [|c a IH]; intros r Ha.
  - cbn [app Str.splitn]. now rewrite Ascii.eqb_refl.
  - rewrite count_cons in Ha. cbn [app Str.splitn].
    destruct (Ascii.eqb c sep); [lia|]. now rewrite IH by lia.
Qed.

Lemma split_items : forall sep items a n,
  Str.count sep a = 0 -> Forall (fun i => Str.count sep i = 0) items ->
  length items <= n ->
  Str.splitn sep n (a ++ concat (map (cons sep) items)) = a :: items.
Proof.
  induction items as [|i items IH]; intros a n Ha Hall Hn; cbn [map concat].
  - rewrite app_nil_r. now apply splitn_absent.
  - inversion Hall as [|? ? Hi Hrest]; subst.
    destruct n as [|m]; [cbn in Hn; lia|].
    cbn [app]. rewrite splitn_app_sep by exact Ha.
    f_equal. apply IH; auto. cbn [length] in Hn. lia.
Qed.

Lemma length_items : forall (sep : ascii) items,
  length items <= length (concat (map (cons sep) items)).
Proof.
  induction items as [|i items IH]; cbn [map concat length]; [lia|].
  rewrite length_app. cbn [length]. lia.
Qed.

Lemma token_count : forall x d,
  is_token G x = true -> (forall c, TOKEN G c = true -> c <> d) -> Str.count d x = 0.
Proof.
  intros x d Ht Hd. unfold is_token in Ht. apply andb_true_iff in Ht. destruct Ht as [_ Ht].
  induction x as [|c x IH]; [reflexivity|].
  cbn [forallb] in Ht. apply andb_true_iff in Ht. destruct Ht as [Hc Hx].
  rewrite count_cons. destruct (Ascii.eqb c d) eqn:E.
  - apply Ascii.eqb_eq in E. elim (Hd c Hc E).
  - now apply IH.
Qed.

Lemma token_no_space : forall x,
  is_token G x = true -> forallb (fun c => negb (Str.isspace c)) x = true.
Proof.
  intros x Ht. unfold is_token in Ht. apply andb_true_iff in Ht. destruct Ht as [_ Ht].
  rewrite forallb_forall in *. intros c Hc.
  destruct (token_delimits c (Ht c Hc)) as (Hs & _). now rewrite Hs.
Qed.

Lemma split_item_of_item : forall kv,
  plain_parameter G kv -> split_item (parameter_item kv) = Some (fst kv, snd kv).
Proof.
  intros [k v] (Hk & Hv & Hlow & Hstar). cbn [fst snd] in *.
  unfold split_item, parameter_item. cbn [fst snd].
  assert (Heq : Str.count "=" (" "%char :: k) = 0).
  { rewrite count_cons. cbn [Ascii.eqb]. cbn.
    apply token_count; [exact Hk|]. intros c Hc. now destruct (token_delimits c Hc) as (_ & _ & ? & _). }
  change (" "%char :: k ++ s "=" ++ v) with ((" "%char :: k) ++ "="%char :: v).
  rewrite splitn_app_sep by exact Heq. rewrite splitn_zero.
  f_equal. f_equal.
  - cbn [Str.lower map]. fold (Str.lower k). rewrite Hlow.
    change (Str.lower_char " ") with " "%char.
    unfold Str.strip. cbn [Str.lstrip_by]. change (Str.isspace " ") with true. cbv iota.
    rewrite lstrip_by_none by now apply token_no_space.
    apply rstrip_by_none. now apply token_no_space.
  - unfold Str.lstrip. apply lstrip_by_none. now apply token_no_space.
Qed.

Lemma last_in : forall (l : str) d, l <> [] -> In (last l d) l.
Proof.
  induction l as [|c l IH]; intros d Hne; [now elim Hne|].
  destruct l as [|c' l]; [now left|].
  right. apply IH. discriminate.
Qed.

Lemma token_is_not_quoted : forall v, is_token G v = true -> is_quoted v = Ok false.
Proof.
  intros v Ht. destruct v as [|c v]; [discriminate|].
  unfold is_quoted. f_equal.
  assert (Hlast : TOKEN G (last (c :: v) c) = true).
  { unfold is_token in Ht. apply andb_true_iff in Ht. destruct Ht as [_ Ht].
    rewrite forallb_forall in Ht. apply Ht. apply last_in. discriminate. }
  destruct (token_delimits _ Hlast) as (_ & _ & _ & Hq).
  apply Ascii.eqb_neq in Hq. rewrite Hq. apply andb_false_r.
Qed.

Lemma dict_contains_notin : forall (params : dict) k,
  ~ In k (map fst params) -> dict_contains params k = false.
Proof.
  induction params as [|[k' v'] params IH]; intros k Hnot; [reflexivity|].
  unfold dict_contains, dict_get in *. cbn [find fst].
  destruct (Str.eqb k' k) eqn:E.
  - apply str_eqb_eq in E. subst k'. elim Hnot. now left.
  - apply IH. intros Hin. apply Hnot. now right.
Qed.

Lemma dict_set_absent : forall (params : dict) k v,
  ~ In k (map fst params) -> dict_set params k v = params ++ [(k, v)].
Proof.
  induction params as [|[k' v'] params IH]; intros k v Hnot; cbn [dict_set app].
  - reflexivity.
  - destruct (Str.eqb k' k) eqn:E.
    + apply str_eqb_eq in E. subst k'. elim Hnot. now left.
    + rewrite IH; [reflexivity|]. intros Hin. apply Hnot. now right.
Qed.

Lemma parse_params_plain : forall kvs2 kvs1,
  Forall (plain_parameter G) kvs2 -> NoDup (map fst (kvs1 ++ kvs2)) ->
  parse_params G unquote (map parameter_item kvs2) kvs1 = Ok (Some (kvs1 ++ kvs2)).
Proof.
  induction kvs2 as [|[k v] kvs2 IH]; intros kvs1 Hall Hnd; cbn [map parse_params].
  - now rewrite app_nil_r.
  - inversion Hall as [|? ? Hkv Hrest]; subst.
    rewrite (split_item_of_item _ Hkv). cbn [fst snd].
    destruct Hkv as (Hk & Hv & Hlow & Hstar). cbn [fst snd] in *.
    assert (Hnot : ~ In k (map fst kvs1)).
    { rewrite map_app in Hnd. cbn [map fst] in Hnd.
      apply NoDup_remove_2 in Hnd. intros Hin. apply Hnd. apply in_or_app. now left. }
    rewrite (dict_contains_notin kvs1 k Hnot), Hk. cbn [negb].
    assert (Hc : is_continuous_param k = false).
    { destruct (is_continuous_param k) eqn:E; [|reflexivity].
      rewrite continuous_has_star in Hstar by exact E. discriminate. }
    assert (He : is_extended_param k = false).
    { destruct (is_extended_param k) eqn:E; [|reflexivity].
      rewrite extended_has_star in Hstar by exact E. discriminate. }
    rewrite Hc, He, (token_is_not_quoted v Hv). cbn [bind]. rewrite Hv.
    rewrite (dict_set_absent kvs1 k v Hnot).
    rewrite IH; [now rewrite <- app_assoc | exact Hrest | now rewrite <- app_assoc].
Qed.

(** X29. Token parameters are parsed back: a header made of a token
    disposition type followed by [; name=value] parameters, the names
    pairwise different lower-case tokens without [*] and the values tokens,
    is parsed into the lower-cased type and exactly these parameters in
    their order; the [filename] of a part with that header is the value of
    its [filename] parameter. *)
Theorem token_parameters_are_parsed_back :
  forall (disptype : str) (kvs : list (str * str)),
  is_token G disptype = true ->
  Forall (plain_parameter G) kvs -> NoDup (map fst kvs) ->
  parse_content_disposition G unquote (render_parameters disptype kvs)
  = Ok (Some (Str.lower disptype), kvs) /\
  forall v, dict_get kvs (s "filename") = Some v ->
            BodyPartReaderHeaders.filename G unquote
              (reader_with_disposition (render_parameters disptype kvs))
            = Ok (Some v).
Proof.
  intros disptype kvs Hd Hall Hnd.
  assert (Hparse : parse_content_disposition G unquote (render_parameters disptype kvs)
                   = Ok (Some (Str.lower disptype), kvs)).
  { unfold parse_content_disposition, render_parameters.
    destruct disptype as [|c disptype]; [discriminate|].
    cbn [app truthy negb]. change (c :: disptype ++ ?x) with ((c :: disptype) ++ x).
    set (d := c :: disptype) in *.
    assert (Hsplit : Str.split ";" (d ++ concat (map (fun kv => ";"%char :: parameter_item kv) kvs))
                     = d :: map parameter_item kvs).
    { unfold Str.split.
      replace (map (fun kv => ";"%char :: parameter_item kv) kvs)
        with (map (cons ";"%char) (map parameter_item kvs))
        by (rewrite map_map; reflexivity).
      apply split_items.
      - apply token_count; [exact Hd|]. intros c0 Hc0.
        now destruct (token_delimits c0 Hc0) as (_ & ? & _).
      - rewrite Forall_map. eapply Forall_impl; [|exact Hall].
        intros [k v] (Hk & Hv & _ & _). cbn [fst snd] in *.
        unfold parameter_item. cbn [fst snd].
        change (" "%char :: k ++ s "=" ++ v) with ([" "%char] ++ k ++ ["="%char] ++ v).
        rewrite !count_app.
        rewrite (token_count k ";" Hk), (token_count v ";" Hv); [reflexivity | |];
          intros c0 Hc0; now destruct (token_delimits c0 Hc0) as (_ & ? & _).
      - rewrite length_app.
        apply (Nat.le_trans _ _ _ (length_items ";" (map parameter_item kvs))). lia. }
    rewrite Hsplit, Hd. cbn [negb].
    rewrite (parse_params_plain kvs [] Hall Hnd). reflexivity. }
  split; [exact Hparse|].
  intros v Hv. unfold BodyPartReaderHeaders.filename.
  assert (Hhdr : BodyPartReaderHeaders.disposition G unquote
                   (reader_with_disposition (render_parameters disptype kvs))
                 = parse_content_disposition G unquote (render_parameters disptype kvs))
    by reflexivity.
  rewrite Hhdr, Hparse. cbn [bind snd].
  unfold content_disposition_filename.
  destruct kvs as [|kv kvs]; [discriminate|]. cbn [truthy negb].
  destruct (dict_get (kv :: kvs) (s "filename" ++ s "*")) as [v'|] eqn:Es.
  - exfalso. unfold dict_get in Es.
    destruct (find (fun kv0 => Str.eqb (fst kv0) (s "filename" ++ s "*")) (kv :: kvs))
      as [[k0 v0]|] eqn:Ef; [|discriminate].
    apply find_some in Ef. destruct Ef as [Hin Heq]. cbn [fst] in Heq.
    apply str_eqb_eq in Heq. subst k0.
    rewrite Forall_forall in Hall. destruct (Hall _ Hin) as (_ & _ & _ & Hstar).
    cbn [fst] in Hstar. discriminate.
  - now rewrite Hv.
Qed.

End ParseBackFacts.

Lemma http_grammar_delimits : delimits http_grammar.
Proof.
  intros c Hc. destruct c as [[] [] [] [] [] [] [] []]; vm_compute in Hc;
    first [discriminate Hc | repeat split; discriminate].
Qed.

Lemma token_parameters_are_parsed_back_witness :
  parse_content_disposition http_grammar unquote_plain
    (render_parameters (s "Form-Data") [(s "name", s "field"); (s "filename", s "a.txt")])
  = Ok (Some (Str.lower (s "Form-Data")), [(s "name", s "field"); (s "filename", s "a.txt")])
  /\
  forall v, dict_get [(s "name", s "field"); (s "filename", s "a.txt")] (s "filename") = Some v ->
            BodyPartReaderHeaders.filename http_grammar unquote_plain
              (reader_with_disposition
                 (render_parameters (s "Form-Data")
                    [(s "name", s "field"); (s "filename", s "a.txt")]))
            = Ok (Some v).
Proof.
  apply (token_parameters_are_parsed_back http_grammar unquote_plain http_grammar_delimits
           (s "Form-Data") [(s "name", s "field"); (s "filename", s "a.txt")]).
  - reflexivity.
  - repeat constructor.
  - repeat constructor; cbn; intuition discriminate.
Defined.

Example form_data_with_token_values :
  render_parameters (s "Form-Data") [(s "name", s "field"); (s "filename", s "a.txt")]
  = s "Form-Data; name=field; filename=a.txt".
Proof. reflexivity. Qed.

(** ** The order of continuation segments *)

Section OrderFacts.

Lemma code_inj : forall c d, Str.code c = Str.code d -> c = d.
Proof.
  intros c d E. unfold Str.code in E.
  rewrite <- (ascii_N_embedding c), <- (ascii_N_embedding d). now rewrite E.
Qed.

Lemma compare_eq : forall x y, Str.compare x y = Eq -> x = y.
Proof.
  induction x as [|c x IH]; intros [|d y] E; cbn [Str.compare] in E; try discriminate.
  - reflexivity.
  - destruct (N.compare (Str.code c) (Str.code d)) eqn:Ec; try discriminate.
    apply N.compare_eq in Ec. apply code_inj in Ec. subst d. f_equal. now apply IH.
Qed.

Lemma compare_antisym : forall x y, Str.compare y x = CompOpp (Str.compare x y).
Proof.
  induction x as [|c x IH]; intros [|d y]; cbn [Str.compare]; try reflexivity.
  rewrite (N.compare_antisym (Str.code c) (Str.code d)).
  destruct (N.compare (Str.code c) (Str.code d)); cbn [CompOpp]; auto.
Qed.

Lemma compare_lt_trans : forall x y z,
  Str.compare x y = Lt -> Str.compare y z = Lt -> Str.compare x z = Lt.
Proof.
  induction x as [|c x IH]; intros [|d y] [|e z] H1 H2; cbn [Str.compare] in *;
    try discriminate; try reflexivity.
  destruct (N.compare (Str.code c) (Str.code d)) eqn:E1; try discriminate;
    destruct (N.compare (Str.code d) (Str.code e)) eqn:E2; try discriminate.
  - apply N.compare_eq in E1, E2. rewrite E1, E2, N.compare_refl. now apply (IH y).
  - apply N.compare_eq in E1. rewrite E1, E2. reflexivity.
  - apply N.compare_eq in E2. rewrite <- E2, E1. reflexivity.
  - rewrite N.compare_lt_iff in *.
    assert (Hlt : (Str.code c < Str.code e)%N) by lia.
    apply N.compare_lt_iff in Hlt. now rewrite Hlt.
Qed.

Lemma pair_le_total : forall x y, pair_leb x y = false -> pair_le y x.
Proof.
  intros x y E. unfold pair_le, pair_leb in *.
  rewrite (compare_antisym (fst x) (fst y)).
  destruct (Str.compare (fst x) (fst y)); cbn [CompOpp]; try discriminate; try reflexivity.
  rewrite (compare_antisym (snd x) (snd y)).
  destruct (Str.compare (snd x) (snd y)); cbn [CompOpp]; try discriminate; reflexivity.
Qed.

Lemma insert_sorted_perm : forall x l, Permutation (insert_sorted x l) (x :: l).
Proof.
  induction l as [|y l IH]; cbn [insert_sorted]; [reflexivity|].
  destruct (pair_leb x y); [reflexivity|].
  rewrite IH. apply perm_swap.
Qed.

Lemma sorted_perm : forall l, Permutation (sorted l) l.
Proof.
  induction l as [|x l IH]; cbn [sorted fold_right]; [reflexivity|].
  fold (sorted l). rewrite insert_sorted_perm. now constructor.
Qed.

Lemma insert_sorted_sorted : forall x l,
  Sorted pair_le l -> Sorted pair_le (insert_sorted x l).
Proof.
  induction l as [|y l IH]; intros Hs; cbn [insert_sorted].
  - repeat constructor.
  - destruct (pair_leb x y) eqn:E.
    + constructor; [exact Hs|]. constructor. exact E.
    + inversion Hs as [|? ? Hs' Hhd]; subst.
      constructor; [now apply IH|].
      destruct l as [|z l]; cbn [insert_sorted].
      * constructor. now apply pair_le_total.
      * destruct (pair_leb x z).
        -- constructor. now apply pair_le_total.
        -- inversion Hhd; subst. now constructor.
Qed.

Lemma sorted_sorted : forall l, Sorted pair_le (sorted l).
Proof.
  induction l as [|x l IH]; cbn [sorted fold_right]; [constructor|].
  fold (sorted l). now apply insert_sorted_sorted.
Qed.

(** With pairwise different keys, the order of the pairs is the order of
    the keys. *)
Lemma sorted_by_key : forall l,
  Sorted pair_le l -> NoDup (map fst l) -> StronglySorted key_lt l.
Proof.
  intros l Hs Hnd. apply Sorted_StronglySorted.
  - intros x y z. apply compare_lt_trans.
  - induction Hs as [|a l Hs IH Hhd]; [constructor|].
    cbn [map] in Hnd. inversion Hnd as [|? ? Hnot Hnd']; subst.
    constructor; [now apply IH|].
    destruct Hhd as [|b l Hab]; constructor.
    unfold key_lt. unfold pair_le, pair_leb in Hab.
    destruct (Str.compare (fst a) (fst b)) eqn:E; try discriminate; [|reflexivity].
    apply compare_eq in E. elim Hnot. rewrite E. now left.
Qed.

Lemma key_lt_irrefl : forall x, ~ key_lt x x.
Proof.
  intros x E. unfold key_lt in E.
  pose proof (compare_antisym (fst x) (fst x)) as Ha. rewrite E in Ha. discriminate.
Qed.

Lemma key_lt_asym : forall x y, key_lt x y -> ~ key_lt y x.
Proof.
  intros x y E1 E2. unfold key_lt in *.
  rewrite (compare_antisym (fst x) (fst y)), E1 in E2. discriminate.
Qed.

(** A list has one arrangement in the order of its keys. *)
Lemma sorted_unique : forall l1 l2,
  StronglySorted key_lt l1 -> StronglySorted key_lt l2 -> Permutation l1 l2 -> l1 = l2.
Proof.
  induction l1 as [|x l1 IH]; intros l2 H1 H2 Hp.
  - apply Permutation_nil in Hp. now subst.
  - destruct l2 as [|y l2]; [apply Permutation_sym, Permutation_nil in Hp; discriminate|].
    inversion H1 as [|? ? H1' Hx]; subst. inversion H2 as [|? ? H2' Hy]; subst.
    assert (Hxy : x = y).
    { assert (Hin1 : In x (y :: l2)) by (apply (Permutation_in _ Hp); now left).
      assert (Hin2 : In y (x :: l1))
        by (apply (Permutation_in _ (Permutation_sym Hp)); now left).
      destruct Hin1 as [E | Hin1]; [now symmetry|].
      destruct Hin2 as [E | Hin2]; [exact E|].
      rewrite Forall_forall in Hx, Hy.
      elim (key_lt_asym x y (Hx y Hin2) (Hy x Hin1)). }
    subst y. f_equal. apply IH; auto. now apply Permutation_cons_inv in Hp.
Qed.

Lemma segments_keys : forall vs,
  length vs <= 10 ->
  NoDup (map fst (segments_in_order vs)) /\
  StronglySorted key_lt (segments_in_order vs) /\
  collect_parts 0 (segments_in_order vs) = Ok vs.
Proof.
  intros vs Hlen.
  do 11 (destruct vs as [|? vs];
         [ split; [|split];
           [ repeat constructor; cbn; intuition discriminate
           | repeat constructor
           | reflexivity ]
         |]).
  cbn [length] in Hlen. lia.
Qed.

(** X24. Up to ten continuation segments are assembled in the order of
    their numbers, whatever the order of the parameters: when the
    parameters whose name starts with [filename*] are [filename*0] to
    [filename*(n-1)] with [n] at most ten, in any order, the parts
    assembled are their values from 0 to [n-1]; and with no exact
    [filename] parameter and no apostrophe in the values, the file name is
    their concatenation. *)
Theorem up_to_ten_segments_are_assembled_in_numeric_order :
  forall (unquote : str -> str -> result str) (params : dict) (vs : list str),
  length vs <= 10 ->
  Permutation (filter is_segment params) (segments_in_order vs) ->
  continuation_parts params = Ok vs /\
  (vs <> [] ->
   dict_get params (s "filename*") = None -> dict_get params (s "filename") = None ->
   Str.count APOSTROPHE (concat vs) = 0 ->
   content_disposition_filename unquote params (s "filename") = Ok (Some (concat vs))).
Proof.
  intros unquote params vs Hlen Hp.
  assert (Hparts : continuation_parts params = Ok vs).
  { unfold continuation_parts.
    destruct (segments_keys vs Hlen) as (Hnd & Hss & Hcollect).
    assert (Hsorted : sorted (filter is_segment params) = segments_in_order vs).
    { apply sorted_unique.
      - apply sorted_by_key; [apply sorted_sorted|].
        apply (Permutation_NoDup (l := map fst (segments_in_order vs))); [|exact Hnd].
        apply Permutation_map. symmetry. rewrite sorted_perm. exact Hp.
      - exact Hss.
      - rewrite sorted_perm. exact Hp. }
    change (fun kv : str * str => Str.startswith (fst kv) (s "filename*")) with is_segment.
    now rewrite Hsorted. }
  split; [exact Hparts|].
  intros Hne Hs Hn Hc.
  assert (Hparams : params <> []).
  { intros ->. cbn in Hp. apply Permutation_nil in Hp.
    destruct vs; [now elim Hne | discriminate]. }
  rewrite (filename_without_exact_key unquote params (s "filename") Hparams Hs Hn), Hparts.
  cbn [bind]. destruct vs as [|v vs]; [now elim Hne|]. cbn [truthy negb]. cbn zeta.
  apply member_count in Hc. now rewrite Hc.
Qed.

End OrderFacts.

Lemma up_to_ten_segments_are_assembled_in_numeric_order_witness :
  continuation_parts
    [(s "filename*2", s "c"); (s "size", s "3"); (s "filename*0", s "a");
     (s "filename*1", s "b")]
  = Ok [s "a"; s "b"; s "c"] /\
  content_disposition_filename unquote_plain
    [(s "filename*2", s "c"); (s "size", s "3"); (s "filename*0", s "a");
     (s "filename*1", s "b")] (s "filename")
  = Ok (Some (concat [s "a"; s "b"; s "c"])).
Proof.
  assert (Hp : Permutation
                 (filter is_segment
                    [(s "filename*2", s "c"); (s "size", s "3"); (s "filename*0", s "a");
                     (s "filename*1", s "b")])
                 (segments_in_order [s "a"; s "b"; s "c"])).
  { change (Permutation
              [(s "filename*2", s "c"); (s "filename*0", s "a"); (s "filename*1", s "b")]
              [(s "filename*0", s "a"); (s "filename*1", s "b"); (s "filename*2", s "c")]).
    apply (Permutation_cons_app [(s "filename*0", s "a"); (s "filename*1", s "b")] []).
    reflexivity. }
  destruct (up_to_ten_segments_are_assembled_in_numeric_order unquote_plain
              [(s "filename*2", s "c"); (s "size", s "3"); (s "filename*0", s "a");
               (s "filename*1", s "b")] [s "a"; s "b"; s "c"]
              ltac:(cbn; lia) Hp) as [Hparts Hname].
  split; [exact Hparts|].
  apply Hname; [discriminate | reflexivity | reflexivity | reflexivity].
Defined.

(** ** Quoted-printable, content types and dispositions *)

Section QuotedPrintableFacts.

Import MultipartPayloadWriter.

Variable C : compressor_ops.
Variable b2a_qp : bytes -> bytes.

Lemma feed_quoted_printable : forall chunks sink,
  encoding sink = Some (s "quoted-printable") -> compressor sink = None ->
  exists sink',
    feed C b2a_qp sink chunks = Ok sink' /\
    write_eof C b2a_qp sink' = Ok sink' /\
    writer sink' = writer sink ++ map b2a_qp chunks.
Proof.
  induction chunks as [|chunk chunks IH]; intros sink He Hc.
  - exists sink. cbn [feed map]. rewrite app_nil_r. split; [reflexivity|].
    split; [|reflexivity].
    unfold write_eof. rewrite Hc. cbn [bind]. unfold is_encoding. rewrite He. reflexivity.
  - cbn [feed map]. unfold write. rewrite Hc. unfold write_encoded, is_encoding. rewrite He.
    change (str_eqb (s "quoted-printable") (s "base64")) with false.
    change (str_eqb (s "quoted-printable") (s "quoted-printable")) with true.
    cbv iota. cbn [bind].
    destruct (IH (writer_write C sink (b2a_qp chunk)) He Hc) as (sink' & Hf & Hw & Hcat).
    exists sink'. split; [exact Hf|]. split; [exact Hw|].
    rewrite Hcat. cbn [writer writer_write]. now rewrite <- app_assoc.
Qed.

(** X25. With quoted-printable enabled and no compressor the sink encodes
    each chunk on its own: every [write] hands the underlying writer the
    encoding of that chunk, nothing is kept back, and [write_eof] writes
    nothing more, so the output depends on how the body was cut into
    chunks. *)
Theorem quoted_printable_sink_encodes_each_chunk_on_its_own :
  forall (w0 chunks : list bytes),
  exists sink,
    feed C b2a_qp (enable_encoding C (__init__ C w0) (s "quoted-printable")) chunks
    = Ok sink /\
    write_eof C b2a_qp sink = Ok sink /\
    writer sink = w0 ++ map b2a_qp chunks.
Proof.
  intros w0 chunks.
  exact (feed_quoted_printable chunks
           (enable_encoding C (__init__ C w0) (s "quoted-printable")) eq_refl eq_refl).
Qed.

End QuotedPrintableFacts.

Section ContentTypeFacts.

Variable H : helpers.

(** X26. A bytes payload constructed without the [content_type] keyword
    has the content type [application/octet-stream] whatever else it is
    given: neither its file name nor a Content-Type among the headers
    passed to it is consulted. *)
Theorem bytes_payload_content_type_is_octet_stream :
  forall (v : bytes) (headers : option imultidict.t) (filename encoding : option str),
  Payload.content_type H (Payload.BytesPayload__init__ v headers None filename encoding)
  = s "application/octet-stream".
Proof.
  intros v headers filename encoding.
  unfold Payload.BytesPayload__init__, Payload.payload_superclass.__init__,
    Payload.content_type.
  cbn [Payload._content_type Payload.set_size Payload.filename].
  destruct headers as [h|]; reflexivity.
Qed.

Lemma key_eqb_refl : forall k, imultidict.key_eqb k k = true.
Proof. intros k. apply str_eqb_eq. reflexivity. Qed.

Lemma key_eqb_iff : forall a c,
  imultidict.key_eqb a c = true <-> Str.lower a = Str.lower c.
Proof. intros a c. unfold imultidict.key_eqb. apply str_eqb_eq. Qed.

Lemma key_eqb_false : forall a c,
  imultidict.key_eqb a c = false <-> Str.lower a <> Str.lower c.
Proof.
  intros a c. split.
  - intros E Heq. apply key_eqb_iff in Heq. congruence.
  - intros Hne. destruct (imultidict.key_eqb a c) eqn:E; [|reflexivity].
    apply key_eqb_iff in E. contradiction.
Qed.

Lemma getall_popall : forall h k k',
  imultidict.getall (imultidict.popall h k) k'
  = if imultidict.key_eqb k' k then None else imultidict.getall h k'.
Proof.
  induction h as [|[k0 vs] h IH]; intros k k'; cbn [imultidict.popall filter fst].
  - cbn. now destruct (imultidict.key_eqb k' k).
  - fold (imultidict.popall h k).
    destruct (imultidict.key_eqb k k0) eqn:E; cbn [negb imultidict.getall]; rewrite IH.
    + destruct (imultidict.key_eqb k' k) eqn:E'; [reflexivity|].
      destruct (imultidict.key_eqb k' k0) eqn:E''; [|reflexivity].
      apply key_eqb_iff in E, E''. apply key_eqb_false in E'. congruence.
    + destruct (imultidict.key_eqb k' k0) eqn:E''; [|reflexivity].
      destruct (imultidict.key_eqb k' k) eqn:E'; [|reflexivity].
      apply key_eqb_iff in E', E''. apply key_eqb_false in E. congruence.
Qed.

(** X27. [set_content_disposition] replaces the disposition: afterwards the
    payload has headers whose Content-Disposition is the one rendered
    header value, whatever values were there before under any spelling of
    the name, and every other header is as it was. *)
Theorem set_content_disposition_replaces_the_header :
  forall (p p' : Payload.t) (h : option imultidict.t) (disptype : str)
         (params : list (str * str)) (quote_fields : bool),
  Payload.headers p = Assigned h ->
  Payload.set_content_disposition H p disptype params quote_fields = Ok p' ->
  exists v h',
    content_disposition_header H disptype params quote_fields = Ok v /\
    Payload.headers p' = Assigned (Some h') /\
    imultidict.getall h' CONTENT_DISPOSITION = Some [v] /\
    forall k, imultidict.key_eqb k CONTENT_DISPOSITION = false ->
              imultidict.getall h' k
              = match h with Some h0 => imultidict.getall h0 k | None => None end.
Proof.
  intros p p' h disptype params q Hh Hset.
  unfold Payload.set_content_disposition in Hset. rewrite Hh in Hset.
  destruct (content_disposition_header H disptype params q) as [v|e]; cbn [bind] in Hset;
    [|discriminate].
  injection Hset as <-. exists v. eexists. split; [reflexivity|].
  cbn [Payload.headers Payload.set_headers]. split; [reflexivity|].
  split.
  - apply getall_setitem_new. destruct h as [h0|]; [|reflexivity].
    rewrite getall_popall. now rewrite key_eqb_refl.
  - intros k Hk. rewrite getall_setitem_other by exact Hk.
    destruct h as [h0|]; [|reflexivity]. rewrite getall_popall. now rewrite Hk.
Qed.

End ContentTypeFacts.

Lemma set_content_disposition_replaces_the_header_witness :
  match Payload.set_content_disposition sample_helpers sample_payload (s "attachment")
          [(s "filename", s "a.txt")] true with
  | Ok p' =>
      exists v h',
        content_disposition_header sample_helpers (s "attachment")
          [(s "filename", s "a.txt")] true = Ok v /\
        Payload.headers p' = Assigned (Some h') /\
        imultidict.getall h' CONTENT_DISPOSITION = Some [v] /\
        forall k, imultidict.key_eqb k CONTENT_DISPOSITION = false ->
                  imultidict.getall h' k
                  = imultidict.getall (imultidict.of_mapping [(s "X-A", s "1")]) k
  | Raise _ => False
  end.
Proof.
  destruct (Payload.set_content_disposition sample_helpers sample_payload (s "attachment")
              [(s "filename", s "a.txt")] true) as [p'|e] eqn:E.
  - exact (set_content_disposition_replaces_the_header sample_helpers sample_payload p'
             (Some (imultidict.of_mapping [(s "X-A", s "1")])) (s "attachment")
             [(s "filename", s "a.txt")] true eq_refl E).
  - vm_compute in E. discriminate.
Defined.
